(** * replace_images.py: name matching and backup-then-overwrite

    A shallow embedding of [script.py].  Strings are [string]s whose
    characters are read as the code points 0..255; a path is the list of its
    components; the two lookup dictionaries are association lists in
    insertion order; the file system is a finite map from paths to entries,
    threaded through the run together with the program's lists and its
    console output. *)

From Stdlib Require Import Ascii QArith.
From stdpp Require Import gmap strings list sorting.

(** ** Characters and the string methods the script calls *)

Definition code (c : ascii) : N := N_of_ascii c.

Definition in_range (lo hi n : N) : bool := ((lo <=? n) && (n <=? hi))%N.

(** [str.lower] on one code point below 256: A-Z and the Latin-1 capitals
    (all of 192..222 but the multiplication sign) move up by 32. *)
Definition char_lower (c : ascii) : ascii :=
  let n := code c in
  if in_range 65 90 n || (in_range 192 222 n && negb (n =? 215)%N)
  then ascii_of_N (n + 32) else c.

(** [str.isspace] and the regex class [\s] on code points below 256. *)
Definition isspace (c : ascii) : bool :=
  let n := code c in
  in_range 9 13 n || in_range 28 32 n || (n =? 133)%N || (n =? 160)%N.

Definition is_lower_letter (c : ascii) : bool := in_range 97 122 (code c).
Definition is_digit (c : ascii) : bool := in_range 48 57 (code c).
Definition is_hyphen (c : ascii) : bool := (code c =? 45)%N.
Definition is_underscore (c : ascii) : bool := (code c =? 95)%N.
Definition is_dot (c : ascii) : bool := (code c =? 46)%N.

Fixpoint lower (s : string) : string :=
  match s with
  | EmptyString => EmptyString
  | String c s' => String (char_lower c) (lower s')
  end.

Fixpoint lstrip (s : string) : string :=
  match s with
  | EmptyString => EmptyString
  | String c s' => if isspace c then lstrip s' else s
  end.

Fixpoint rstrip (s : string) : string :=
  match s with
  | EmptyString => EmptyString
  | String c s' =>
      match rstrip s' with
      | EmptyString => if isspace c then EmptyString else String c EmptyString
      | r => String c r
      end
  end.

Definition strip (s : string) : string := rstrip (lstrip s).

(** [s.endswith(suf)]: some tail of [s] is [suf]. *)
Fixpoint endswith (s suf : string) : bool :=
  if String.eqb s suf then true
  else match s with
       | EmptyString => false
       | String _ s' => endswith s' suf
       end.

(** [x in y] on strings: [x] is a prefix of some tail of [y]. *)
Fixpoint contains (y x : string) : bool :=
  if String.prefix x y then true
  else match y with
       | EmptyString => false
       | String _ y' => contains y' x
       end.

(** ** normalize_stem *)

(** [re.sub(r'[_\s]+', '-', s)]: [in_run] tells that the previous character
    belonged to the run being replaced. *)
Definition is_sep (c : ascii) : bool := is_underscore c || isspace c.

Fixpoint sub_sep_runs (in_run : bool) (s : string) : string :=
  match s with
  | EmptyString => EmptyString
  | String c s' =>
      if is_sep c
      then if in_run then sub_sep_runs true s'
           else String "-" (sub_sep_runs true s')
      else String c (sub_sep_runs false s')
  end.

(** [re.sub(r'[^a-z0-9\-]', '', s)]. *)
Definition is_kept (c : ascii) : bool :=
  is_lower_letter c || is_digit c || is_hyphen c.

Fixpoint strip_unkept (s : string) : string :=
  match s with
  | EmptyString => EmptyString
  | String c s' => if is_kept c then String c (strip_unkept s') else strip_unkept s'
  end.

(** [re.sub(r'-{2,}', '-', s)]: a run of two or more hyphens becomes one
    hyphen and a lone hyphen stays, so every run leaves exactly one. *)
Fixpoint sub_hyphen_runs (in_run : bool) (s : string) : string :=
  match s with
  | EmptyString => EmptyString
  | String c s' =>
      if is_hyphen c
      then if in_run then sub_hyphen_runs true s'
           else String c (sub_hyphen_runs true s')
      else String c (sub_hyphen_runs false s')
  end.

Definition normalize_stem (s : string) : string :=
  let s := strip (lower s) in
  let s := sub_sep_runs false s in
  let s := strip_unkept s in
  let s := sub_hyphen_runs false s in
  s.

(** ** os.path on component lists *)

Abbreviation path := (list string).

(** [os.path.splitext] on one component: split at the last dot unless only
    dots come before it. *)
Fixpoint split_last_dot (s : string) : option (string * string) :=
  match s with
  | EmptyString => None
  | String c s' =>
      match split_last_dot s' with
      | Some (a, b) => Some (String c a, b)
      | None => if is_dot c then Some (EmptyString, s) else None
      end
  end.

Fixpoint all_dots (s : string) : bool :=
  match s with
  | EmptyString => true
  | String c s' => is_dot c && all_dots s'
  end.

Definition splitext (name : string) : string * string :=
  match split_last_dot name with
  | Some (a, b) => if all_dots a then (name, EmptyString) else (a, b)
  | None => (name, EmptyString)
  end.

Definition basename (p : path) : string := List.last p EmptyString.
Definition dirname (p : path) : path := removelast p.
Definition join (p : path) (q : path) : path := p ++ q.

Example splitext_photo : splitext "My Photo_01.JPG" = ("My Photo_01", ".JPG").
Proof. reflexivity. Qed.
Example splitext_hidden : splitext ".jpg" = (".jpg", "").
Proof. reflexivity. Qed.
Example normalize_photo : normalize_stem "My Photo_01" = "my-photo-01".
Proof. reflexivity. Qed.
Example normalize_tabs : normalize_stem "  A	b__ -c!! " = "a-b-c".
Proof. reflexivity. Qed.

(** ** difflib: SequenceMatcher and get_close_matches

    The standard-library code behind the fuzzy tier, with [isjunk=None] and
    [autojunk=True] as [get_close_matches] builds its matcher.  Sequence [a]
    is the candidate and [b] the word looked for.  Ratios are exact
    rationals: a float ratio [2.0*M/T] compares with another one, and with
    the cutoff, the way the rationals do for every string a file name can
    be. *)
Module difflib.

Definition seq := list ascii.
Definition Match : Type := nat * nat * nat.

Fixpoint indices_from (j : nat) (x : ascii) (b : seq) : list nat :=
  match b with
  | [] => []
  | y :: b' =>
      if Ascii.eqb x y then j :: indices_from (S j) x b'
      else indices_from (S j) x b'
  end.

(** [__chain_b]: positions of each element of [b]; with 200 elements or
    more, an element that fills more than 1% + 1 of them is dropped. *)
Definition popular (b : seq) (x : ascii) : bool :=
  (200 <=? length b) && (length b / 100 + 1 <? length (indices_from 0 x b)).

Definition b2j (b : seq) (x : ascii) : list nat :=
  if popular b x then [] else indices_from 0 x b.

(** [j2len.get(j-1, 0)] *)
Definition j2len_prev (j2len : gmap nat nat) (j : nat) : nat :=
  match j with
  | 0 => 0
  | S j' => default 0 (j2len !! j')
  end.

(** The inner [for j in b2j.get(a[i], nothing)] of [find_longest_match]. *)
Fixpoint scan_js (i blo bhi : nat) (j2len : gmap nat nat) (js : list nat)
    (newj2len : gmap nat nat) (best : Match) : gmap nat nat * Match :=
  match js with
  | [] => (newj2len, best)
  | j :: js' =>
      if j <? blo then scan_js i blo bhi j2len js' newj2len best
      else if bhi <=? j then (newj2len, best)
      else
        let k := j2len_prev j2len j + 1 in
        let best' := if best.2 <? k then (i + 1 - k, j + 1 - k, k) else best in
        scan_js i blo bhi j2len js' (<[j := k]> newj2len) best'
  end.

(** The outer [for i in range(alo, ahi)]. *)
Fixpoint scan_is (a b : seq) (blo bhi : nat) (ixs : list nat)
    (j2len : gmap nat nat) (best : Match) : Match :=
  match ixs with
  | [] => best
  | i :: ixs' =>
      let js := from_option (b2j b) [] (a !! i) in
      let '(newj2len, best') := scan_js i blo bhi j2len js ∅ best in
      scan_is a b blo bhi ixs' newj2len best'
  end.

Definition same_at (a b : seq) (i j : nat) : bool :=
  match a !! i, b !! j with
  | Some x, Some y => Ascii.eqb x y
  | _, _ => false
  end.

(** First [while]: grow the block to the left. *)
Fixpoint extend_left (a b : seq) (alo blo besti bestj bestsize : nat) : Match :=
  match besti, bestj with
  | S i', S j' =>
      if (alo <? besti) && (blo <? bestj) && same_at a b i' j'
      then extend_left a b alo blo i' j' (S bestsize)
      else (besti, bestj, bestsize)
  | _, _ => (besti, bestj, bestsize)
  end.

(** Second [while]: grow it to the right; [room] is [ahi - (besti+bestsize)],
    which is 0 exactly when the loop's first test fails. *)
Fixpoint extend_right (a b : seq) (bhi besti bestj bestsize room : nat) : Match :=
  match room with
  | 0 => (besti, bestj, bestsize)
  | S room' =>
      if (bestj + bestsize <? bhi) && same_at a b (besti + bestsize) (bestj + bestsize)
      then extend_right a b bhi besti bestj (S bestsize) room'
      else (besti, bestj, bestsize)
  end.

(** [find_longest_match]; the two loops over junk never run, [bjunk]
    being empty. *)
Definition find_longest_match (a b : seq) (alo ahi blo bhi : nat) : Match :=
  let '(besti, bestj, bestsize) :=
    scan_is a b blo bhi (List.seq alo (ahi - alo)) ∅ (alo, blo, 0) in
  let '(besti, bestj, bestsize) := extend_left a b alo blo besti bestj bestsize in
  extend_right a b bhi besti bestj bestsize (ahi - (besti + bestsize)).

(** Sum of the sizes of [get_matching_blocks]: the block found in a
    window, then the windows left and right of it.  The queue of the
    source visits the same windows; [fuel] bounds the nesting. *)
Fixpoint matches_in (fuel : nat) (a b : seq) (alo ahi blo bhi : nat) : nat :=
  match fuel with
  | 0 => 0
  | S fuel' =>
      let '(i, j, k) := find_longest_match a b alo ahi blo bhi in
      if k =? 0 then 0
      else k
           + (if (alo <? i) && (blo <? j)
              then matches_in fuel' a b alo i blo j else 0)
           + (if (i + k <? ahi) && (j + k <? bhi)
              then matches_in fuel' a b (i + k) ahi (j + k) bhi else 0)
  end.

Definition matches (a b : seq) : nat :=
  matches_in (S (length a)) a b 0 (length a) 0 (length b).

Definition calculate_ratio (matches length : nat) : Q :=
  match length with
  | 0 => 1%Q
  | _ => Qmake (Z.of_nat (2 * matches)) (Pos.of_nat length)
  end.

Definition ratio (a b : seq) : Q :=
  calculate_ratio (matches a b) (length a + length b).

(** [quick_ratio]: size of the multiset intersection. *)
Fixpoint count_of (x : ascii) (b : seq) : nat :=
  match b with
  | [] => 0
  | y :: b' => (if Ascii.eqb x y then 1 else 0) + count_of x b'
  end.

Fixpoint quick_matches (b a : seq) (avail : gmap ascii Z) (matches : nat) : nat :=
  match a with
  | [] => matches
  | elt :: a' =>
      let numb := match avail !! elt with
                  | Some n => n
                  | None => Z.of_nat (count_of elt b)
                  end in
      quick_matches b a' (<[elt := (numb - 1)%Z]> avail)
        (if (0 <? numb)%Z then S matches else matches)
  end.

Definition quick_ratio (a b : seq) : Q :=
  calculate_ratio (quick_matches b a ∅ 0) (length a + length b).

Definition real_quick_ratio (a b : seq) : Q :=
  calculate_ratio (Nat.min (length a) (length b)) (length a + length b).

(** Tuples [(score, x)] compare by score, then by string. *)
Definition tuple_gt (t1 t2 : Q * string) : bool :=
  if Qeq_bool t1.1 t2.1 then String.ltb t2.2 t1.2
  else negb (Qle_bool t1.1 t2.1).

(** [heapq.nlargest(1, result)], that is [max(result)]: the first of the
    greatest tuples. *)
Definition nlargest1 (result : list (Q * string)) : list (Q * string) :=
  match result with
  | [] => []
  | t :: rest => [fold_left (fun best t' => if tuple_gt t' best then t' else best) rest t]
  end.

Definition passes (cutoff : Q) (word x : string) : bool :=
  let a := String.list_ascii_of_string x in
  let b := String.list_ascii_of_string word in
  Qle_bool cutoff (real_quick_ratio a b)
  && Qle_bool cutoff (quick_ratio a b)
  && Qle_bool cutoff (ratio a b).

Definition score (word x : string) : Q :=
  ratio (String.list_ascii_of_string x) (String.list_ascii_of_string word).

(** [get_close_matches(word, possibilities, n=1, cutoff)]; [None] is the
    [ValueError] for a cutoff outside [0, 1]. *)
Definition get_close_matches (word : string) (possibilities : list string)
    (cutoff : Q) : option (list string) :=
  if Qle_bool 0 cutoff && Qle_bool cutoff 1 then
    let result :=
      List.map (fun x => (score word x, x))
               (List.filter (passes cutoff word) possibilities) in
    Some (List.map snd (nlargest1 result))
  else None.

End difflib.

Example ratio_abcd_bcde :
  difflib.ratio (String.list_ascii_of_string "abcd") (String.list_ascii_of_string "bcde") = Qmake 6 8.
Proof. vm_compute. reflexivity. Qed.

(** ** Exceptions *)

Inductive exn :=
  | SystemExit (folder : path)   (* no image file under the reference folder *)
  | IndexError                   (* [bucket[0]] on an empty bucket *)
  | KeyError                     (* [by_stem[k]] on a missing key *)
  | ValueError                   (* cutoff outside [0, 1] *)
  | TypeError                    (* [os.path.join(None, ...)] *)
  | OSError.                     (* a file-system call failed *)

#[global] Instance exn_ret : MRet (sum exn) := fun _ x => inr x.
#[global] Instance exn_bind : MBind (sum exn) := fun _ _ f m =>
  match m with
  | inl e => inl e
  | inr x => f x
  end.

(** ** Dictionaries in insertion order *)

Section dict.
Context {V : Type}.
Implicit Types (k : string) (d : list (string * V)).

Fixpoint dict_get k d : option V :=
  match d with
  | [] => None
  | (k', v) :: d' => if String.eqb k k' then Some v else dict_get k d'
  end.

(** [d.setdefault(k, v)]: a new key goes last, a known key keeps its value. *)
Fixpoint setdefault k (v : V) d : list (string * V) :=
  match d with
  | [] => [(k, v)]
  | (k', v') :: d' =>
      if String.eqb k k' then d else (k', v') :: setdefault k v d'
  end.

(** In-place change of the value stored under [k]. *)
Fixpoint dict_alter (f : V → V) k d : list (string * V) :=
  match d with
  | [] => []
  | (k', v) :: d' =>
      if String.eqb k k' then (k', f v) :: d' else (k', v) :: dict_alter f k d'
  end.

Definition keys d : list string := List.map fst d.
End dict.

(** ** The reference index *)

Definition IMAGE_EXTS : list string :=
  [".jpg"; ".jpeg"; ".png"; ".gif"; ".webp"; ".svg"; ".bmp"; ".ico"].

(** [f.lower().endswith(IMAGE_EXTS)] *)
Definition is_image (f : string) : bool := existsb (endswith (lower f)) IMAGE_EXTS.

(** What [os.walk] yields: one [(root, dirs, files)] per directory. *)
Definition walk_item : Type := path * list string * list string.

Definition gather (walk : list walk_item) : list path :=
  flat_map (fun '(root, _, files) =>
              List.map (fun f => join root [f]) (List.filter is_image files)) walk.

Record index := Index {
  by_fullname : list (string * path);
  by_stem : list (string * list path)
}.

Definition index_add (idx : index) (p : path) : index :=
  let name := basename p in
  let stem := (splitext name).1 in
  let norm := normalize_stem stem in
  {| by_fullname := setdefault (lower name) p (by_fullname idx);
     by_stem := dict_alter (fun bucket => bucket ++ [p]) norm
                  (setdefault norm [] (by_stem idx)) |}.

Definition build_index (website_files : list path) : index :=
  fold_left index_add website_files (Index [] []).

(** ** The matcher *)

Inductive method :=
  | exact_filename
  | stem_match
  | fuzzy_match (key : string)
  | partial (key : string).

Definition method_str (m : method) : string :=
  match m with
  | exact_filename => "exact_filename"
  | stem_match => "stem_match"
  | fuzzy_match k => "fuzzy_match(" +:+ k +:+ ")"
  | partial k => "partial(" +:+ k +:+ ")"
  end.

(** [bucket[0]] *)
Definition first_path (bucket : list path) : exn + path :=
  match bucket with
  | p :: _ => inr p
  | [] => inl IndexError
  end.

(** The loop of tier 4: the first item whose key contains, or lies in,
    [tnorm]. *)
Fixpoint find_partial (tnorm : string) (items : list (string * list path))
    : option (string * list path) :=
  match items with
  | [] => None
  | (wnorm, paths) :: items' =>
      if contains wnorm tnorm || contains tnorm wnorm then Some (wnorm, paths)
      else find_partial tnorm items'
  end.

Definition chosen : Type := option (path * method).

Definition tier_exact (idx : index) (fname : string) : chosen :=
  match dict_get (lower fname) (by_fullname idx) with
  | Some p => Some (p, exact_filename)
  | None => None
  end.

Definition tier_stem (idx : index) (tnorm : string) : exn + chosen :=
  match dict_get tnorm (by_stem idx) with
  | Some bucket => p ← first_path bucket; mret (Some (p, stem_match))
  | None => mret None
  end.

Definition tier_fuzzy (idx : index) (cutoff : Q) (tnorm : string) : exn + chosen :=
  match difflib.get_close_matches tnorm (keys (by_stem idx)) cutoff with
  | None => inl ValueError
  | Some [] => mret None
  | Some (k :: _) =>
      match dict_get k (by_stem idx) with
      | None => inl KeyError
      | Some bucket => p ← first_path bucket; mret (Some (p, fuzzy_match k))
      end
  end.

Definition tier_partial (idx : index) (tnorm : string) : exn + chosen :=
  match find_partial tnorm (by_stem idx) with
  | Some (wnorm, paths) => p ← first_path paths; mret (Some (p, partial wnorm))
  | None => mret None
  end.

(** Lines 81-110: each later tier runs only while nothing is chosen. *)
Definition match_target (idx : index) (cutoff : Q) (fname : string) : exn + chosen :=
  let c := tier_exact idx fname in
  let tnorm := normalize_stem (splitext fname).1 in
  c ← (if c is None then tier_stem idx tnorm else mret c);
  c ← (if c is None then tier_fuzzy idx cutoff tnorm else mret c);
  c ← (if c is None then tier_partial idx tnorm else mret c);
  mret c.

(** ** The file system *)

Inductive entry :=
  | File (data : list Byte.byte)
  | Dir
  | Other.   (* neither a regular file nor a directory *)

Abbreviation filesystem := (gmap path entry).

Definition exists_ (fs : filesystem) (p : path) : bool := bool_decide (is_Some (fs !! p)).
Definition isdir (fs : filesystem) (p : path) : bool :=
  match fs !! p with
  | Some Dir => true
  | _ => false
  end.
Definition isfile (fs : filesystem) (p : path) : bool :=
  match fs !! p with
  | Some (File _) => true
  | _ => false
  end.

Fixpoint strip_prefix (p q : path) : option path :=
  match p, q with
  | [], _ => Some q
  | x :: p', y :: q' => if String.eqb x y then strip_prefix p' q' else None
  | _ :: _, [] => None
  end.

(** The name under which [q] is listed in directory [p], if it is. *)
Definition child_of (p q : path) : option string :=
  match strip_prefix p q with
  | Some [n] => Some n
  | _ => None
  end.

(** [os.listdir(p)], in no particular order. *)
Definition listdir (fs : filesystem) (p : path) : exn + list string :=
  if isdir fs p then inr (omap (child_of p) (elements (dom fs)))
  else inl OSError.

(** [sorted] on strings compares code points. *)
Definition sorted (l : list string) : list string := merge_sort String.le l.

(** [os.path.relpath(p, start)] on component lists. *)
Fixpoint relpath_go (p start : path) : path :=
  match p, start with
  | x :: p', y :: start' =>
      if String.eqb x y then relpath_go p' start'
      else replicate (length start) ".." ++ p
  | _, _ => replicate (length start) ".." ++ p
  end.

Definition relpath (p start : path) : path :=
  match relpath_go p start with
  | [] => ["."]
  | r => r
  end.

(** [os.mkdir] *)
Definition mkdir (name : path) (fs : filesystem) : exn + filesystem :=
  match fs !! name with
  | Some _ => inl OSError
  | None =>
      if isdir fs (dirname name) then inr (<[name := Dir]> fs) else inl OSError
  end.

(** [os.makedirs(name, exist_ok=True)], on the reversed name: create the
    missing head first, then the directory itself, and let an existing
    directory pass. *)
Fixpoint makedirs_rev (rname : list string) (fs : filesystem) : exn + filesystem :=
  fs ← match rname with
       | _ :: rhead =>
           match rhead with
           | _ :: _ =>
               if exists_ fs (rev rhead) then mret fs else makedirs_rev rhead fs
           | [] => mret fs
           end
       | [] => mret fs
       end;
  match mkdir (rev rname) fs with
  | inr fs' => inr fs'
  | inl e => if isdir fs (rev rname) then inr fs else inl e
  end.

Definition makedirs (name : path) (fs : filesystem) : exn + filesystem :=
  makedirs_rev (rev name) fs.

(** [shutil.copy2(src, dst)]: into [dst] when it is a directory; refuses to
    copy a file onto itself; reads a regular file and writes a regular
    file in an existing directory. *)
Definition copy2 (src dst : path) (fs : filesystem) : exn + filesystem :=
  let dst := if isdir fs dst then join dst [basename src] else dst in
  if bool_decide (src = dst) then inl OSError
  else match fs !! src with
       | Some (File data) =>
           match fs !! dst with
           | Some Dir | Some Other => inl OSError
           | Some (File _) | None =>
               if isdir fs (dirname dst) then inr (<[dst := File data]> fs)
               else inl OSError
           end
       | _ => inl OSError
       end.

(** ** Configuration, environment, program state *)

Record config := Config {
  WEBSITE_FOLDER : path;
  ASSETS_IMAGES : path;
  DRY_RUN : bool;
  MAKE_BACKUP : bool;
  FUZZY_CUTOFF : Q
}.

(** The constants of the script. *)
Definition default_config : config :=
  {| WEBSITE_FOLDER := ["R:"; "lenslytics-html-files"; "website_image"];
     ASSETS_IMAGES := ["R:"; "lenslytics-html-files"; "assets"; "images"];
     DRY_RUN := false;
     MAKE_BACKUP := true;
     FUZZY_CUTOFF := Qmake 78 100 |}.

(** What the run reads from outside the file system: the sequence
    [os.walk(WEBSITE_FOLDER)] yields, in the order the system gives it, and
    the clock, already formatted by [strftime]. *)
Record environment := Environment {
  walked : list walk_item;
  now : string
}.

Inductive fsop :=
  | Walk (top : path)
  | Listdir (p : path)
  | Isdir (p : path)
  | Isfile (p : path)
  | Makedirs (p : path)
  | Copy2 (src dst : path).

(** One constructor per [print] call of the script. *)
Inductive line :=
  | Notice (dry : bool) (target src : path) (m : method)
  | SummaryHeader
  | TotalScanned (n : nat)
  | TotalReplacements (n : nat)
  | ReplacementsHeader
  | ReplacementItem (target src : path) (m : method)
  | UnmatchedCount (n : nat)
  | ExamplesHeader
  | UnmatchedItem (p : path)
  | BackupsIn (root : path)
  | NoBackups
  | Done.

Definition match_result : Type := path * path * method.

Record state := State {
  fs : filesystem;
  replacements : list match_result;
  unmatched : list path;
  stdout : list line;
  oplog : list fsop
}.

Definition initial (fs0 : filesystem) : state := State fs0 [] [] [] [].

(** ** The state-and-exception monad of the run *)

Definition M (A : Type) : Type := state → (exn + A) * state.

#[global] Instance M_ret : MRet M := fun _ x s => (inr x, s).
#[global] Instance M_bind : MBind M := fun _ _ f m s =>
  match m s with
  | (inl e, s') => (inl e, s')
  | (inr x, s') => f x s'
  end.

Definition raise {A} (e : exn) : M A := fun s => (inl e, s).
Definition lift {A} (r : exn + A) : M A := fun s => (r, s).
Definition skip : M unit := mret tt.

Definition log (op : fsop) : M unit := fun s =>
  (inr tt, State (fs s) (replacements s) (unmatched s) (stdout s) (oplog s ++ [op])).
Definition print (l : line) : M unit := fun s =>
  (inr tt, State (fs s) (replacements s) (unmatched s) (stdout s ++ [l]) (oplog s)).
Definition replacements_append (r : match_result) : M unit := fun s =>
  (inr tt, State (fs s) (replacements s ++ [r]) (unmatched s) (stdout s) (oplog s)).
Definition unmatched_append (p : path) : M unit := fun s =>
  (inr tt, State (fs s) (replacements s) (unmatched s ++ [p]) (stdout s) (oplog s)).

(** A call that reads the file system. *)
Definition query {A} (f : filesystem → A) : M A := fun s => (inr (f (fs s)), s).
(** A call that changes it, or fails and leaves it as it was. *)
Definition mutate (f : filesystem → exn + filesystem) : M unit := fun s =>
  match f (fs s) with
  | inr fs' => (inr tt, State fs' (replacements s) (unmatched s) (stdout s) (oplog s))
  | inl e => (inl e, s)
  end.

Definition os_listdir (p : path) : M (list string) :=
  log (Listdir p);; r ← query (fun fs => listdir fs p); lift r.
Definition os_path_isdir (p : path) : M bool := log (Isdir p);; query (fun fs => isdir fs p).
Definition os_path_isfile (p : path) : M bool := log (Isfile p);; query (fun fs => isfile fs p).
Definition os_makedirs (p : path) : M unit := log (Makedirs p);; mutate (makedirs p).
Definition shutil_copy2 (src dst : path) : M unit := log (Copy2 src dst);; mutate (copy2 src dst).

Fixpoint for_each {A} (l : list A) (body : A → M unit) : M unit :=
  match l with
  | [] => skip
  | x :: l' => body x;; for_each l' body
  end.

(** ** The script *)

Definition take_backup_root (cfg : config) (env : environment) : option path :=
  if MAKE_BACKUP cfg
  then Some (join (ASSETS_IMAGES cfg) ["_backup_" +:+ now env])
  else None.

(** Lines 116-120. *)
Definition backup (cfg : config) (backup_root : option path) (target_path : path) : M unit :=
  if MAKE_BACKUP cfg && negb (DRY_RUN cfg) then
    match backup_root with
    | None => raise TypeError
    | Some root =>
        let backup_target := join root (relpath target_path (ASSETS_IMAGES cfg)) in
        os_makedirs (dirname backup_target);;
        shutil_copy2 target_path backup_target
    end
  else skip.

(** Lines 122-123. *)
Definition replace (cfg : config) (chosen_src target_path : path) : M unit :=
  if negb (DRY_RUN cfg) then shutil_copy2 chosen_src target_path else skip.

(** Lines 74-126: the body of the inner loop. *)
Definition process_file (cfg : config) (idx : index) (backup_root : option path)
    (subpath : path) (fname : string) : M unit :=
  let target_path := join subpath [fname] in
  f ← os_path_isfile target_path;
  if negb f then skip
  else if negb (is_image fname) then skip
  else
    c ← lift (match_target idx (FUZZY_CUTOFF cfg) fname);
    match c with
    | None => unmatched_append target_path
    | Some (chosen_src, method) =>
        backup cfg backup_root target_path;;
        replace cfg chosen_src target_path;;
        replacements_append (target_path, chosen_src, method);;
        print (Notice (DRY_RUN cfg) target_path chosen_src method)
    end.

(** Lines 69-73: the body of the outer loop. *)
Definition process_sub (cfg : config) (idx : index) (backup_root : option path)
    (sub : string) : M unit :=
  let subpath := join (ASSETS_IMAGES cfg) [sub] in
  d ← os_path_isdir subpath;
  if negb d then skip
  else
    names ← os_listdir subpath;
    for_each (sorted names) (process_file cfg idx backup_root subpath).

(** Lines 128-145. *)
Definition summary (cfg : config) (backup_root : option path)
    (website_files : list path) : M unit :=
  print SummaryHeader;;
  print (TotalScanned (length website_files));;
  rs ← (fun s => (inr (replacements s), s));
  print (TotalReplacements (length rs));;
  (if rs is [] then skip
   else print ReplacementsHeader;;
        for_each rs (fun '(t, s, m) => print (ReplacementItem t s m)));;
  us ← (fun s => (inr (unmatched s), s));
  (if us is [] then skip
   else print (UnmatchedCount (length us));;
        print ExamplesHeader;;
        for_each (take 20 us) (fun p => print (UnmatchedItem p)));;
  (if MAKE_BACKUP cfg
   then print (match backup_root with Some root => BackupsIn root | None => NoBackups end)
   else skip);;
  print Done.

Definition main (cfg : config) (env : environment) : M unit :=
  log (Walk (WEBSITE_FOLDER cfg));;
  let website_files := gather (walked env) in
  if website_files is [] then raise (SystemExit (WEBSITE_FOLDER cfg))
  else
    let idx := build_index website_files in
    let backup_root := take_backup_root cfg env in
    subs ← os_listdir (ASSETS_IMAGES cfg);
    for_each (sorted subs) (process_sub cfg idx backup_root);;
    summary cfg backup_root website_files.

Definition run (cfg : config) (env : environment) (fs0 : filesystem)
    : (exn + unit) * state :=
  main cfg env (initial fs0).

(** The exit status of the interpreter: 0 at the end of the script, 1 for
    [SystemExit] with a message and for an exception nobody caught. *)
Definition exit_status (r : exn + unit) : nat :=
  match r with
  | inr _ => 0
  | inl _ => 1
  end.

(** * Properties *)

(** ** The normalizer *)

Fixpoint all_chars (P : ascii → bool) (s : string) : bool :=
  match s with
  | EmptyString => true
  | String c s' => P c && all_chars P s'
  end.

Ltac each_char c :=
  destruct c as [[] [] [] [] [] [] [] []]; try discriminate; try reflexivity.

Lemma kept_lower c : is_kept c = true → char_lower c = c.
Proof. each_char c. Qed.

Lemma kept_not_space c : is_kept c = true → isspace c = false.
Proof. each_char c. Qed.

Lemma kept_not_sep c : is_kept c = true → is_sep c = false.
Proof. each_char c. Qed.

Lemma strip_unkept_all s : all_chars is_kept (strip_unkept s) = true.
Proof.
  induction s as [|c s IH]; simpl; [done|].
  destruct (is_kept c) eqn:Hc; simpl; [by rewrite Hc|done].
Qed.

Lemma sub_hyphen_runs_all P b s :
  all_chars P s = true → all_chars P (sub_hyphen_runs b s) = true.
Proof.
  revert b. induction s as [|c s IH]; intros b; simpl; [done|].
  intros [Hc Hs]%andb_prop.
  destruct (is_hyphen c), b; simpl; rewrite ?Hc; simpl; auto.
Qed.

Lemma lower_kept s : all_chars is_kept s = true → lower s = s.
Proof.
  induction s as [|c s IH]; simpl; [done|].
  intros [Hc Hs]%andb_prop. by rewrite kept_lower, IH.
Qed.

Lemma lstrip_kept s : all_chars is_kept s = true → lstrip s = s.
Proof.
  destruct s as [|c s]; simpl; [done|].
  intros [Hc _]%andb_prop. by rewrite kept_not_space.
Qed.

Lemma rstrip_kept s : all_chars is_kept s = true → rstrip s = s.
Proof.
  induction s as [|c s IH]; simpl; [done|].
  intros [Hc Hs]%andb_prop. rewrite IH by done.
  destruct s; [by rewrite kept_not_space|done].
Qed.

Lemma strip_kept s : all_chars is_kept s = true → strip s = s.
Proof. intros H. unfold strip. by rewrite lstrip_kept, rstrip_kept. Qed.

Lemma sub_sep_runs_kept s : all_chars is_kept s = true → sub_sep_runs false s = s.
Proof.
  induction s as [|c s IH]; simpl; [done|].
  intros [Hc Hs]%andb_prop. by rewrite kept_not_sep, IH.
Qed.

Lemma strip_unkept_kept s : all_chars is_kept s = true → strip_unkept s = s.
Proof.
  induction s as [|c s IH]; simpl; [done|].
  intros [Hc Hs]%andb_prop. by rewrite Hc, IH.
Qed.

Lemma sub_hyphen_runs_twice b1 b2 s :
  sub_hyphen_runs b1 (sub_hyphen_runs b2 s) = sub_hyphen_runs (b1 || b2) s.
Proof.
  revert b1 b2. induction s as [|c s IH]; intros b1 b2; simpl; [done|].
  destruct (is_hyphen c) eqn:Hc.
  - destruct b2; simpl.
    + rewrite IH. by rewrite !orb_true_r.
    + rewrite Hc. destruct b1; simpl; by rewrite IH.
  - simpl. rewrite Hc. by rewrite IH.
Qed.

Lemma normalize_stem_kept s : all_chars is_kept (normalize_stem s) = true.
Proof. apply sub_hyphen_runs_all, strip_unkept_all. Qed.

(** Nothing is left to collapse in a normalized stem: no hyphen follows a
    hyphen. *)
Fixpoint no_hyphen_pair (s : string) : bool :=
  match s with
  | String c ((String c' _) as s') =>
      negb (is_hyphen c && is_hyphen c') && no_hyphen_pair s'
  | _ => true
  end.

Lemma sub_hyphen_runs_no_pair b s :
  no_hyphen_pair (sub_hyphen_runs b s) = true
  ∧ (b = true → match sub_hyphen_runs b s with
                | String c _ => is_hyphen c = false
                | EmptyString => True
                end).
Proof.
  revert b. induction s as [|c s IH]; intros b; simpl; [done|].
  destruct (is_hyphen c) eqn:Hc.
  - destruct b.
    + apply IH.
    + destruct (IH true) as [H1 H2]. split; [|done].
      specialize (H2 eq_refl). simpl.
      destruct (sub_hyphen_runs true s); [done|].
      rewrite H2 in *. by rewrite andb_false_r.
  - destruct (IH false) as [H1 _]. split; [|by intros _].
    simpl. destruct (sub_hyphen_runs false s); [done|].
    rewrite Hc. done.
Qed.

(** C6.  [normalize_stem] is the four steps in the order of the source;
    the stem of "My Photo_01.JPG" normalizes to "my-photo-01" and "a--b__c"
    to "a-b-c"; the result holds only lowercase letters, digits and single
    hyphens, and normalizing any string twice gives what normalizing it
    once gives. *)
Theorem normalize_stem_idempotent :
  (∀ x, normalize_stem x
        = sub_hyphen_runs false (strip_unkept (sub_sep_runs false (strip (lower x)))))
  ∧ normalize_stem (splitext "My Photo_01.JPG").1 = "my-photo-01"
  ∧ normalize_stem "a--b__c" = "a-b-c"
  ∧ (∀ x, all_chars is_kept (normalize_stem x) = true
          ∧ no_hyphen_pair (normalize_stem x) = true)
  ∧ (∀ x, normalize_stem (normalize_stem x) = normalize_stem x).
Proof.
  split; [done|]. split; [done|]. split; [done|]. split.
  - intros x. split; [apply normalize_stem_kept|].
    apply (sub_hyphen_runs_no_pair false).
  - intros x. pose proof (normalize_stem_kept x) as Hk.
    unfold normalize_stem at 1.
    rewrite lower_kept, strip_kept, sub_sep_runs_kept, strip_unkept_kept by done.
    unfold normalize_stem. by rewrite sub_hyphen_runs_twice.
Qed.

(** ** Dictionaries and the index *)

Section dict_facts.
Context {V : Type}.
Implicit Types (k : string) (d : list (string * V)).

Lemma dict_get_elem k d v : dict_get k d = Some v → (k, v) ∈ d.
Proof.
  induction d as [|[k' v'] d IH]; simpl; [done|].
  destruct (String.eqb_spec k k') as [->|Hne].
  - intros [= ->]. left.
  - intros H. right. auto.
Qed.

Lemma dict_get_keys k d : is_Some (dict_get k d) ↔ k ∈ keys d.
Proof.
  induction d as [|[k' v'] d IH]; simpl.
  - split; [by intros [? ?]|by intros ?%elem_of_nil].
  - destruct (String.eqb_spec k k') as [->|Hne].
    + split; [intros _; left|by eauto].
    + rewrite IH. split; [by right|].
      by intros [?|?]%elem_of_cons.
Qed.

Lemma dict_get_None k d : dict_get k d = None ↔ k ∉ keys d.
Proof. rewrite <-dict_get_keys, eq_None_not_Some. done. Qed.
End dict_facts.

Definition buckets_nonempty (d : list (string * list path)) : Prop :=
  Forall (fun kb => kb.2 ≠ []) d.

Lemma bucket_append_nonempty k p d :
  buckets_nonempty d →
  buckets_nonempty (dict_alter (fun bucket => bucket ++ [p]) k (setdefault k [] d)).
Proof.
  unfold buckets_nonempty.
  induction 1 as [|[k' b] d Hb Hd IH]; simpl.
  - rewrite String.eqb_refl. constructor; [|constructor]. simpl. discriminate.
  - destruct (String.eqb_spec k k') as [->|Hne]; simpl.
    + rewrite String.eqb_refl. constructor; [|done].
      simpl. by destruct b.
    + destruct (String.eqb_spec k k'); [done|]. by constructor.
Qed.

Lemma build_index_from_nonempty files idx :
  buckets_nonempty (by_stem idx) →
  buckets_nonempty (by_stem (fold_left index_add files idx)).
Proof.
  revert idx. induction files as [|p files IH]; intros idx H; simpl; [done|].
  apply IH. simpl. by apply bucket_append_nonempty.
Qed.

Lemma build_index_nonempty files : buckets_nonempty (by_stem (build_index files)).
Proof. apply build_index_from_nonempty. constructor. Qed.

Lemma first_path_nonempty bucket :
  bucket ≠ [] → ∃ p, head bucket = Some p ∧ first_path bucket = inr p.
Proof. destruct bucket as [|p b]; [done|]. intros _. by exists p. Qed.

Lemma find_partial_elem tnorm items w paths :
  find_partial tnorm items = Some (w, paths) → (w, paths) ∈ items.
Proof.
  induction items as [|[w' paths'] items IH]; simpl; [done|].
  destruct (contains w' tnorm || contains tnorm w').
  - intros [= -> ->]. left.
  - intros H. right. auto.
Qed.

Lemma bucket_of_nonempty (d : list (string * list path)) k bucket :
  buckets_nonempty d → (k, bucket) ∈ d → bucket ≠ [].
Proof.
  unfold buckets_nonempty. rewrite Forall_forall. intros H Hin. apply (H _ Hin).
Qed.

(** The tiers, each on an index whose buckets are non-empty. *)
Lemma tier_stem_hit idx tnorm bucket :
  buckets_nonempty (by_stem idx) →
  dict_get tnorm (by_stem idx) = Some bucket →
  ∃ p, head bucket = Some p ∧ tier_stem idx tnorm = inr (Some (p, stem_match)).
Proof.
  intros Hne Hget. unfold tier_stem. rewrite Hget.
  destruct (first_path_nonempty bucket) as (p & Hp & ->); [|by exists p].
  eapply bucket_of_nonempty; [done|]. by apply dict_get_elem.
Qed.

Lemma tier_stem_miss idx tnorm :
  dict_get tnorm (by_stem idx) = None → tier_stem idx tnorm = inr None.
Proof. intros H. unfold tier_stem. by rewrite H. Qed.

Lemma tier_fuzzy_hit idx cutoff tnorm k rest :
  buckets_nonempty (by_stem idx) →
  difflib.get_close_matches tnorm (keys (by_stem idx)) cutoff = Some (k :: rest) →
  k ∈ keys (by_stem idx) →
  ∃ bucket p, dict_get k (by_stem idx) = Some bucket ∧ head bucket = Some p
              ∧ tier_fuzzy idx cutoff tnorm = inr (Some (p, fuzzy_match k)).
Proof.
  intros Hne Hg [bucket Hb]%dict_get_keys. unfold tier_fuzzy. rewrite Hg, Hb.
  destruct (first_path_nonempty bucket) as (p & Hp & ->); [|by exists bucket, p].
  eapply bucket_of_nonempty; [done|]. by apply dict_get_elem.
Qed.

Lemma tier_partial_hit idx tnorm w paths :
  buckets_nonempty (by_stem idx) →
  find_partial tnorm (by_stem idx) = Some (w, paths) →
  ∃ p, head paths = Some p ∧ tier_partial idx tnorm = inr (Some (p, partial w)).
Proof.
  intros Hne Hf. unfold tier_partial. rewrite Hf.
  destruct (first_path_nonempty paths) as (p & Hp & ->); [|by exists p].
  eapply bucket_of_nonempty; [done|]. by eapply find_partial_elem.
Qed.

(** [match_target] when the exact tier hits, and when it misses. *)
Lemma match_target_exact idx cutoff fname p :
  dict_get (lower fname) (by_fullname idx) = Some p →
  match_target idx cutoff fname = inr (Some (p, exact_filename)).
Proof. intros H. unfold match_target, tier_exact. by rewrite H. Qed.

Lemma match_target_stem idx cutoff fname p :
  dict_get (lower fname) (by_fullname idx) = None →
  tier_stem idx (normalize_stem (splitext fname).1) = inr (Some (p, stem_match)) →
  match_target idx cutoff fname = inr (Some (p, stem_match)).
Proof. intros H1 H2. unfold match_target, tier_exact. by rewrite H1, H2. Qed.

Lemma match_target_later idx cutoff fname :
  dict_get (lower fname) (by_fullname idx) = None →
  dict_get (normalize_stem (splitext fname).1) (by_stem idx) = None →
  match_target idx cutoff fname =
    let tnorm := normalize_stem (splitext fname).1 in
    c ← tier_fuzzy idx cutoff tnorm;
    if c is None then tier_partial idx tnorm else inr c.
Proof.
  intros H1 H2. unfold match_target, tier_exact. rewrite H1.
  rewrite (tier_stem_miss _ _ H2). simpl.
  destruct (tier_fuzzy idx cutoff _) as [e|[c|]]; simpl; [done..|].
  by destruct (tier_partial idx _) as [e|c].
Qed.

(** [get_close_matches] with [n=1] answers with at most one of the
    possibilities. *)
Lemma nlargest1_elem (result : list (Q * string)) t rest :
  difflib.nlargest1 result = t :: rest → t ∈ result ∧ rest = [].
Proof.
  destruct result as [|t0 result]; simpl; [done|].
  intros [= <- <-]. split; [|done].
  revert t0. induction result as [|t1 result IH]; intros t0; simpl; [left|].
  destruct (difflib.tuple_gt t1 t0).
  - right. apply IH.
  - pose proof (IH t0) as [Heq|?]%elem_of_cons.
    + rewrite Heq. left.
    + right. by right.
Qed.

Lemma get_close_matches_elem word ks cutoff k rest :
  difflib.get_close_matches word ks cutoff = Some (k :: rest) →
  k ∈ ks ∧ difflib.passes cutoff word k = true ∧ rest = [].
Proof.
  unfold difflib.get_close_matches.
  destruct (Qle_bool 0 cutoff && Qle_bool cutoff 1); [|done].
  intros [= H].
  destruct (difflib.nlargest1 _) as [|t ts] eqn:Hn; [done|].
  simpl in H. injection H as <- <-.
  apply nlargest1_elem in Hn as [Hin ->]. split_and!; [..|done].
  - apply list_elem_of_In, in_map_iff in Hin as (x & <- & Hx).
    apply filter_In in Hx as [Hx _]. simpl. by apply list_elem_of_In.
  - apply list_elem_of_In, in_map_iff in Hin as (x & <- & Hx).
    apply filter_In in Hx as [_ Hx]. done.
Qed.

Lemma tier_stem_no_IndexError idx tnorm :
  buckets_nonempty (by_stem idx) → tier_stem idx tnorm ≠ inl IndexError.
Proof.
  intros Hne. destruct (dict_get tnorm (by_stem idx)) as [bucket|] eqn:Hg.
  - destruct (tier_stem_hit idx tnorm bucket Hne Hg) as (p & _ & ->). done.
  - by rewrite (tier_stem_miss _ _ Hg).
Qed.

Lemma tier_fuzzy_no_IndexError idx cutoff tnorm :
  buckets_nonempty (by_stem idx) →
  tier_fuzzy idx cutoff tnorm ≠ inl IndexError
  ∧ tier_fuzzy idx cutoff tnorm ≠ inl KeyError.
Proof.
  intros Hne.
  destruct (difflib.get_close_matches tnorm (keys (by_stem idx)) cutoff)
    as [[|k rest]|] eqn:Hg.
  - unfold tier_fuzzy. by rewrite Hg.
  - destruct (get_close_matches_elem _ _ _ _ _ Hg) as (Hk & _ & _).
    destruct (tier_fuzzy_hit idx cutoff tnorm k rest Hne Hg Hk) as (b & p & _ & _ & ->).
    done.
  - unfold tier_fuzzy. by rewrite Hg.
Qed.

Lemma tier_partial_no_IndexError idx tnorm :
  buckets_nonempty (by_stem idx) → tier_partial idx tnorm ≠ inl IndexError.
Proof.
  intros Hne. destruct (find_partial tnorm (by_stem idx)) as [[w paths]|] eqn:Hf.
  - destruct (tier_partial_hit idx tnorm w paths Hne Hf) as (p & _ & ->). done.
  - unfold tier_partial. by rewrite Hf.
Qed.

Lemma match_target_no_IndexError idx cutoff fname :
  buckets_nonempty (by_stem idx) →
  match_target idx cutoff fname ≠ inl IndexError
  ∧ match_target idx cutoff fname ≠ inl KeyError
  ∧ match_target idx cutoff fname ≠ inl TypeError
  ∧ match_target idx cutoff fname ≠ inl OSError
  ∧ ∀ folder, match_target idx cutoff fname ≠ inl (SystemExit folder).
Proof.
  intros Hne. unfold match_target.
  set (tnorm := normalize_stem (splitext fname).1).
  destruct (tier_exact idx fname) as [c|] eqn:He; simpl; [by split_and!|].
  destruct (dict_get tnorm (by_stem idx)) as [bucket|] eqn:Hg.
  { destruct (tier_stem_hit idx tnorm bucket Hne Hg) as (p & _ & ->).
    simpl. by split_and!. }
  rewrite (tier_stem_miss _ _ Hg). simpl.
  destruct (difflib.get_close_matches tnorm (keys (by_stem idx)) cutoff)
    as [[|k rest]|] eqn:Hc.
  - unfold tier_fuzzy at 1 2 3 4 5. rewrite Hc. simpl.
    destruct (find_partial tnorm (by_stem idx)) as [[w paths]|] eqn:Hf.
    + destruct (tier_partial_hit idx tnorm w paths Hne Hf) as (p & _ & ->).
      simpl. by split_and!.
    + unfold tier_partial. rewrite Hf. simpl. by split_and!.
  - destruct (get_close_matches_elem _ _ _ _ _ Hc) as (Hk & _ & _).
    destruct (tier_fuzzy_hit idx cutoff tnorm k rest Hne Hc Hk) as (b & p & _ & _ & ->).
    simpl. by split_and!.
  - unfold tier_fuzzy. rewrite Hc. simpl. by split_and!.
Qed.

(** C9.  In the index built from any list of reference files every bucket
    of the stem map holds at least one path, so [bucket[0]] yields a path
    in each of the stem, fuzzy and partial tiers and the matcher never
    raises [IndexError]. *)
Theorem buckets_never_empty (website_files : list path) :
  let idx := build_index website_files in
  (∀ k bucket, (k, bucket) ∈ by_stem idx →
     bucket ≠ [] ∧ ∃ p, first_path bucket = inr p)
  ∧ (∀ tnorm, tier_stem idx tnorm ≠ inl IndexError)
  ∧ (∀ cutoff tnorm, tier_fuzzy idx cutoff tnorm ≠ inl IndexError)
  ∧ (∀ tnorm, tier_partial idx tnorm ≠ inl IndexError)
  ∧ (∀ cutoff fname, match_target idx cutoff fname ≠ inl IndexError).
Proof.
  intros idx. pose proof (build_index_nonempty website_files) as Hne.
  fold idx in Hne. split_and!.
  - intros k bucket Hin.
    assert (bucket ≠ []) as Hb by by eapply bucket_of_nonempty.
    split; [done|]. destruct (first_path_nonempty _ Hb) as (p & _ & ?). by exists p.
  - intros. by apply tier_stem_no_IndexError.
  - intros. by apply tier_fuzzy_no_IndexError.
  - intros. by apply tier_partial_no_IndexError.
  - intros. by apply match_target_no_IndexError.
Qed.

(** C1.  The tiers run in the order exact, stem, fuzzy, partial and the
    first hit decides the method: a target whose lowercased name is a key
    of the exact-name map gets [exact_filename] and the path stored there,
    whatever the other tiers would find; a target with no such key whose
    normalized stem is a key of the stem map gets [stem_match] and the
    first path of that bucket; fuzzy and partial results come only when
    both lookups miss. *)
Theorem match_tiers_in_order (website_files : list path) (cutoff : Q) (fname : string) :
  let idx := build_index website_files in
  let tnorm := normalize_stem (splitext fname).1 in
  (lower fname ∈ keys (by_fullname idx) →
     ∃ p, dict_get (lower fname) (by_fullname idx) = Some p
          ∧ match_target idx cutoff fname = inr (Some (p, exact_filename)))
  ∧ (lower fname ∉ keys (by_fullname idx) → tnorm ∈ keys (by_stem idx) →
     ∃ bucket p, dict_get tnorm (by_stem idx) = Some bucket
                 ∧ head bucket = Some p
                 ∧ match_target idx cutoff fname = inr (Some (p, stem_match)))
  ∧ (∀ p k, (match_target idx cutoff fname = inr (Some (p, fuzzy_match k))
             ∨ match_target idx cutoff fname = inr (Some (p, partial k))) →
       (lower fname ∉ keys (by_fullname idx)) ∧ (tnorm ∉ keys (by_stem idx))).
Proof.
  intros idx tnorm. pose proof (build_index_nonempty website_files) as Hne.
  fold idx in Hne. split_and!.
  - intros [p Hp]%dict_get_keys. exists p. split; [done|].
    by apply match_target_exact.
  - intros Hno%dict_get_None [bucket Hb]%dict_get_keys.
    destruct (tier_stem_hit idx tnorm bucket Hne Hb) as (p & Hp & Ht).
    exists bucket, p. split_and!; [done..|]. by apply match_target_stem.
  - intros p k Hm.
    destruct (dict_get (lower fname) (by_fullname idx)) as [p'|] eqn:He.
    { rewrite (match_target_exact _ _ _ _ He) in Hm. by destruct Hm. }
    apply dict_get_None in He as He'. split; [done|].
    destruct (dict_get tnorm (by_stem idx)) as [bucket|] eqn:Hb.
    { destruct (tier_stem_hit idx tnorm bucket Hne Hb) as (p' & _ & Ht).
      rewrite (match_target_stem _ _ _ _ He Ht) in Hm. by destruct Hm. }
    by apply dict_get_None.
Qed.

(** ** Containment *)

(** [x] occurs in [y] as a block of consecutive characters. *)
Definition is_substring (x y : string) : Prop :=
  ∃ pre suf, y = pre +:+ x +:+ suf.

Lemma append_cons c s t : String c s +:+ t = String c (s +:+ t).
Proof. reflexivity. Qed.

Lemma append_empty t : EmptyString +:+ t = t.
Proof. reflexivity. Qed.

Lemma prefix_spec x y : String.prefix x y = true ↔ ∃ suf, y = x +:+ suf.
Proof.
  revert y. induction x as [|a x IH]; intros y.
  - split; [intros _; exists y; reflexivity|]. intros _. by destruct y.
  - destruct y as [|b y]; simpl.
    + split; [done|]. intros [suf Hs]. by rewrite append_cons in Hs.
    + destruct (Ascii.ascii_dec a b) as [->|Hne].
      * rewrite IH. split; intros [suf Hs]; exists suf.
        -- by rewrite append_cons, <-Hs.
        -- rewrite append_cons in Hs. by injection Hs.
      * split; [done|]. intros [suf Hs]. rewrite append_cons in Hs.
        injection Hs as ? ?. by subst.
Qed.

Lemma contains_unfold y x :
  contains y x = if String.prefix x y then true
                 else match y with
                      | EmptyString => false
                      | String _ y' => contains y' x
                      end.
Proof. by destruct y. Qed.

Lemma contains_spec y x : contains y x = true ↔ is_substring x y.
Proof.
  unfold is_substring. induction y as [|c y IH]; rewrite contains_unfold.
  - destruct (String.prefix x "") eqn:Hp.
    + split; [intros _|done]. apply prefix_spec in Hp as [suf Hs].
      exists "", suf. by rewrite append_empty.
    + split; [done|]. intros ([|c pre] & suf & Hs).
      * rewrite append_empty in Hs. rewrite <-Hp.
        apply prefix_spec. by exists suf.
      * by rewrite append_cons in Hs.
  - destruct (String.prefix x (String c y)) eqn:Hp.
    + split; [intros _|done]. apply prefix_spec in Hp as [suf Hs].
      exists "", suf. by rewrite append_empty.
    + rewrite IH. split.
      * intros (pre & suf & ->). exists (String c pre), suf. by rewrite append_cons.
      * intros ([|c' pre] & suf & Hs).
        -- rewrite append_empty in Hs.
           rewrite (proj2 (prefix_spec x (String c y))) in Hp; [done|by exists suf].
        -- rewrite append_cons in Hs. injection Hs as -> ->. by exists pre, suf.
Qed.

(** The test of line 107: [tnorm in wnorm or wnorm in tnorm]. *)
Definition contained (tnorm wnorm : string) : Prop :=
  is_substring tnorm wnorm ∨ is_substring wnorm tnorm.

Lemma contained_spec tnorm wnorm :
  contains wnorm tnorm || contains tnorm wnorm = true ↔ contained tnorm wnorm.
Proof.
  unfold contained. rewrite orb_true_iff, !contains_spec. done.
Qed.

Lemma find_partial_first tnorm items pre w paths post :
  items = pre ++ (w, paths) :: post →
  Forall (fun kb => ¬ contained tnorm kb.1) pre →
  contained tnorm w →
  find_partial tnorm items = Some (w, paths).
Proof.
  intros -> Hpre Hw. induction Hpre as [|[w' paths'] pre Hn Hpre IH]; simpl.
  - apply contained_spec in Hw. by rewrite Hw.
  - destruct (contains w' tnorm || contains tnorm w') eqn:Hc; [|done].
    apply contained_spec in Hc. done.
Qed.

Lemma find_partial_Some tnorm items w paths :
  find_partial tnorm items = Some (w, paths) →
  ∃ pre post, items = pre ++ (w, paths) :: post
              ∧ Forall (fun kb => ¬ contained tnorm kb.1) pre
              ∧ contained tnorm w.
Proof.
  induction items as [|[w' paths'] items IH]; simpl; [done|].
  destruct (contains w' tnorm || contains tnorm w') eqn:Hc.
  - intros [= -> ->]. exists [], items. split_and!; [done|constructor|].
    by apply contained_spec.
  - intros (pre & post & -> & Hpre & Hw)%IH.
    exists ((w', paths') :: pre), post. split_and!; [done| |done].
    constructor; [|done]. simpl. rewrite <-contained_spec. by rewrite Hc.
Qed.

Lemma find_partial_None tnorm items :
  find_partial tnorm items = None ↔ Forall (fun kb => ¬ contained tnorm kb.1) items.
Proof.
  induction items as [|[w' paths'] items IH]; simpl.
  - split; [constructor|done].
  - destruct (contains w' tnorm || contains tnorm w') eqn:Hc.
    + split; [done|]. intros [Hn _]%Forall_cons. simpl in Hn.
      by apply contained_spec in Hc.
    + rewrite IH. split.
      * intros H. constructor; [|done]. simpl. rewrite <-contained_spec.
        by rewrite Hc.
      * by intros [_ ?]%Forall_cons.
Qed.

(** C5.  With no exact hit, no stem hit and no fuzzy candidate, the
    matcher takes the first item of the stem map, in its order, whose key
    contains the normalized target stem or lies within it: the result is
    [partial] of that key with the first path of its bucket, however many
    later keys qualify; with no such key the target is unmatched; and a
    [partial] result never comes while an earlier tier has a hit. *)
Theorem partial_first_containing (website_files : list path) (cutoff : Q)
    (fname : string) :
  let idx := build_index website_files in
  let tnorm := normalize_stem (splitext fname).1 in
  (lower fname ∉ keys (by_fullname idx) →
   tnorm ∉ keys (by_stem idx) →
   difflib.get_close_matches tnorm (keys (by_stem idx)) cutoff = Some [] →
     (∀ pre w bucket post,
        by_stem idx = pre ++ (w, bucket) :: post →
        Forall (fun kb => ¬ contained tnorm kb.1) pre →
        contained tnorm w →
        ∃ p, head bucket = Some p
             ∧ match_target idx cutoff fname = inr (Some (p, partial w)))
     ∧ (Forall (fun kb => ¬ contained tnorm kb.1) (by_stem idx) →
        match_target idx cutoff fname = inr None))
  ∧ (∀ p w, match_target idx cutoff fname = inr (Some (p, partial w)) →
       (lower fname ∉ keys (by_fullname idx))
       ∧ (tnorm ∉ keys (by_stem idx))
       ∧ difflib.get_close_matches tnorm (keys (by_stem idx)) cutoff = Some []
       ∧ ∃ pre bucket post,
           by_stem idx = pre ++ (w, bucket) :: post
           ∧ Forall (fun kb => ¬ contained tnorm kb.1) pre
           ∧ contained tnorm w
           ∧ head bucket = Some p).
Proof.
  intros idx tnorm. pose proof (build_index_nonempty website_files) as Hne.
  fold idx in Hne. split.
  - intros He%dict_get_None Hs%dict_get_None Hf.
    pose proof (match_target_later idx cutoff fname He Hs) as Hm.
    simpl in Hm. fold tnorm in Hm.
    unfold tier_fuzzy in Hm. rewrite Hf in Hm. simpl in Hm. split.
    + intros pre w bucket post Hd Hpre Hw.
      pose proof (find_partial_first tnorm _ pre w bucket post Hd Hpre Hw) as Hfp.
      destruct (tier_partial_hit idx tnorm w bucket Hne Hfp) as (p & Hp & Ht).
      exists p. split; [done|]. by rewrite Hm, Ht.
    + intros Hall%find_partial_None. rewrite Hm. unfold tier_partial.
      by rewrite Hall.
  - intros p w Hm.
    destruct (dict_get (lower fname) (by_fullname idx)) as [p'|] eqn:He.
    { by rewrite (match_target_exact _ _ _ _ He) in Hm. }
    destruct (dict_get tnorm (by_stem idx)) as [bucket|] eqn:Hs.
    { destruct (tier_stem_hit idx tnorm bucket Hne Hs) as (p' & _ & Ht).
      by rewrite (match_target_stem _ _ _ _ He Ht) in Hm. }
    rewrite (match_target_later idx cutoff fname He Hs) in Hm.
    simpl in Hm. fold tnorm in Hm.
    apply dict_get_None in He, Hs. split; [done|]. split; [done|].
    destruct (difflib.get_close_matches tnorm (keys (by_stem idx)) cutoff)
      as [[|k rest]|] eqn:Hf.
    + split; [done|]. unfold tier_fuzzy in Hm. rewrite Hf in Hm. simpl in Hm.
      unfold tier_partial in Hm.
      destruct (find_partial tnorm (by_stem idx)) as [[w' paths]|] eqn:Hfp; [|done].
      destruct (find_partial_Some _ _ _ _ Hfp) as (pre & post & Hd & Hpre & Hw).
      destruct paths as [|p0 paths]; simpl in Hm; [done|].
      injection Hm as <- <-. by exists pre, (p0 :: paths), post.
    + destruct (get_close_matches_elem _ _ _ _ _ Hf) as (Hk & _ & _).
      destruct (tier_fuzzy_hit idx cutoff tnorm k rest Hne Hf Hk)
        as (b & p' & _ & _ & Ht).
      by rewrite Ht in Hm.
    + unfold tier_fuzzy in Hm. by rewrite Hf in Hm.
Qed.

(** ** The run, step by step *)

(** What lines 116-123 do to the file system, as a function of it: the
    calls made, the file system left, and whether an exception ended them. *)
Definition backup_effect (cfg : config) (backup_root : option path)
    (target_path : path) (fs : filesystem)
    : list fsop * filesystem * (exn + unit) :=
  if MAKE_BACKUP cfg && negb (DRY_RUN cfg) then
    match backup_root with
    | None => ([], fs, inl TypeError)
    | Some root =>
        let b := join root (relpath target_path (ASSETS_IMAGES cfg)) in
        match makedirs (dirname b) fs with
        | inl e => ([Makedirs (dirname b)], fs, inl e)
        | inr fs1 =>
            match copy2 target_path b fs1 with
            | inl e => ([Makedirs (dirname b); Copy2 target_path b], fs1, inl e)
            | inr fs2 => ([Makedirs (dirname b); Copy2 target_path b], fs2, inr tt)
            end
        end
    end
  else ([], fs, inr tt).

Definition replace_effect (cfg : config) (chosen_src target_path : path)
    (fs : filesystem) : list fsop * filesystem * (exn + unit) :=
  if negb (DRY_RUN cfg) then
    match copy2 chosen_src target_path fs with
    | inl e => ([Copy2 chosen_src target_path], fs, inl e)
    | inr fs' => ([Copy2 chosen_src target_path], fs', inr tt)
    end
  else ([], fs, inr tt).

Definition transfer (cfg : config) (backup_root : option path)
    (target_path chosen_src : path) (fs : filesystem)
    : list fsop * filesystem * (exn + unit) :=
  let '(ops1, fs1, r1) := backup_effect cfg backup_root target_path fs in
  match r1 with
  | inl e => (ops1, fs1, inl e)
  | inr _ =>
      let '(ops2, fs2, r2) := replace_effect cfg chosen_src target_path fs1 in
      (ops1 ++ ops2, fs2, r2)
  end.

Definition logged (ops : list fsop) (s : state) : state :=
  State (fs s) (replacements s) (unmatched s) (stdout s) (oplog s ++ ops).

Lemma backup_eq cfg broot t s :
  backup cfg broot t s =
    let '(ops, fs', r) := backup_effect cfg broot t (fs s) in
    (r, State fs' (replacements s) (unmatched s) (stdout s) (oplog s ++ ops)).
Proof.
  destruct s as [fs rs us out ops]. unfold backup, backup_effect. simpl.
  destruct (MAKE_BACKUP cfg && negb (DRY_RUN cfg)); simpl;
    [|by rewrite app_nil_r].
  destruct broot as [root|]; simpl; [|by rewrite app_nil_r].
  unfold os_makedirs, shutil_copy2, mutate, log, mbind, M_bind; simpl.
  destruct (makedirs _ fs) as [e|fs1]; simpl; [done|].
  destruct (copy2 t _ fs1) as [e|fs2]; simpl; by rewrite <-app_assoc.
Qed.

Lemma replace_eq cfg src t s :
  replace cfg src t s =
    let '(ops, fs', r) := replace_effect cfg src t (fs s) in
    (r, State fs' (replacements s) (unmatched s) (stdout s) (oplog s ++ ops)).
Proof.
  destruct s as [fs rs us out ops]. unfold replace, replace_effect. simpl.
  destruct (negb (DRY_RUN cfg)); simpl; [|by rewrite app_nil_r].
  unfold shutil_copy2, mutate, log, mbind, M_bind; simpl.
  by destruct (copy2 src t fs) as [e|fs1].
Qed.

Lemma process_file_eq cfg idx broot subpath fname s :
  process_file cfg idx broot subpath fname s =
    let t := join subpath [fname] in
    if isfile (fs s) t && is_image fname then
      match match_target idx (FUZZY_CUTOFF cfg) fname with
      | inl e => (inl e, logged [Isfile t] s)
      | inr None =>
          (inr tt, State (fs s) (replacements s) (unmatched s ++ [t]) (stdout s)
                         (oplog s ++ [Isfile t]))
      | inr (Some (src, m)) =>
          let '(ops, fs', r) := transfer cfg broot t src (fs s) in
          match r with
          | inl e =>
              (inl e, State fs' (replacements s) (unmatched s) (stdout s)
                            (oplog s ++ Isfile t :: ops))
          | inr _ =>
              (inr tt, State fs' (replacements s ++ [(t, src, m)]) (unmatched s)
                             (stdout s ++ [Notice (DRY_RUN cfg) t src m])
                             (oplog s ++ Isfile t :: ops))
          end
      end
    else (inr tt, logged [Isfile t] s).
Proof.
  destruct s as [fs rs us out ops]. unfold process_file, logged.
  unfold os_path_isfile, query, log, lift, mbind at 1 2, M_bind; simpl.
  destruct (isfile fs (join subpath [fname])); simpl; [|done].
  destruct (is_image fname); simpl; [|done].
  unfold mbind at 1, M_bind; simpl.
  destruct (match_target idx (FUZZY_CUTOFF cfg) fname) as [e|[[src m]|]]; simpl;
    [done| |done].
  unfold mbind at 1, M_bind. rewrite backup_eq. unfold transfer. simpl.
  destruct (backup_effect cfg broot _ fs) as [[ops1 fs1] [e|[]]]; simpl;
    [by rewrite <-app_assoc|].
  rewrite replace_eq. simpl.
  destruct (replace_effect cfg src _ fs1) as [[ops2 fs2] [e|[]]]; simpl.
  - by rewrite <-!app_assoc.
  - unfold mbind, M_bind, replacements_append, print; simpl.
    by rewrite <-!app_assoc.
Qed.

Lemma process_sub_eq cfg idx broot sub s :
  process_sub cfg idx broot sub s =
    let subpath := join (ASSETS_IMAGES cfg) [sub] in
    if isdir (fs s) subpath then
      match listdir (fs s) subpath with
      | inl e => (inl e, logged [Isdir subpath; Listdir subpath] s)
      | inr names =>
          for_each (sorted names) (process_file cfg idx broot subpath)
                   (logged [Isdir subpath; Listdir subpath] s)
      end
    else (inr tt, logged [Isdir subpath] s).
Proof.
  destruct s as [fs rs us out ops]. unfold process_sub, logged.
  unfold os_path_isdir, os_listdir, query, log, lift, mbind at 1 2, M_bind; simpl.
  destruct (isdir fs _); simpl; [|done].
  unfold mbind, M_bind; simpl. rewrite <-app_assoc. simpl.
  by destruct (listdir fs _) as [e|names].
Qed.

Definition summary_lines (cfg : config) (backup_root : option path)
    (website_files : list path) (rs : list match_result) (us : list path)
    : list line :=
  [SummaryHeader; TotalScanned (length website_files); TotalReplacements (length rs)]
  ++ (if rs is [] then []
      else ReplacementsHeader
           :: List.map (fun '(t, s, m) => ReplacementItem t s m) rs)
  ++ (if us is [] then []
      else UnmatchedCount (length us) :: ExamplesHeader
           :: List.map UnmatchedItem (take 20 us))
  ++ (if MAKE_BACKUP cfg
      then [match backup_root with Some root => BackupsIn root | None => NoBackups end]
      else [])
  ++ [Done].

Definition printed (ls : list line) (s : state) : state :=
  State (fs s) (replacements s) (unmatched s) (stdout s ++ ls) (oplog s).

Lemma for_each_print {A} (body : A → M unit) (f : A → line) (l : list A) s :
  (∀ x, body x = print (f x)) →
  for_each l body s = (inr tt, printed (List.map f l) s).
Proof.
  intros Hb. revert s. induction l as [|x l IH]; intros [fs rs us out ops]; simpl.
  - unfold skip, mret, M_ret, printed. simpl. by rewrite app_nil_r.
  - unfold mbind, M_bind. rewrite Hb. unfold print at 1. simpl. rewrite IH.
    unfold printed. simpl. by rewrite <-app_assoc.
Qed.

Lemma summary_eq cfg broot files s :
  summary cfg broot files s =
    (inr tt, printed (summary_lines cfg broot files (replacements s) (unmatched s)) s).
Proof.
  destruct s as [fs rs us out ops]. unfold summary, summary_lines, printed.
  unfold mbind, M_bind, print at 1 2 3. simpl.
  assert (∀ s : state,
    (if rs is [] then skip
     else print ReplacementsHeader;;
          for_each rs (fun '(t, s, m) => print (ReplacementItem t s m))) s
    = (inr tt, printed (if rs is [] then []
                        else ReplacementsHeader
                             :: List.map (fun '(t, s, m) => ReplacementItem t s m) rs) s))
    as Hrs.
  { intros [fs' rs' us' out' ops']. destruct rs as [|r rs].
    - unfold skip, mret, M_ret, printed. simpl. by rewrite app_nil_r.
    - cbv beta match. unfold mbind, M_bind, print at 1.
      rewrite (for_each_print _ (fun '(t, s, m) => ReplacementItem t s m));
        [|by intros [[??]?]].
      unfold printed. simpl. by rewrite <-app_assoc. }
  assert (∀ s : state,
    (if us is [] then skip
     else print (UnmatchedCount (length us));;
          print ExamplesHeader;;
          for_each (take 20 us) (fun p => print (UnmatchedItem p))) s
    = (inr tt, printed (if us is [] then []
                        else UnmatchedCount (length us) :: ExamplesHeader
                             :: List.map UnmatchedItem (take 20 us)) s))
    as Hus.
  { intros [fs' rs' us' out' ops']. destruct us as [|u us].
    - unfold skip, mret, M_ret, printed. simpl. by rewrite app_nil_r.
    - cbv beta match. unfold mbind, M_bind, print at 1 2.
      rewrite (for_each_print _ UnmatchedItem); [|done].
      unfold printed. simpl. by rewrite <-!app_assoc. }
  unfold mbind, M_bind in Hrs, Hus. rewrite Hrs. unfold printed. simpl.
  rewrite Hus. unfold printed. simpl.
  destruct (MAKE_BACKUP cfg); unfold print, skip, mret, M_ret; simpl;
    by rewrite <-!app_assoc.
Qed.

Lemma run_eq cfg env fs0 :
  run cfg env fs0 =
    let website_files := gather (walked env) in
    let broot := take_backup_root cfg env in
    if website_files is [] then
      (inl (SystemExit (WEBSITE_FOLDER cfg)),
       logged [Walk (WEBSITE_FOLDER cfg)] (initial fs0))
    else
      match listdir fs0 (ASSETS_IMAGES cfg) with
      | inl e =>
          (inl e, logged [Walk (WEBSITE_FOLDER cfg); Listdir (ASSETS_IMAGES cfg)]
                         (initial fs0))
      | inr subs =>
          match for_each (sorted subs)
                  (process_sub cfg (build_index website_files) broot)
                  (logged [Walk (WEBSITE_FOLDER cfg); Listdir (ASSETS_IMAGES cfg)]
                          (initial fs0)) with
          | (inl e, s) => (inl e, s)
          | (inr _, s) =>
              (inr tt, printed (summary_lines cfg broot website_files
                                  (replacements s) (unmatched s)) s)
          end
      end.
Proof.
  unfold run, main. unfold mbind at 1, M_bind, log at 1. simpl.
  destruct (gather (walked env)) as [|f files]; [done|].
  unfold os_listdir, query, log, lift, mbind, M_bind. simpl.
  destruct (listdir fs0 (ASSETS_IMAGES cfg)) as [e|subs]; [done|].
  unfold logged, initial. simpl.
  destruct (for_each _ _ _) as [[e|[]] s]; [done|].
  by rewrite summary_eq.
Qed.

(** An invariant of a loop holds when the loop ends; [E] is what holds of
    the state an exception leaves. *)
Lemma for_each_inv {A} (I : list A → state → Prop) (E : state → Prop)
    (body : A → M unit) :
  (∀ x rest s r s', I (x :: rest) s → body x s = (r, s') →
     match r with inr _ => I rest s' | inl _ => E s' end) →
  ∀ l s r s', I l s → for_each l body s = (r, s') →
     match r with inr _ => I [] s' | inl _ => E s' end.
Proof.
  intros Hbody l. induction l as [|x l IH]; intros s r s' HI Hrun.
  - injection Hrun as <- <-. done.
  - simpl in Hrun. unfold mbind, M_bind in Hrun.
    destruct (body x s) as [[e|[]] s1] eqn:Hb.
    + injection Hrun as <- <-. apply (Hbody _ _ _ _ _ HI Hb).
    + apply (IH s1); [|done]. apply (Hbody _ _ _ _ _ HI Hb).
Qed.

(** ** The file-system calls *)

Lemma strip_prefix_spec p q r : strip_prefix p q = Some r ↔ q = p ++ r.
Proof.
  revert q. induction p as [|x p IH]; intros q; simpl.
  - split; [by intros [= ->]|by intros ->].
  - destruct q as [|y q]; [by split|].
    destruct (String.eqb_spec x y) as [->|Hne].
    + rewrite IH. split; [by intros ->|by intros [= ->]].
    + split; [done|]. by intros [= -> ?].
Qed.

Lemma child_of_spec p q n : child_of p q = Some n ↔ q = p ++ [n].
Proof.
  unfold child_of. destruct (strip_prefix p q) as [r|] eqn:Hs.
  - apply strip_prefix_spec in Hs as ->.
    destruct r as [|x [|y r]]; split; try done.
    + intros H. apply (f_equal length) in H. rewrite length_app in H.
      simpl in H. rewrite length_app in H. simpl in H. lia.
    + by intros [= ->].
    + by intros [= ->]%app_inv_head.
    + by intros [=]%app_inv_head.
  - split; [done|]. intros ->.
    by rewrite (proj2 (strip_prefix_spec p (p ++ [n]) [n])) in Hs.
Qed.

Lemma NoDup_omap_inj {A B} (f : A → option B) (l : list A) :
  (∀ x y z, f x = Some z → f y = Some z → x = y) →
  NoDup l → NoDup (omap f l).
Proof.
  intros Hinj. induction 1 as [|x l Hx Hl IH]; simpl; [constructor|].
  destruct (f x) as [z|] eqn:Hfx; [|done].
  constructor; [|done].
  intros (y & Hy & Hfy)%list_elem_of_omap.
  by rewrite (Hinj x y z) in Hx.
Qed.

Lemma listdir_spec (fs : filesystem) p names :
  listdir fs p = inr names →
  isdir fs p = true ∧ NoDup names ∧ ∀ n, n ∈ names ↔ is_Some (fs !! (p ++ [n])).
Proof.
  unfold listdir. destruct (isdir fs p); [|done]. intros [= <-].
  split; [done|]. split.
  - apply NoDup_omap_inj; [|apply NoDup_elements].
    intros x y z ->%child_of_spec ->%child_of_spec. done.
  - intros n. rewrite list_elem_of_omap. split.
    + intros (q & Hq%elem_of_elements%elem_of_dom & ->%child_of_spec). done.
    + intros Hn. exists (p ++ [n]). split.
      * by apply elem_of_elements, elem_of_dom.
      * by apply child_of_spec.
Qed.

Lemma listdir_fails (fs : filesystem) p e : listdir fs p = inl e → e = OSError.
Proof. unfold listdir. destruct (isdir fs p); [done|]. by intros [= <-]. Qed.

Lemma sorted_elem l n : n ∈ sorted l ↔ n ∈ l.
Proof. unfold sorted. by rewrite merge_sort_Permutation. Qed.

Lemma sorted_NoDup l : NoDup l → NoDup (sorted l).
Proof. unfold sorted. by rewrite merge_sort_Permutation. Qed.

Lemma relpath_under (A rest : path) : rest ≠ [] → relpath (A ++ rest) A = rest.
Proof.
  intros Hne. unfold relpath.
  assert (relpath_go (A ++ rest) A = rest) as ->; [|by destruct rest].
  induction A as [|x A IH]; simpl.
  - by destruct rest.
  - by rewrite String.eqb_refl.
Qed.

Lemma isdir_Some (fs : filesystem) p : isdir fs p = true ↔ fs !! p = Some Dir.
Proof. unfold isdir. destruct (fs !! p) as [[]|]; split; done. Qed.

Lemma isfile_Some (fs : filesystem) p :
  isfile fs p = true ↔ ∃ data, fs !! p = Some (File data).
Proof.
  unfold isfile. destruct (fs !! p) as [[]|]; split; try done; eauto.
  all: by intros [? ?].
Qed.

(** A directory tree only grows under [makedirs name]: what was there
    stays, and what is new is a directory on the way to [name]. *)
Definition grows_by_dirs (name : path) (fs fs' : filesystem) : Prop :=
  ∀ q, fs' !! q = fs !! q
       ∨ (fs !! q = None ∧ fs' !! q = Some Dir ∧ q `prefix_of` name).

Lemma grows_by_dirs_refl name fs : grows_by_dirs name fs fs.
Proof. intros q. by left. Qed.

Lemma grows_by_dirs_trans name fs1 fs2 fs3 :
  grows_by_dirs name fs1 fs2 → grows_by_dirs name fs2 fs3 →
  grows_by_dirs name fs1 fs3.
Proof.
  intros H12 H23 q.
  destruct (H12 q) as [E12|(N1 & D2 & P2)], (H23 q) as [E23|(N2 & D3 & P3)].
  - left. congruence.
  - right. split_and!; congruence.
  - right. split_and!; congruence.
  - congruence.
Qed.

Lemma grows_by_dirs_mono name name' fs fs' :
  name `prefix_of` name' → grows_by_dirs name fs fs' → grows_by_dirs name' fs fs'.
Proof.
  intros Hp H q. destruct (H q) as [E|(N & D & P)]; [by left|right].
  split_and!; [done..|]. by etrans.
Qed.

Lemma mkdir_spec name fs fs' :
  mkdir name fs = inr fs' →
  fs !! name = None ∧ isdir fs (dirname name) = true ∧ fs' = <[name := Dir]> fs.
Proof.
  unfold mkdir. destruct (fs !! name); [done|].
  destruct (isdir fs (dirname name)); [|done]. by intros [= <-].
Qed.

Lemma mkdir_grows name fs fs' : mkdir name fs = inr fs' → grows_by_dirs name fs fs'.
Proof.
  intros (Hn & _ & ->)%mkdir_spec q. destruct (decide (q = name)) as [->|Hne].
  - right. by rewrite lookup_insert_eq.
  - left. by rewrite lookup_insert_ne.
Qed.

Definition makedirs_head (rhead : list string) (fs : filesystem) : exn + filesystem :=
  match rhead with
  | _ :: _ => if exists_ fs (rev rhead) then mret fs else makedirs_rev rhead fs
  | [] => mret fs
  end.

Lemma makedirs_rev_cons x rhead fs :
  makedirs_rev (x :: rhead) fs =
    match makedirs_head rhead fs with
    | inl e => inl e
    | inr fs1 =>
        match mkdir (rev (x :: rhead)) fs1 with
        | inr fs' => inr fs'
        | inl e => if isdir fs1 (rev (x :: rhead)) then inr fs1 else inl e
        end
    end.
Proof. by destruct rhead. Qed.

Lemma makedirs_rev_grows rname fs fs' :
  makedirs_rev rname fs = inr fs' → grows_by_dirs (rev rname) fs fs'.
Proof.
  revert fs fs'. induction rname as [|x rhead IH]; intros fs fs'.
  - simpl. destruct (mkdir [] fs) as [e|fs1] eqn:Hm.
    + destruct (isdir fs []); [|done]. intros [= <-]. apply grows_by_dirs_refl.
    + intros [= <-]. by eapply mkdir_grows.
  - rewrite makedirs_rev_cons.
    destruct (makedirs_head rhead fs) as [e|fs1] eqn:Hh; [done|].
    assert (grows_by_dirs (rev (x :: rhead)) fs fs1) as H1.
    { unfold makedirs_head in Hh. destruct rhead as [|y rhead'].
      - injection Hh as <-. apply grows_by_dirs_refl.
      - destruct (exists_ fs _).
        + injection Hh as <-. apply grows_by_dirs_refl.
        + eapply grows_by_dirs_mono; [|by apply IH].
          change (rev (x :: y :: rhead')) with (rev (y :: rhead') ++ [x]).
          by apply prefix_app_r. }
    destruct (mkdir _ fs1) as [e|fs2] eqn:Hm.
    + destruct (isdir fs1 _); [|done]. by intros [= <-].
    + intros [= <-]. eapply grows_by_dirs_trans; [done|]. by eapply mkdir_grows.
Qed.

Lemma makedirs_grows name fs fs' :
  makedirs name fs = inr fs' → grows_by_dirs name fs fs'.
Proof.
  intros H%makedirs_rev_grows. by rewrite rev_involutive in H.
Qed.

Lemma copy2_spec (src dst : path) (fs fs' : filesystem) :
  copy2 src dst fs = inr fs' →
  let dst' := if isdir fs dst then join dst [basename src] else dst in
  ∃ data, fs !! src = Some (File data)
          ∧ src ≠ dst'
          ∧ (fs !! dst' = None ∨ ∃ old, fs !! dst' = Some (File old))
          ∧ isdir fs (dirname dst') = true
          ∧ fs' = <[dst' := File data]> fs.
Proof.
  unfold copy2. set (dst' := if isdir fs dst then _ else dst). intros H.
  destruct (bool_decide (src = dst')) eqn:Hsd; [done|].
  apply bool_decide_eq_false in Hsd.
  destruct (fs !! src) as [[data| |]|]; try done.
  exists data. split; [done|]. split; [done|].
  destruct (fs !! dst') as [[old| |]|] eqn:Hd; try done.
  - destruct (isdir fs (dirname dst')); [|done]. injection H as <-.
    split; [right; by exists old|done].
  - destruct (isdir fs (dirname dst')); [|done]. injection H as <-.
    split; [by left|done].
Qed.

(** ** What every run keeps true *)

Definition target (r : match_result) : path := r.1.1.

(** The targets the run has decided on, matched or not. *)
Definition recorded (s : state) : list path :=
  List.map target (replacements s) ++ unmatched s.

Definition notices (cfg : config) (rs : list match_result) : list line :=
  List.map (fun '(t, src, m) => Notice (DRY_RUN cfg) t src m) rs.

Definition is_mutation (op : fsop) : Prop :=
  match op with
  | Makedirs _ | Copy2 _ _ => True
  | _ => False
  end.

Definition is_notice (l : line) : Prop :=
  match l with
  | Notice _ _ _ _ => True
  | _ => False
  end.

(** Where the original of [target_path] is kept. *)
Definition backup_path (cfg : config) (env : environment) (target_path : path) : path :=
  join (join (ASSETS_IMAGES cfg) ["_backup_" +:+ now env])
       (relpath target_path (ASSETS_IMAGES cfg)).

(** The calls of a transfer that goes through. *)
Definition transfer_ops (cfg : config) (env : environment) (t src : path) : list fsop :=
  (if MAKE_BACKUP cfg && negb (DRY_RUN cfg)
   then [Makedirs (dirname (backup_path cfg env t)); Copy2 t (backup_path cfg env t)]
   else [])
  ++ (if negb (DRY_RUN cfg) then [Copy2 src t] else []).

Section run_invariants.
Context (cfg : config) (env : environment) (fs0 : filesystem).

(** An image file directly inside a first-level subfolder of the target
    tree, as the file system stood when the run began. *)
Definition is_target (q : path) : Prop :=
  ∃ sub n, q = ASSETS_IMAGES cfg ++ [sub; n]
           ∧ isdir fs0 (ASSETS_IMAGES cfg ++ [sub]) = true
           ∧ isfile fs0 q = true
           ∧ is_image n = true.

(** Two levels or more below the backup directory of this run. *)
Definition deep (q : path) : Prop :=
  ∃ y z rest, q = ASSETS_IMAGES cfg ++ ("_backup_" +:+ now env) :: y :: z :: rest.

(** The file system during a run, against the one it began with: an entry
    is as it was, or a new directory at most two levels below the target
    root, or a target that holds a file, or a file two levels or more
    below the backup directory of this run. *)
Definition fs_inv (fss : filesystem) : Prop :=
  ∀ q, fss !! q = fs0 !! q
       ∨ (fs0 !! q = None ∧ fss !! q = Some Dir
          ∧ length q ≤ length (ASSETS_IMAGES cfg) + 2)
       ∨ (is_target q ∧ ∃ d, fss !! q = Some (File d))
       ∨ (deep q ∧ ∃ d, fss !! q = Some (File d)).

Lemma deep_length q : deep q → length (ASSETS_IMAGES cfg) + 3 ≤ length q.
Proof. intros (y & z & rest & ->). rewrite length_app. simpl. lia. Qed.

Lemma target_length q : is_target q → length q = length (ASSETS_IMAGES cfg) + 2.
Proof. intros (sub & n & -> & _). rewrite length_app. simpl. lia. Qed.

Lemma target_file q : is_target q → ∃ d, fs0 !! q = Some (File d).
Proof. intros (sub & n & -> & _ & Hf & _). by apply isfile_Some. Qed.

Lemma fs_inv_initial : fs_inv fs0.
Proof. intros q. by left. Qed.

Lemma fs_inv_grows name fss fs1 :
  length name ≤ length (ASSETS_IMAGES cfg) + 2 →
  fs_inv fss → grows_by_dirs name fss fs1 → fs_inv fs1.
Proof.
  intros Hlen Hinv Hg q. destruct (Hg q) as [->|(Hn & Hd & Hp)]; [apply Hinv|].
  destruct (Hinv q) as [E|[(_ & E & _)|[(_ & d & E)|(_ & d & E)]]];
    try congruence.
  right. left. split_and!; [congruence|done|].
  apply prefix_length in Hp. lia.
Qed.

Lemma fs_inv_insert_target fss t d :
  fs_inv fss → is_target t → fs_inv (<[t := File d]> fss).
Proof.
  intros Hinv Ht q. destruct (decide (q = t)) as [->|Hne].
  - right. right. left. split; [done|]. exists d. by rewrite lookup_insert_eq.
  - rewrite lookup_insert_ne by done. apply Hinv.
Qed.

Lemma fs_inv_insert_deep fss b d :
  fs_inv fss → deep b → fs_inv (<[b := File d]> fss).
Proof.
  intros Hinv Hb q. destruct (decide (q = b)) as [->|Hne].
  - right. right. right. split; [done|]. exists d. by rewrite lookup_insert_eq.
  - rewrite lookup_insert_ne by done. apply Hinv.
Qed.

Lemma fs_inv_target_file fss t :
  fs_inv fss → is_target t → ∃ d, fss !! t = Some (File d).
Proof.
  intros Hinv Ht. destruct (target_file t Ht) as [d0 H0].
  destruct (Hinv t) as [E|[(E & _)|[(_ & d & E)|(_ & d & E)]]]; try congruence.
  - exists d0. congruence.
  - by exists d.
  - by exists d.
Qed.

Lemma fs_inv_isfile fss sub n :
  fs_inv fss →
  isfile fss (ASSETS_IMAGES cfg ++ [sub; n]) = isfile fs0 (ASSETS_IMAGES cfg ++ [sub; n]).
Proof.
  intros Hinv. set (q := ASSETS_IMAGES cfg ++ [sub; n]).
  destruct (Hinv q) as [E|[(E1 & E2 & _)|[(Ht & d & E)|(Hd & _)]]].
  - unfold isfile. by rewrite E.
  - unfold isfile. by rewrite E1, E2.
  - destruct (target_file q Ht) as [d0 E0]. unfold isfile. by rewrite E, E0.
  - apply deep_length in Hd. unfold q in Hd. rewrite length_app in Hd.
    simpl in Hd. lia.
Qed.

Lemma fs_inv_isdir fss sub :
  fs_inv fss → is_Some (fs0 !! (ASSETS_IMAGES cfg ++ [sub])) →
  isdir fss (ASSETS_IMAGES cfg ++ [sub]) = isdir fs0 (ASSETS_IMAGES cfg ++ [sub]).
Proof.
  intros Hinv [e He]. set (q := ASSETS_IMAGES cfg ++ [sub]) in *.
  destruct (Hinv q) as [E|[(E1 & _)|[(Ht & _)|(Hd & _)]]].
  - unfold isdir. by rewrite E.
  - congruence.
  - apply target_length in Ht. unfold q in Ht. rewrite length_app in Ht.
    simpl in Ht. lia.
  - apply deep_length in Hd. unfold q in Hd. rewrite length_app in Hd.
    simpl in Hd. lia.
Qed.

Lemma backup_path_target sub n :
  backup_path cfg env (ASSETS_IMAGES cfg ++ [sub; n])
  = ASSETS_IMAGES cfg ++ ["_backup_" +:+ now env; sub; n].
Proof.
  unfold backup_path, join. rewrite relpath_under by done.
  by rewrite <-app_assoc.
Qed.

Lemma backup_dir_target sub n :
  dirname (backup_path cfg env (ASSETS_IMAGES cfg ++ [sub; n]))
  = ASSETS_IMAGES cfg ++ ["_backup_" +:+ now env; sub].
Proof.
  rewrite backup_path_target. unfold dirname.
  change ["_backup_" +:+ now env; sub; n]
    with (["_backup_" +:+ now env; sub] ++ [n]).
  by rewrite app_assoc, removelast_last.
Qed.

Lemma backup_path_deep t : is_target t → deep (backup_path cfg env t).
Proof.
  intros (sub & n & -> & _). rewrite backup_path_target.
  by exists sub, n, [].
Qed.

Lemma deep_child b x : deep b → deep (b ++ [x]).
Proof.
  intros (a2 & a3 & rest & ->). exists a2, a3, (rest ++ [x]).
  by rewrite <-app_assoc.
Qed.

Lemma replace_effect_inv t src fss ops fs' r :
  DRY_RUN cfg = false → is_target t → fs_inv fss →
  replace_effect cfg src t fss = (ops, fs', r) →
  fs_inv fs' ∧ ops = [Copy2 src t]
  ∧ (r = inr tt → ∃ d, fss !! src = Some (File d) ∧ src ≠ t
                       ∧ fs' = <[t := File d]> fss).
Proof.
  intros Hdry Ht Hinv. unfold replace_effect. rewrite Hdry. simpl.
  destruct (copy2 src t fss) as [e|fs1] eqn:Hc; intros [= <- <- <-].
  - by split_and!.
  - apply copy2_spec in Hc as (d & Hsrc & Hne & _ & _ & ->).
    destruct (fs_inv_target_file fss t Hinv Ht) as [d0 Hd0].
    assert (isdir fss t = false) as Hnd by (unfold isdir; by rewrite Hd0).
    rewrite Hnd in *. split_and!; [by apply fs_inv_insert_target|done|].
    intros _. by exists d.
Qed.

Lemma backup_effect_inv t fss ops fs' r :
  MAKE_BACKUP cfg = true → DRY_RUN cfg = false → is_target t → fs_inv fss →
  backup_effect cfg (take_backup_root cfg env) t fss = (ops, fs', r) →
  fs_inv fs'
  ∧ (∀ x y, Copy2 x y ∈ ops → x = t ∧ y = backup_path cfg env t)
  ∧ (r = inr tt →
     ops = [Makedirs (dirname (backup_path cfg env t)); Copy2 t (backup_path cfg env t)]).
Proof.
  intros Hmb Hdry Ht Hinv. unfold backup_effect, take_backup_root.
  rewrite Hmb, Hdry. simpl. fold (backup_path cfg env t).
  destruct (makedirs _ fss) as [e|fs1] eqn:Hm.
  { intros [= <- <- <-]. split_and!; [done| |done].
    intros x y [?|?%elem_of_nil]%elem_of_cons; done. }
  assert (fs_inv fs1) as Hinv1.
  { apply makedirs_grows in Hm. eapply fs_inv_grows; [|done..].
    destruct Ht as (sub & n & -> & _). rewrite backup_dir_target.
    rewrite length_app. simpl. lia. }
  assert (∀ x y, Copy2 x y ∈ [Makedirs (dirname (backup_path cfg env t));
                              Copy2 t (backup_path cfg env t)] →
                 x = t ∧ y = backup_path cfg env t) as Hops.
  { intros x y [?|[[= -> ->]|?%elem_of_nil]%elem_of_cons]%elem_of_cons; done. }
  destruct (copy2 t _ fs1) as [e|fs2] eqn:Hc; intros [= <- <- <-].
  { by split_and!. }
  split_and!; [|done..].
  apply copy2_spec in Hc as (d & _ & _ & _ & _ & ->).
  apply fs_inv_insert_deep; [done|].
  pose proof (backup_path_deep t Ht) as Hd.
  destruct (isdir fs1 _); [by apply deep_child|done].
Qed.

Lemma transfer_inv t src fss ops fs' r :
  is_target t → fs_inv fss →
  transfer cfg (take_backup_root cfg env) t src fss = (ops, fs', r) →
  fs_inv fs'
  ∧ (∀ x y, Copy2 x y ∈ ops → (x = t ∧ deep y) ∨ y = t)
  ∧ (DRY_RUN cfg = true → fs' = fss ∧ ops = [])
  ∧ (r = inr tt → ops = transfer_ops cfg env t src).
Proof.
  intros Ht Hinv. unfold transfer, transfer_ops.
  destruct (DRY_RUN cfg) eqn:Hdry.
  { unfold backup_effect, replace_effect. rewrite Hdry, andb_false_r. simpl.
    intros [= <- <- <-]. split_and!; try done.
    intros x y ?%elem_of_nil. done. }
  destruct (MAKE_BACKUP cfg) eqn:Hmb; simpl.
  - destruct (backup_effect cfg _ t fss) as [[ops1 fs1] r1] eqn:Hb.
    destruct (backup_effect_inv t fss ops1 fs1 r1 Hmb Hdry Ht Hinv Hb)
      as (Hinv1 & Hops1 & Hok1).
    assert (∀ x y, Copy2 x y ∈ ops1 → (x = t ∧ deep y) ∨ y = t) as Hops1'.
    { intros x y [-> ->]%Hops1. left. split; [done|]. by apply backup_path_deep. }
    destruct r1 as [e|[]].
    { intros [= <- <- <-]. by split_and!. }
    destruct (replace_effect cfg src t fs1) as [[ops2 fs2] r2] eqn:Hr.
    destruct (replace_effect_inv t src fs1 ops2 fs2 r2 Hdry Ht Hinv1 Hr)
      as (Hinv2 & -> & _).
    intros [= <- <- <-]. split_and!; [done| |done|].
    + intros x y [?|[[= -> ->]|?%elem_of_nil]%elem_of_cons]%elem_of_app;
        try done; auto.
    + intros _. by rewrite (Hok1 eq_refl).
  - unfold backup_effect. rewrite Hmb. simpl.
    destruct (replace_effect cfg src t fss) as [[ops2 fs2] r2] eqn:Hr.
    destruct (replace_effect_inv t src fss ops2 fs2 r2 Hdry Ht Hinv Hr)
      as (Hinv2 & -> & _).
    intros [= <- <- <-]. split_and!; [done| |done|done].
    intros x y [[= -> ->]|?%elem_of_nil]%elem_of_cons; try done; auto.
Qed.

(** What holds of the state whenever the run stops, by its end or by an
    exception. *)
Record final_inv (s : state) : Prop := FinalInv {
  fi_fs : fs_inv (fs s);
  fi_dry : DRY_RUN cfg = true →
           fs s = fs0 ∧ Forall (fun op => ¬ is_mutation op) (oplog s);
  fi_rec : Forall is_target (recorded s);
  fi_nodup : NoDup (recorded s);
  fi_ops : ∀ x y, Copy2 x y ∈ oplog s → (is_target x ∧ deep y) ∨ is_target y;
  fi_seq : ∀ t src m, (t, src, m) ∈ replacements s →
           ∃ l1 l2, oplog s = l1 ++ transfer_ops cfg env t src ++ l2
                    ∧ (∀ x, Copy2 x t ∉ l1) ∧ (∀ x, Copy2 x t ∉ l2);
  fi_out : stdout s = notices cfg (replacements s)
}.

(** What holds between two iterations: [pending] are the targets still to
    come. *)
Record loop_inv (pending : path → Prop) (s : state) : Prop := LoopInv {
  li_final : final_inv s;
  li_pending : Forall (fun t => ¬ pending t) (recorded s);
  li_over : ∀ x y, Copy2 x y ∈ oplog s →
            deep y ∨ y ∈ List.map target (replacements s)
}.

Lemma loop_inv_weaken (pending pending' : path → Prop) s :
  (∀ q, pending' q → pending q) → loop_inv pending s → loop_inv pending' s.
Proof.
  intros Hw [Hf Hp Ho]. split; [done| |done].
  eapply Forall_impl; [done|]. intros t Hn Hp'. by apply Hn, Hw.
Qed.

Lemma seq_extend (rs : list match_result) (ol extra : list fsop) :
  (∀ t src m, (t, src, m) ∈ rs →
     ∃ l1 l2, ol = l1 ++ transfer_ops cfg env t src ++ l2
              ∧ (∀ x, Copy2 x t ∉ l1) ∧ (∀ x, Copy2 x t ∉ l2)) →
  (∀ t src m x, (t, src, m) ∈ rs → Copy2 x t ∉ extra) →
  ∀ t src m, (t, src, m) ∈ rs →
     ∃ l1 l2, ol ++ extra = l1 ++ transfer_ops cfg env t src ++ l2
              ∧ (∀ x, Copy2 x t ∉ l1) ∧ (∀ x, Copy2 x t ∉ l2).
Proof.
  intros Hseq Hex t src m Hin.
  destruct (Hseq t src m Hin) as (l1 & l2 & -> & H1 & H2).
  exists l1, (l2 ++ extra). split_and!; [by rewrite <-!app_assoc|done|].
  intros x [?|?]%elem_of_app; [by eapply H2|by eapply Hex].
Qed.

Lemma no_mutation_no_copy (ops : list fsop) x y :
  Forall (fun op => ¬ is_mutation op) ops → Copy2 x y ∉ ops.
Proof. rewrite Forall_forall. intros H Hin. by apply (H _ Hin). Qed.

Lemma final_inv_logged ops s :
  Forall (fun op => ¬ is_mutation op) ops → final_inv s → final_inv (logged ops s).
Proof.
  intros Hops [Hfs Hdry Hrec Hnd Hok Hseq Hout]. split; simpl; try done.
  - intros Hd. destruct (Hdry Hd) as [? ?]. split; [done|]. by apply Forall_app.
  - intros x y [?|Hin]%elem_of_app; [by apply Hok|].
    by destruct (no_mutation_no_copy ops x y Hops Hin).
  - apply seq_extend; [done|]. intros. by apply no_mutation_no_copy.
Qed.

Lemma loop_inv_logged pending ops s :
  Forall (fun op => ¬ is_mutation op) ops →
  loop_inv pending s → loop_inv pending (logged ops s).
Proof.
  intros Hops [Hf Hp Ho]. split; simpl; try done.
  - by apply final_inv_logged.
  - intros x y [?|Hin]%elem_of_app; [by apply (Ho x y)|].
    by destruct (no_mutation_no_copy ops x y Hops Hin).
Qed.

Lemma recorded_target_in s t src m :
  (t, src, m) ∈ replacements s → t ∈ recorded s.
Proof.
  intros Hin. unfold recorded. apply elem_of_app. left.
  apply list_elem_of_In, in_map_iff. exists (t, src, m).
  split; [done|]. by apply list_elem_of_In.
Qed.

Lemma target_in_recorded s t :
  t ∈ List.map target (replacements s) → t ∈ recorded s.
Proof. intros Hin. unfold recorded. apply elem_of_app. by left. Qed.

(** A target the matcher leaves unmatched. *)
Lemma loop_inv_unmatched pending s t :
  is_target t → pending t → loop_inv pending s →
  loop_inv (fun q => pending q ∧ q ≠ t)
    (State (fs s) (replacements s) (unmatched s ++ [t]) (stdout s)
           (oplog s ++ [Isfile t])).
Proof.
  intros Ht Hpt Hinv.
  assert (Forall (fun op => ¬ is_mutation op) [Isfile t]) as Hlog.
  { constructor; [by intros []|constructor]. }
  apply (loop_inv_logged pending _ s Hlog) in Hinv as [[Hfs Hdry Hrec Hnd Hok Hseq Hout] Hp Ho].
  simpl in *.
  assert (t ∉ recorded s) as Hfresh.
  { intros Hin. rewrite Forall_forall in Hp. by apply (Hp t Hin). }
  split; [split|..]; simpl; try done.
  - unfold recorded in *. simpl. rewrite app_assoc. apply Forall_app.
    split; [done|]. by constructor.
  - unfold recorded in *. simpl. rewrite app_assoc.
    apply NoDup_app. split_and!; [done| |apply NoDup_singleton].
    intros q Hq ->%list_elem_of_singleton. done.
  - unfold recorded in *. simpl. rewrite app_assoc. apply Forall_app. split.
    + eapply Forall_impl; [done|]. intros q Hn [Hq _]. by apply Hn.
    + constructor; [|constructor]. by intros [_ ?].
Qed.

(** A transfer that an exception cut short. *)
Lemma final_inv_failed pending s t ops fs' :
  is_target t → pending t → loop_inv pending s →
  fs_inv fs' →
  (∀ x y, Copy2 x y ∈ ops → (x = t ∧ deep y) ∨ y = t) →
  (DRY_RUN cfg = true → fs' = fs s ∧ ops = []) →
  final_inv (State fs' (replacements s) (unmatched s) (stdout s)
                   (oplog s ++ Isfile t :: ops)).
Proof.
  intros Ht Hpt [[Hfs Hdry Hrec Hnd Hok Hseq Hout] Hp Ho] Hfs' Hops Hd.
  split; simpl; try done.
  - intros Hdr. destruct (Hdry Hdr) as [E Hm]. destruct (Hd Hdr) as [E' E''].
    split; [congruence|]. apply Forall_app. split; [done|].
    rewrite E''. constructor; [by intros []|constructor].
  - intros x y [?|[?|Hin]%elem_of_cons]%elem_of_app; [by apply Hok|done|].
    destruct (Hops x y Hin) as [[-> ?]| ->]; auto.
  - apply seq_extend; [done|].
    intros t' src' m' x Hin [?|Hx]%elem_of_cons; [done|].
    assert (t' ∈ recorded s) as Hrec' by by eapply recorded_target_in.
    rewrite Forall_forall in Hp, Hrec.
    destruct (Hops x t' Hx) as [[_ Hdeep]| ->]; [|by apply (Hp t)].
    apply deep_length in Hdeep. pose proof (target_length _ (Hrec _ Hrec')). lia.
Qed.

(** A transfer that went through. *)
Lemma loop_inv_replaced pending s t src m fs' :
  is_target t → pending t → loop_inv pending s →
  fs_inv fs' →
  (DRY_RUN cfg = true → fs' = fs s) →
  loop_inv (fun q => pending q ∧ q ≠ t)
    (State fs' (replacements s ++ [(t, src, m)]) (unmatched s)
           (stdout s ++ [Notice (DRY_RUN cfg) t src m])
           (oplog s ++ Isfile t :: transfer_ops cfg env t src)).
Proof.
  intros Ht Hpt [[Hfs Hdry Hrec Hnd Hok Hseq Hout] Hp Ho] Hfs' Hd.
  assert (t ∉ recorded s) as Hfresh.
  { intros Hin. rewrite Forall_forall in Hp. by apply (Hp t Hin). }
  assert (∀ x y, Copy2 x y ∈ transfer_ops cfg env t src →
                 (x = t ∧ deep y) ∨ y = t) as Hops.
  { unfold transfer_ops. intros x y [Hin|Hin]%elem_of_app.
    - destruct (MAKE_BACKUP cfg && negb (DRY_RUN cfg)); [|by apply elem_of_nil in Hin].
      apply elem_of_cons in Hin as [?|[[= -> ->]|?%elem_of_nil]%elem_of_cons];
        try done.
      left. split; [done|]. by apply backup_path_deep.
    - destruct (negb (DRY_RUN cfg)); [|by apply elem_of_nil in Hin].
      apply elem_of_cons in Hin as [[= -> ->]|?%elem_of_nil]; try done. by right. }
  assert (recorded (State fs' (replacements s ++ [(t, src, m)]) (unmatched s)
                          (stdout s ++ [Notice (DRY_RUN cfg) t src m])
                          (oplog s ++ Isfile t :: transfer_ops cfg env t src))
          ≡ₚ t :: recorded s) as Hperm.
  { unfold recorded. simpl. rewrite map_app. simpl.
    rewrite <-app_assoc. simpl. by rewrite <-Permutation_middle. }
  split; [split|..]; simpl.
  - done.
  - intros Hdr. destruct (Hdry Hdr) as [E Hm]. split; [by rewrite Hd|].
    apply Forall_app. split; [done|].
    constructor; [by intros []|].
    unfold transfer_ops. rewrite Hdr, andb_false_r. simpl. constructor.
  - rewrite Hperm. by constructor.
  - rewrite Hperm. by constructor.
  - intros x y [?|[?|Hin]%elem_of_cons]%elem_of_app; [by apply Hok|done|].
    destruct (Hops x y Hin) as [[-> ?]| ->]; auto.
  - intros t' src' m' [Hin|[= -> -> ->]%list_elem_of_singleton]%elem_of_app.
    + revert t' src' m' Hin.
      apply (seq_extend (replacements s) (oplog s)
               (Isfile t :: transfer_ops cfg env t src)); [done|].
      intros t' src' m' x Hin [?|Hx]%elem_of_cons; [done|].
      assert (t' ∈ recorded s) as Hrec' by by eapply recorded_target_in.
      rewrite Forall_forall in Hp, Hrec.
      destruct (Hops x t' Hx) as [[_ Hdeep]| ->]; [|by apply (Hp t)].
      apply deep_length in Hdeep. pose proof (target_length _ (Hrec _ Hrec')). lia.
    + exists (oplog s ++ [Isfile t]), []. split_and!.
      * rewrite app_nil_r, <-app_assoc. done.
      * intros x [Hx|[?|?%elem_of_nil]%elem_of_cons]%elem_of_app; try done.
        destruct (Ho x t Hx) as [Hdeep|Hin].
        -- apply deep_length in Hdeep. pose proof (target_length _ Ht). lia.
        -- by apply Hfresh, target_in_recorded.
      * intros x ?%elem_of_nil. done.
  - unfold notices in *. rewrite map_app. simpl. by rewrite Hout.
  - rewrite Hperm. constructor; [by intros [_ ?]|].
    eapply Forall_impl; [done|]. intros q Hn [Hq _]. by apply Hn.
  - rewrite map_app. simpl.
    intros x y [Hx|[?|Hin]%elem_of_cons]%elem_of_app; [|done|].
    + destruct (Ho x y Hx) as [?|?]; [by left|right]. apply elem_of_app. by left.
    + destruct (Hops x y Hin) as [[-> ?]| ->]; [by left|right].
      apply elem_of_app. right. by apply list_elem_of_singleton.
Qed.

(** The targets inside the subfolders still to be visited. *)
Definition pending_subs (subs : list string) (q : path) : Prop :=
  ∃ sub n, q = ASSETS_IMAGES cfg ++ [sub; n] ∧ sub ∈ subs.

Lemma printed_nil s : printed [] s = s.
Proof. destruct s. unfold printed. simpl. by rewrite app_nil_r. Qed.

(** A further property [J] of the state that each kind of step keeps is
    kept by the loops, and [JE] holds where an exception stops them. *)
Section carried.
Context (idx : index) (J JE : state → Prop).
Hypothesis J_logged : ∀ ops s,
  Forall (fun op => ¬ is_mutation op) ops → J s → J (logged ops s).
Hypothesis J_unmatched : ∀ (pending : path → Prop) s t,
  is_target t → pending t → loop_inv pending s → J s →
  J (State (fs s) (replacements s) (unmatched s ++ [t]) (stdout s)
           (oplog s ++ [Isfile t])).
Hypothesis J_transfer : ∀ (pending : path → Prop) s sub n src m ops fs' r,
  is_target (ASSETS_IMAGES cfg ++ [sub; n]) →
  pending (ASSETS_IMAGES cfg ++ [sub; n]) →
  loop_inv pending s → J s →
  match_target idx (FUZZY_CUTOFF cfg) n = inr (Some (src, m)) →
  transfer cfg (take_backup_root cfg env) (ASSETS_IMAGES cfg ++ [sub; n]) src (fs s)
    = (ops, fs', r) →
  match r with
  | inr _ =>
      J (State fs' (replacements s ++ [(ASSETS_IMAGES cfg ++ [sub; n], src, m)])
               (unmatched s)
               (stdout s ++ [Notice (DRY_RUN cfg) (ASSETS_IMAGES cfg ++ [sub; n]) src m])
               (oplog s ++ Isfile (ASSETS_IMAGES cfg ++ [sub; n]) :: ops))
  | inl _ =>
      JE (State fs' (replacements s) (unmatched s) (stdout s)
                (oplog s ++ Isfile (ASSETS_IMAGES cfg ++ [sub; n]) :: ops))
  end.
Hypothesis J_match_fails : ∀ s n e t,
  J s → match_target idx (FUZZY_CUTOFF cfg) n = inl e → JE (logged [Isfile t] s).

Lemma process_file_step sub n (pending : path → Prop) s r s' :
  isdir fs0 (ASSETS_IMAGES cfg ++ [sub]) = true →
  pending (ASSETS_IMAGES cfg ++ [sub; n]) →
  loop_inv pending s → J s →
  process_file cfg idx (take_backup_root cfg env)
               (ASSETS_IMAGES cfg ++ [sub]) n s = (r, s') →
  match r with
  | inr _ => loop_inv (fun q => pending q ∧ q ≠ ASSETS_IMAGES cfg ++ [sub; n]) s'
             ∧ J s'
  | inl _ => final_inv s' ∧ JE s'
  end.
Proof.
  intros Hsub Hpt Hinv HJ. rewrite process_file_eq. unfold join.
  rewrite <-app_assoc. simpl.
  rewrite (fs_inv_isfile (fs s) sub n (fi_fs _ (li_final _ _ Hinv))).
  set (t := ASSETS_IMAGES cfg ++ [sub; n]) in *.
  assert (Forall (fun op => ¬ is_mutation op) [Isfile t]) as Hlog.
  { constructor; [by intros []|constructor]. }
  assert (loop_inv (fun q => pending q ∧ q ≠ t) (logged [Isfile t] s)
          ∧ J (logged [Isfile t] s)) as Hskip.
  { split; [|by apply J_logged].
    eapply loop_inv_weaken; [|by apply loop_inv_logged]. by intros q [? _]. }
  destruct (isfile fs0 t) eqn:Hf; simpl; [|by intros [= <- <-]].
  destruct (is_image n) eqn:Hi; simpl; [|by intros [= <- <-]].
  assert (is_target t) as Ht by by exists sub, n.
  destruct (match_target idx (FUZZY_CUTOFF cfg) n) as [e|[[src m]|]] eqn:Hm.
  - intros [= <- <-]. split; [|by eapply J_match_fails].
    apply final_inv_logged; [done|]. apply Hinv.
  - destruct (transfer cfg _ t src (fs s)) as [[ops fs'] r'] eqn:Htr.
    destruct (transfer_inv t src (fs s) ops fs' r' Ht
                (fi_fs _ (li_final _ _ Hinv)) Htr) as (Hfs' & Hops & Hd & Hok).
    pose proof (J_transfer pending s sub n src m ops fs' r' Ht Hpt Hinv HJ Hm Htr)
      as HJ'.
    destruct r' as [e|[]]; intros [= <- <-].
    + split; [|done]. by apply (final_inv_failed pending).
    + split; [|done]. rewrite (Hok eq_refl). apply loop_inv_replaced; try done.
      intros Hdr. by destruct (Hd Hdr).
  - intros [= <- <-]. split; [by apply loop_inv_unmatched|].
    by apply (J_unmatched pending).
Qed.

Lemma process_sub_step sub rest s r s' :
  sub ∉ rest →
  is_Some (fs0 !! (ASSETS_IMAGES cfg ++ [sub])) →
  loop_inv (pending_subs (sub :: rest)) s → J s →
  process_sub cfg idx (take_backup_root cfg env) sub s = (r, s') →
  match r with
  | inr _ => loop_inv (pending_subs rest) s' ∧ J s'
  | inl _ => final_inv s' ∧ JE s'
  end.
Proof.
  intros Hsub Hex Hinv HJ. rewrite process_sub_eq. cbv zeta.
  change (join (ASSETS_IMAGES cfg) [sub]) with (ASSETS_IMAGES cfg ++ [sub]).
  rewrite (fs_inv_isdir (fs s) sub (fi_fs _ (li_final _ _ Hinv)) Hex).
  set (subpath := ASSETS_IMAGES cfg ++ [sub]).
  assert (∀ q, pending_subs rest q → pending_subs (sub :: rest) q) as Hw.
  { intros q (sub' & n & -> & Hin). exists sub', n. split; [done|]. by right. }
  destruct (isdir fs0 subpath) eqn:Hd.
  2:{ intros [= <- <-].
      assert (Forall (fun op => ¬ is_mutation op) [Isdir subpath]) as Hlog.
      { constructor; [by intros []|constructor]. }
      split; [|by apply J_logged]. eapply loop_inv_weaken; [done|].
      by apply loop_inv_logged. }
  assert (Forall (fun op => ¬ is_mutation op) [Isdir subpath; Listdir subpath])
    as Hlog.
  { constructor; [by intros []|]. constructor; [by intros []|constructor]. }
  destruct (listdir (fs s) subpath) as [e|names] eqn:Hl.
  { unfold listdir, subpath in Hl.
    rewrite (fs_inv_isdir (fs s) sub (fi_fs _ (li_final _ _ Hinv)) Hex) in Hl.
    fold subpath in Hl. by rewrite Hd in Hl. }
  apply listdir_spec in Hl as (_ & Hnd & _).
  intros Hrun.
  pose proof (for_each_inv
    (fun names' s => NoDup names'
       ∧ loop_inv (fun q => pending_subs rest q
                            ∨ ∃ n, n ∈ names' ∧ q = ASSETS_IMAGES cfg ++ [sub; n]) s
       ∧ J s)
    (fun s => final_inv s ∧ JE s)
    (process_file cfg idx (take_backup_root cfg env) subpath))
    as Hloop.
  specialize (Hloop) with (l := sorted names) (r := r) (s' := s')
    (s := logged [Isdir subpath; Listdir subpath] s).
  assert (match r with
          | inr _ => NoDup (@nil string)
              ∧ loop_inv (fun q => pending_subs rest q
                   ∨ ∃ n, n ∈ @nil string ∧ q = ASSETS_IMAGES cfg ++ [sub; n]) s'
              ∧ J s'
          | inl _ => final_inv s' ∧ JE s'
          end) as Hres.
  { apply Hloop; [| |done].
    - intros x rest' s1 r1 s1' (Hnd1 & Hinv1 & HJ1) Hbody.
      apply NoDup_cons in Hnd1 as [Hx Hnd1].
      eapply process_file_step in Hbody; [|done| |done..].
      + destruct r1 as [e|[]]; [done|]. destruct Hbody as [Hbody HJ1'].
        split_and!; [done| |done].
        eapply loop_inv_weaken; [|done]. intros q [Hq|(n & Hn & ->)].
        * split; [by left|]. destruct Hq as (sub' & n' & -> & Hin).
          intros [= -> ->]%app_inv_head. done.
        * split; [right; exists n; split; [by right|done]|].
          intros [= ->]%app_inv_head. done.
      + right. exists x. split; [by left|done].
    - split_and!; [by apply sorted_NoDup| |by apply J_logged].
      apply loop_inv_logged; [done|]. eapply loop_inv_weaken; [|done].
      intros q [Hq|(n & Hn & ->)]; [by apply Hw|].
      exists sub, n. split; [done|]. by left. }
  destruct r as [e|[]]; [done|]. destruct Hres as (_ & Hres & HJ').
  split; [|done]. eapply loop_inv_weaken; [|done]. intros q Hq. by left.
Qed.

Lemma subs_loop (subs : list string) s r s' :
  NoDup subs →
  (∀ sub, sub ∈ subs → is_Some (fs0 !! (ASSETS_IMAGES cfg ++ [sub]))) →
  loop_inv (pending_subs subs) s → J s →
  for_each subs (process_sub cfg idx (take_backup_root cfg env)) s = (r, s') →
  match r with
  | inr _ => loop_inv (pending_subs []) s' ∧ J s'
  | inl _ => final_inv s' ∧ JE s'
  end.
Proof.
  intros Hnd Hex Hinv HJ Hrun.
  pose proof (for_each_inv
    (fun subs' s => NoDup subs'
       ∧ (∀ sub, sub ∈ subs' → is_Some (fs0 !! (ASSETS_IMAGES cfg ++ [sub])))
       ∧ loop_inv (pending_subs subs') s ∧ J s)
    (fun s => final_inv s ∧ JE s)
    (process_sub cfg idx (take_backup_root cfg env)))
    as Hloop.
  specialize (Hloop) with (l := subs) (r := r) (s' := s') (s := s).
  assert (match r with
          | inr _ => NoDup (@nil string)
              ∧ (∀ sub, sub ∈ @nil string →
                   is_Some (fs0 !! (ASSETS_IMAGES cfg ++ [sub])))
              ∧ loop_inv (pending_subs []) s' ∧ J s'
          | inl _ => final_inv s' ∧ JE s'
          end) as Hres.
  { apply Hloop; [|done|done].
    intros x rest' s2 r2 s2' (Hnd2 & Hex2 & Hinv2 & HJ2) Hbody.
    apply NoDup_cons in Hnd2 as [Hx Hnd2].
    eapply process_sub_step in Hbody; [|done| |done..].
    - destruct r2 as [e|[]]; [done|]. destruct Hbody as [? ?].
      split_and!; [done| |done..]. intros sub Hin. apply Hex2. by right.
    - apply Hex2. by left. }
  destruct r as [e|[]]; [done|]. by destruct Hres as (_ & _ & ? & ?).
Qed.
End carried.

Lemma loop_inv_initial : loop_inv (fun _ => True) (initial fs0).
Proof.
  split; [split|..]; simpl; try done.
  - apply fs_inv_initial.
  - constructor.
  - intros x y ?%elem_of_nil. done.
  - intros t src m ?%elem_of_nil. done.
  - intros x y ?%elem_of_nil. done.
Qed.

(** The run as a whole: [final_inv] holds of the state before the summary
    is printed, together with [J] at a normal end and [JE] after an
    exception of the loops. *)
Lemma run_carried (J JE : state → Prop) r s :
  (∀ ops s, Forall (fun op => ¬ is_mutation op) ops → J s → J (logged ops s)) →
  (∀ (pending : path → Prop) s t,
     is_target t → pending t → loop_inv pending s → J s →
     J (State (fs s) (replacements s) (unmatched s ++ [t]) (stdout s)
              (oplog s ++ [Isfile t]))) →
  (∀ (pending : path → Prop) s sub n src m ops fs' r,
     is_target (ASSETS_IMAGES cfg ++ [sub; n]) →
     pending (ASSETS_IMAGES cfg ++ [sub; n]) →
     loop_inv pending s → J s →
     match_target (build_index (gather (walked env))) (FUZZY_CUTOFF cfg) n
       = inr (Some (src, m)) →
     transfer cfg (take_backup_root cfg env) (ASSETS_IMAGES cfg ++ [sub; n]) src (fs s)
       = (ops, fs', r) →
     match r with
     | inr _ =>
         J (State fs' (replacements s ++ [(ASSETS_IMAGES cfg ++ [sub; n], src, m)])
                  (unmatched s)
                  (stdout s ++ [Notice (DRY_RUN cfg) (ASSETS_IMAGES cfg ++ [sub; n]) src m])
                  (oplog s ++ Isfile (ASSETS_IMAGES cfg ++ [sub; n]) :: ops))
     | inl _ =>
         JE (State fs' (replacements s) (unmatched s) (stdout s)
                   (oplog s ++ Isfile (ASSETS_IMAGES cfg ++ [sub; n]) :: ops))
     end) →
  (∀ s n e t,
     J s →
     match_target (build_index (gather (walked env))) (FUZZY_CUTOFF cfg) n = inl e →
     JE (logged [Isfile t] s)) →
  J (initial fs0) →
  run cfg env fs0 = (r, s) →
  ∃ s1, final_inv s1
        ∧ s = printed (match r with
                       | inr _ => summary_lines cfg (take_backup_root cfg env)
                                    (gather (walked env)) (replacements s1)
                                    (unmatched s1)
                       | inl _ => []
                       end) s1
        ∧ (gather (walked env) ≠ [] → isdir fs0 (ASSETS_IMAGES cfg) = true →
           match r with inr _ => J s1 | inl _ => JE s1 end)
        ∧ (gather (walked env) = [] ∨ isdir fs0 (ASSETS_IMAGES cfg) = false →
           ∃ ops, s1 = logged ops (initial fs0)).
Proof.
  intros J1 J2 J3 J4 J0. rewrite run_eq. simpl.
  pose proof loop_inv_initial as Hinit.
  destruct (gather (walked env)) as [|f files] eqn:Hg.
  { intros [= <- <-]. eexists. split_and!; [|by rewrite printed_nil|done|by eexists].
    apply final_inv_logged; [|apply Hinit].
    constructor; [by intros []|constructor]. }
  assert (Forall (fun op => ¬ is_mutation op)
            [Walk (WEBSITE_FOLDER cfg); Listdir (ASSETS_IMAGES cfg)]) as Hlog.
  { constructor; [by intros []|]. constructor; [by intros []|constructor]. }
  destruct (listdir fs0 (ASSETS_IMAGES cfg)) as [e|subs] eqn:Hl.
  { intros [= <- <-]. eexists. split_and!; [|by rewrite printed_nil| |by eexists].
    - apply final_inv_logged; [done|apply Hinit].
    - intros _ Hd. unfold listdir in Hl. by rewrite Hd in Hl. }
  apply listdir_spec in Hl as (Hdir & Hnd & Hsubs).
  destruct (for_each _ _ _) as [r1 s1] eqn:Hrun.
  eapply (subs_loop (build_index (f :: files)) J JE) in Hrun; try done.
  - destruct r1 as [e|[]]; intros [= <- <-].
    + exists s1. destruct Hrun as [? ?]. rewrite printed_nil.
      split_and!; [done..|]. intros [?|?]; congruence.
    + exists s1. destruct Hrun as [[? _ _] ?].
      split_and!; [done..|]. intros [?|?]; congruence.
  - by apply sorted_NoDup.
  - intros sub Hin. apply (proj1 (sorted_elem _ _)) in Hin.
    by apply (proj1 (Hsubs sub)).
  - apply loop_inv_logged; [done|]. eapply loop_inv_weaken; [|done]. done.
  - by apply J1.
Qed.

(** Every run, whatever the configuration, the environment and the file
    system it starts from, ends in a state that satisfies [final_inv], up
    to the summary printed at the very end. *)
Lemma run_final r s :
  run cfg env fs0 = (r, s) →
  ∃ s1, final_inv s1
        ∧ s = printed (match r with
                       | inr _ => summary_lines cfg (take_backup_root cfg env)
                                    (gather (walked env)) (replacements s1)
                                    (unmatched s1)
                       | inl _ => []
                       end) s1.
Proof.
  intros Hrun.
  destruct (run_carried (fun _ => True) (fun _ => True) r s) as (s1 & ? & ? & _ & _);
    try done.
  - intros pending s0 sub n src m ops fs' r' _ _ _ _ _ _. by destruct r'.
  - by exists s1.
Qed.
End run_invariants.


(** ** Console output *)

Lemma summary_no_notice cfg broot files rs us :
  Forall (fun l => ¬ is_notice l) (summary_lines cfg broot files rs us).
Proof.
  unfold summary_lines. repeat apply Forall_app_2.
  - repeat constructor; by intros [].
  - destruct rs as [|r0 rs']; [constructor|]. constructor; [by intros []|].
    apply Forall_forall. intros l Hl.
    apply list_elem_of_In, in_map_iff in Hl as ([[t src] m'] & <- & _). by intros [].
  - destruct us as [|u0 us']; [constructor|]. constructor; [by intros []|].
    constructor; [by intros []|]. apply Forall_forall. intros l Hl.
    apply list_elem_of_In, in_map_iff in Hl as (p & <- & _). by intros [].
  - destruct (MAKE_BACKUP cfg); [|constructor].
    constructor; [|constructor]. by destruct broot; intros [].
  - repeat constructor; by intros [].
Qed.

Lemma notice_in_notices cfg rs d p src m :
  Notice d p src m ∈ notices cfg rs → p ∈ List.map target rs.
Proof.
  intros Hin. apply list_elem_of_In, in_map_iff in Hin as ([[t src'] m'] & [= _ -> _ _] & Hin).
  apply list_elem_of_In, in_map_iff. by exists (p, src', m').
Qed.

(** The claim of C8 as it is worded: every target the run decided on,
    matched or unmatched, has a per-file line on the console. *)
Definition line_for_every_target (cfg : config) (env : environment)
    (fs0 : filesystem) : Prop :=
  let s := (run cfg env fs0).2 in
  ∀ t, t ∈ recorded s → ∃ d src m, Notice d t src m ∈ stdout s.

(** C8, amended.  The console shows, in the order of the replacements
    list, one line per matched target, tagged dry or live as the flag says
    and carrying source and method; those lines come before everything
    else the run prints, which is the summary when the run ends normally;
    no target is replaced twice, and an unmatched target gets no per-file
    line. *)
Theorem one_notice_per_replacement (cfg : config) (env : environment)
    (fs0 : filesystem) :
  let r := (run cfg env fs0).1 in
  let s := (run cfg env fs0).2 in
  ∃ tail,
    stdout s = notices cfg (replacements s) ++ tail
    ∧ Forall (fun l => ¬ is_notice l) tail
    ∧ tail = match r with
             | inr _ => summary_lines cfg (take_backup_root cfg env)
                          (gather (walked env)) (replacements s) (unmatched s)
             | inl _ => []
             end
    ∧ NoDup (List.map target (replacements s))
    ∧ ∀ p d src m, p ∈ unmatched s → Notice d p src m ∉ stdout s.
Proof.
  intros r s. subst r s. destruct (run cfg env fs0) as [r s] eqn:Hrun. simpl.
  apply run_final in Hrun as (s1 & Hfin & ->).
  destruct Hfin as [_ _ _ Hnd _ _ Hout]. unfold recorded in Hnd.
  apply NoDup_app in Hnd as (Hnd & Hdisj & _).
  set (tail := match r with
               | inr _ => summary_lines cfg (take_backup_root cfg env)
                            (gather (walked env)) (replacements s1) (unmatched s1)
               | inl _ => []
               end).
  assert (Forall (fun l => ¬ is_notice l) tail) as Htail.
  { unfold tail. destruct r; [constructor|apply summary_no_notice]. }
  exists tail. simpl. split_and!; [by rewrite Hout|done|done|done|].
  intros p d src m Hp [Hin|Hin]%elem_of_app.
  - rewrite Hout in Hin. apply notice_in_notices in Hin. by apply (Hdisj p).
  - rewrite Forall_forall in Htail. by apply (Htail _ Hin).
Qed.

(** ** Entries that are not targets *)

(** C10.  An entry of the file system the run began with that is not an
    image file directly inside a first-level subfolder of the target root
    (a file or anything else at the root, a non-file inside a subfolder, a
    subfolder file without an image extension) and does not lie two levels
    or more below this run's backup directory is left as it was: it is in
    neither list of the report, nothing is copied onto it, and it is never
    copied anywhere but, as a matched source, onto a target. *)
Theorem non_targets_untouched (cfg : config) (env : environment)
    (fs0 : filesystem) (q : path) :
  let s := (run cfg env fs0).2 in
  is_Some (fs0 !! q) →
  ¬ is_target cfg fs0 q →
  ¬ deep cfg env q →
  fs s !! q = fs0 !! q
  ∧ (q ∉ List.map target (replacements s))
  ∧ (q ∉ unmatched s)
  ∧ (∀ x, Copy2 x q ∉ oplog s)
  ∧ (∀ y, Copy2 q y ∈ oplog s → is_target cfg fs0 y).
Proof.
  intros s [e He] Hnt Hnd. subst s.
  destruct (run cfg env fs0) as [r s] eqn:Hrun. simpl.
  apply run_final in Hrun as (s1 & Hfin & ->).
  destruct Hfin as [Hfs _ Hrec _ Hops _ _]. simpl.
  rewrite Forall_forall in Hrec. split_and!.
  - destruct (Hfs q) as [E|[(E & _)|[(Ht & _)|(Hd & _)]]]; try done. congruence.
  - intros Hin. apply Hnt, Hrec. unfold recorded. apply elem_of_app. by left.
  - intros Hin. apply Hnt, Hrec. unfold recorded. apply elem_of_app. by right.
  - intros x Hin. destruct (Hops x q Hin) as [[_ ?]|?]; done.
  - intros y Hin. destruct (Hops q y Hin) as [[? _]|?]; done.
Qed.

(** ** Dry run against live run *)

Definition with_dry_run (b : bool) (cfg : config) : config :=
  {| WEBSITE_FOLDER := WEBSITE_FOLDER cfg;
     ASSETS_IMAGES := ASSETS_IMAGES cfg;
     DRY_RUN := b;
     MAKE_BACKUP := MAKE_BACKUP cfg;
     FUZZY_CUTOFF := FUZZY_CUTOFF cfg |}.

Lemma StronglySorted_sublist {A} (R : relation A) (l1 l2 : list A) :
  l1 `sublist_of` l2 → StronglySorted R l2 → StronglySorted R l1.
Proof.
  induction 1 as [|x l1 l2 Hs IH|x l1 l2 Hs IH]; [done|..].
  - intros [Hall Hss]%StronglySorted_cons. apply StronglySorted_cons.
    split; [|by apply IH]. rewrite Forall_forall in *.
    intros y Hy. apply Hall. by eapply elem_of_sublist.
  - intros [_ Hss]%StronglySorted_cons. by apply IH.
Qed.

(** Sorting a part of a list without repetition gives a sublist of the
    sorted whole. *)
Lemma sorted_sublist (l1 l2 : list string) :
  NoDup l1 → NoDup l2 → (∀ x, x ∈ l1 → x ∈ l2) →
  sorted l1 `sublist_of` sorted l2.
Proof.
  intros Hnd1 Hnd2 Hsub.
  assert (sorted l1 = filter (fun x => x ∈ l1) (sorted l2)) as ->;
    [|apply sublist_filter].
  apply (StronglySorted_unique String.le).
  - apply StronglySorted_merge_sort; apply _.
  - eapply StronglySorted_sublist; [apply sublist_filter|].
    apply StronglySorted_merge_sort; apply _.
  - apply NoDup_Permutation.
    + by apply sorted_NoDup.
    + by apply NoDup_filter, sorted_NoDup.
    + intros x. rewrite list_elem_of_filter, !sorted_elem. split; [auto|tauto].
Qed.

Section dry_and_live.
Context (cfg : config) (env : environment) (fs0 : filesystem).

(** The dry run and the live run at the same point of the two loops. *)
Definition in_step (sd sl : state) : Prop :=
  replacements sd = replacements sl
  ∧ unmatched sd = unmatched sl
  ∧ fs sd = fs0
  ∧ fs_inv (with_dry_run false cfg) env fs0 (fs sl)
  ∧ stdout sd = notices (with_dry_run true cfg) (replacements sd)
  ∧ stdout sl = notices (with_dry_run false cfg) (replacements sl).

Lemma in_step_logged sd sl opsd opsl :
  in_step sd sl → in_step (logged opsd sd) (logged opsl sl).
Proof. by intros (? & ? & ? & ? & ? & ?). Qed.

Lemma transfer_dry broot t src fss :
  transfer (with_dry_run true cfg) broot t src fss = ([], fss, inr tt).
Proof.
  unfold transfer, backup_effect, replace_effect. simpl.
  by rewrite andb_false_r.
Qed.

Lemma process_file_in_step idx sub n sd sl sl' :
  isdir fs0 (ASSETS_IMAGES cfg ++ [sub]) = true →
  in_step sd sl →
  process_file (with_dry_run false cfg) idx (take_backup_root cfg env)
               (ASSETS_IMAGES cfg ++ [sub]) n sl = (inr tt, sl') →
  ∃ sd', process_file (with_dry_run true cfg) idx (take_backup_root cfg env)
                      (ASSETS_IMAGES cfg ++ [sub]) n sd = (inr tt, sd')
         ∧ in_step sd' sl'.
Proof.
  intros Hsub (Hrs & Hus & Hfd & Hfl & Hod & Hol). rewrite !process_file_eq.
  unfold join.
  rewrite <-!app_assoc. simpl.
  pose proof (fs_inv_isfile (with_dry_run false cfg) env fs0 (fs sl) sub n Hfl) as Hf.
  simpl in Hf. rewrite Hf, Hfd.
  set (t := ASSETS_IMAGES cfg ++ [sub; n]).
  destruct (isfile fs0 t) eqn:Hft; simpl.
  2:{ intros [= <-]. eexists. split; [done|]. by apply in_step_logged. }
  destruct (is_image n) eqn:Hi; simpl.
  2:{ intros [= <-]. eexists. split; [done|]. by apply in_step_logged. }
  assert (is_target (with_dry_run false cfg) fs0 t) as Ht by by exists sub, n.
  destruct (match_target idx (FUZZY_CUTOFF cfg) n) as [e|[[src m]|]]; [done|..].
  - rewrite transfer_dry.
    destruct (transfer (with_dry_run false cfg) _ t src (fs sl))
      as [[ops fs'] r'] eqn:Htr.
    destruct (transfer_inv (with_dry_run false cfg) env fs0 t src (fs sl) ops fs' r'
                Ht Hfl Htr) as (Hfs' & _).
    destruct r' as [e|[]]; [done|]. intros [= <-].
    eexists. split; [done|]. split_and!; simpl; [by rewrite Hrs|done..| |].
    + unfold notices. rewrite map_app. simpl. by rewrite Hod.
    + unfold notices. rewrite map_app. simpl. by rewrite Hol.
  - intros [= <-]. eexists. split; [done|].
    split_and!; simpl; [done|by rewrite Hus|done..].
Qed.

Lemma for_each_in_step idx sub (Ld Ll : list string) sd sl sl' :
  isdir fs0 (ASSETS_IMAGES cfg ++ [sub]) = true →
  Ld `sublist_of` Ll → NoDup Ll →
  (∀ n, n ∈ Ll → n ∉ Ld → isfile fs0 (ASSETS_IMAGES cfg ++ [sub; n]) = false) →
  in_step sd sl →
  for_each Ll (process_file (with_dry_run false cfg) idx (take_backup_root cfg env)
                            (ASSETS_IMAGES cfg ++ [sub])) sl = (inr tt, sl') →
  ∃ sd', for_each Ld (process_file (with_dry_run true cfg) idx
                        (take_backup_root cfg env) (ASSETS_IMAGES cfg ++ [sub])) sd
         = (inr tt, sd')
         ∧ in_step sd' sl'.
Proof.
  intros Hsub Hsl. revert sd sl.
  induction Hsl as [|x l1 l2 Hs IH|x l1 l2 Hs IH]; intros sd sl Hnd Hout Hstep.
  - intros [= <-]. by exists sd.
  - apply NoDup_cons in Hnd as [Hx Hnd]. simpl. unfold mbind, M_bind.
    destruct (process_file (with_dry_run false cfg) _ _ _ x sl)
      as [[e|[]] sl1] eqn:Hl; [done|].
    destruct (process_file_in_step idx sub x sd sl sl1 Hsub Hstep Hl)
      as (sd1 & -> & Hstep1).
    apply IH; [done| |done]. intros n Hn Hn'. apply Hout; [by right|].
    intros [->|?]%elem_of_cons; done.
  - apply NoDup_cons in Hnd as [Hx Hnd]. simpl. unfold mbind at 1, M_bind at 1.
    assert (x ∉ l1) as Hx1 by (intros ?; by eapply Hx, elem_of_sublist).
    pose proof (Hout x (list_elem_of_here _ _) Hx1) as Hnf.
    rewrite process_file_eq. unfold join. rewrite <-app_assoc. simpl.
    pose proof Hstep as (Hrs & Hus & Hfd & Hfl & Hod & Hol).
    pose proof (fs_inv_isfile (with_dry_run false cfg) env fs0 (fs sl) sub x Hfl) as Hf.
    simpl in Hf. rewrite Hf, Hnf. simpl.
    apply IH; [done| |by apply (in_step_logged sd sl [])].
    intros n Hn Hn'. apply Hout; [by right|done].
Qed.

Lemma process_sub_in_step idx sub sd sl sl' :
  is_Some (fs0 !! (ASSETS_IMAGES cfg ++ [sub])) →
  in_step sd sl →
  process_sub (with_dry_run false cfg) idx (take_backup_root cfg env) sub sl
    = (inr tt, sl') →
  ∃ sd', process_sub (with_dry_run true cfg) idx (take_backup_root cfg env) sub sd
         = (inr tt, sd')
         ∧ in_step sd' sl'.
Proof.
  intros Hex Hstep. rewrite !process_sub_eq. cbv zeta. unfold join. simpl.
  pose proof Hstep as (Hrs & Hus & Hfd & Hfl & Hod & Hol).
  pose proof (fs_inv_isdir (with_dry_run false cfg) env fs0 (fs sl) sub Hfl Hex) as Hd.
  simpl in Hd. rewrite Hd, Hfd.
  set (subpath := ASSETS_IMAGES cfg ++ [sub]) in *.
  destruct (isdir fs0 subpath) eqn:Hdir.
  2:{ intros [= <-]. eexists. split; [done|]. by apply in_step_logged. }
  destruct (listdir (fs sl) subpath) as [e|namesL] eqn:HL; [done|].
  destruct (listdir fs0 subpath) as [e|namesD] eqn:HD.
  { unfold listdir in HD. by rewrite Hdir in HD. }
  apply listdir_spec in HL as (_ & HndL & HL), HD as (_ & HndD & HD).
  assert (∀ n, n ∈ namesD → n ∈ namesL) as Hsub.
  { intros n Hn. apply (proj1 (HD n)) in Hn as [e He]. apply (proj2 (HL n)).
    destruct (Hfl (subpath ++ [n])) as [E|[(E & _)|[(_ & d & E)|(_ & d & E)]]].
    - by rewrite E, He.
    - congruence.
    - by rewrite E.
    - by rewrite E. }
  intros Hrun.
  eapply (for_each_in_step idx sub (sorted namesD) (sorted namesL)); [done|..|done].
  - by apply sorted_sublist.
  - by apply sorted_NoDup.
  - intros n Hn Hn'. unfold isfile.
    assert (fs0 !! (ASSETS_IMAGES cfg ++ [sub; n]) = None) as ->; [|done].
    apply eq_None_not_Some. intros Hs. apply Hn'.
    apply (proj2 (sorted_elem _ _)), (proj2 (HD n)).
    unfold subpath. by rewrite <-app_assoc.
  - by apply in_step_logged.
Qed.

Lemma subs_in_step idx (subs : list string) sd sl sl' :
  (∀ sub, sub ∈ subs → is_Some (fs0 !! (ASSETS_IMAGES cfg ++ [sub]))) →
  in_step sd sl →
  for_each subs (process_sub (with_dry_run false cfg) idx (take_backup_root cfg env)) sl
    = (inr tt, sl') →
  ∃ sd', for_each subs (process_sub (with_dry_run true cfg) idx
                          (take_backup_root cfg env)) sd = (inr tt, sd')
         ∧ in_step sd' sl'.
Proof.
  revert sd sl. induction subs as [|sub subs IH]; intros sd sl Hex Hstep.
  - intros [= <-]. by exists sd.
  - simpl. unfold mbind, M_bind.
    destruct (process_sub (with_dry_run false cfg) _ _ sub sl)
      as [[e|[]] sl1] eqn:Hl; [done|].
    destruct (process_sub_in_step idx sub sd sl sl1) as (sd1 & -> & Hstep1);
      [apply Hex; by left|done..|].
    apply IH; [|done]. intros sub' Hin. apply Hex. by right.
Qed.
End dry_and_live.

(** C4.  A dry run leaves every entry of the file system as it was and
    makes no call that could change one; and when the live run over the
    same file system, environment and remaining configuration runs to its
    end, the dry run does too, with the same replacements list, the same
    unmatched list and the same console output, the per-file lines
    differing in their dry/live tag only. *)
Theorem dry_run_changes_nothing (cfg : config) (env : environment)
    (fs0 : filesystem) :
  let dry := run (with_dry_run true cfg) env fs0 in
  let live := run (with_dry_run false cfg) env fs0 in
  fs dry.2 = fs0
  ∧ Forall (fun op => ¬ is_mutation op) (oplog dry.2)
  ∧ (live.1 = inr tt →
       dry.1 = inr tt
       ∧ replacements dry.2 = replacements live.2
       ∧ unmatched dry.2 = unmatched live.2
       ∧ ∃ summary,
           stdout dry.2
             = notices (with_dry_run true cfg) (replacements live.2) ++ summary
           ∧ stdout live.2
             = notices (with_dry_run false cfg) (replacements live.2) ++ summary).
Proof.
  intros dry live. split_and!.
  - clear live. subst dry.
    destruct (run (with_dry_run true cfg) env fs0) as [r s] eqn:Hrun.
    apply run_final in Hrun as (s1 & Hfin & ->). simpl.
    by destruct (fi_dry _ _ _ _ Hfin eq_refl).
  - clear live. subst dry.
    destruct (run (with_dry_run true cfg) env fs0) as [r s] eqn:Hrun.
    apply run_final in Hrun as (s1 & Hfin & ->). simpl.
    by destruct (fi_dry _ _ _ _ Hfin eq_refl).
  - subst dry live. rewrite !run_eq. simpl.
    destruct (gather (walked env)) as [|f files] eqn:Hg; [done|].
    destruct (listdir fs0 (ASSETS_IMAGES cfg)) as [e|subs] eqn:Hl; [done|].
    apply listdir_spec in Hl as (_ & _ & Hsubs).
    set (s0 := logged [Walk (WEBSITE_FOLDER cfg); Listdir (ASSETS_IMAGES cfg)]
                      (initial fs0)).
    destruct (for_each (sorted subs)
                (process_sub (with_dry_run false cfg) (build_index (f :: files))
                             (take_backup_root (with_dry_run false cfg) env)) s0)
      as [[e|[]] sl] eqn:Hlive; [done|].
    intros _.
    destruct (subs_in_step cfg env fs0 (build_index (f :: files)) (sorted subs)
                s0 s0 sl) as (sd & Hdry & Hstep); [| |done|].
    + intros sub Hin. apply (proj1 (sorted_elem _ _)) in Hin.
      by apply (proj1 (Hsubs sub)).
    + split_and!; try done. apply fs_inv_initial.
    + change (take_backup_root (with_dry_run true cfg) env)
        with (take_backup_root cfg env).
      rewrite Hdry. simpl. destruct Hstep as (Hrs & Hus & _ & _ & Hod & Hol).
      split_and!; [done..|].
      eexists. rewrite Hod, Hol, Hrs, Hus. split; reflexivity.
Qed.

(** ** Where matched sources come from *)

Definition index_within (files : list path) (idx : index) : Prop :=
  (∀ k p, (k, p) ∈ by_fullname idx → p ∈ files)
  ∧ (∀ k bucket p, (k, bucket) ∈ by_stem idx → p ∈ bucket → p ∈ files).

Lemma setdefault_elem {V} k (v : V) d k' v' :
  (k', v') ∈ setdefault k v d → (k', v') ∈ d ∨ (k', v') = (k, v).
Proof.
  induction d as [|[k0 v0] d IH]; simpl.
  - intros ->%list_elem_of_singleton. by right.
  - destruct (String.eqb k k0); [by left|].
    intros [->|Hin]%elem_of_cons; [left; left|].
    destruct (IH Hin) as [?|?]; [left; by right|by right].
Qed.

Lemma dict_alter_elem {V} (f : V → V) k d k' v' :
  (k', v') ∈ dict_alter f k d → (k', v') ∈ d ∨ ∃ v, (k', v) ∈ d ∧ v' = f v.
Proof.
  induction d as [|[k0 v0] d IH]; simpl; [by left|].
  destruct (String.eqb k k0).
  - intros [[= -> ->]|Hin]%elem_of_cons; [right; exists v0; split; [left|done]|].
    left. by right.
  - intros [->|Hin]%elem_of_cons; [left; left|].
    destruct (IH Hin) as [?|(v & ? & ?)]; [left; by right|].
    right. exists v. split; [by right|done].
Qed.

Lemma index_add_within files idx p :
  p ∈ files → index_within files idx → index_within files (index_add idx p).
Proof.
  intros Hp [Hfull Hstem]. split; simpl.
  - intros k p' [Hin|[= -> ->]]%setdefault_elem; [by eapply Hfull|done].
  - intros k bucket p' Hin Hp'.
    apply dict_alter_elem in Hin as [Hin|(b & Hin & ->)].
    + apply setdefault_elem in Hin as [Hin|[= -> ->]]; [by eapply Hstem|].
      by apply elem_of_nil in Hp'.
    + apply elem_of_app in Hp' as [Hp' | ->%list_elem_of_singleton]; [|done].
      apply setdefault_elem in Hin as [Hin|[= -> ->]]; [by eapply Hstem|].
      by apply elem_of_nil in Hp'.
Qed.

Lemma build_index_within files : index_within files (build_index files).
Proof.
  unfold build_index.
  assert (∀ l idx, (∀ p, p ∈ l → p ∈ files) → index_within files idx →
                   index_within files (fold_left index_add l idx)) as H.
  { induction l as [|p l IH]; intros idx Hl Hidx; simpl; [done|].
    apply IH; [intros p' ?; apply Hl; by right|].
    apply index_add_within; [apply Hl; left|done]. }
  apply H; [done|]. split; intros; by apply elem_of_nil in H0.
Qed.

Lemma first_path_elem bucket p : first_path bucket = inr p → p ∈ bucket.
Proof. destruct bucket; [done|]. intros [= ->]. left. Qed.

Lemma match_target_source files cutoff n src m :
  match_target (build_index files) cutoff n = inr (Some (src, m)) → src ∈ files.
Proof.
  destruct (build_index_within files) as [Hfull Hstem].
  set (idx := build_index files) in *. unfold match_target.
  set (tnorm := normalize_stem (splitext n).1).
  unfold tier_exact.
  destruct (dict_get (lower n) (by_fullname idx)) as [p|] eqn:He; simpl.
  { intros [= -> _]. eapply Hfull. by apply dict_get_elem. }
  unfold tier_stem.
  destruct (dict_get tnorm (by_stem idx)) as [bucket|] eqn:Hs; simpl.
  { destruct (first_path bucket) as [e|p] eqn:Hp; simpl; [done|].
    intros [= -> _]. eapply Hstem; [by apply dict_get_elem|].
    by apply first_path_elem. }
  unfold tier_fuzzy.
  assert (∀ c, tier_partial idx tnorm = inr (Some (src, m)) ∨ c = Some (src, m) →
              (c = Some (src, m) → src ∈ files) → src ∈ files) as Hpart.
  { intros c [Hp|Hc] Hcc; [|by apply Hcc]. unfold tier_partial in Hp.
    destruct (find_partial tnorm (by_stem idx)) as [[w paths]|] eqn:Hf; simpl in Hp;
      [|done].
    destruct (first_path paths) as [e|p] eqn:Hfp; simpl in Hp; [done|].
    injection Hp as -> _. eapply Hstem; [by eapply find_partial_elem|].
    by apply first_path_elem. }
  destruct (difflib.get_close_matches tnorm (keys (by_stem idx)) cutoff)
    as [[|k rest]|]; simpl; [| |done].
  - destruct (tier_partial idx tnorm) as [e|c] eqn:Hp; simpl; [done|].
    intros [= ->]. apply (Hpart None); [by left|done].
  - destruct (dict_get k (by_stem idx)) as [bucket|] eqn:Hk; simpl; [|done].
    destruct (first_path bucket) as [e|p] eqn:Hp; simpl; [done|].
    intros [= -> _]. eapply Hstem; [by apply dict_get_elem|].
    by apply first_path_elem.
Qed.

(** ** Backup, then overwrite *)

Section backup_fidelity.
Context (cfg : config) (env : environment) (fs0 : filesystem).
Hypothesis Hlive : DRY_RUN cfg = false.
Hypothesis Hbackup : MAKE_BACKUP cfg = true.
Hypothesis Hfresh : ∀ q,
  (ASSETS_IMAGES cfg ++ ["_backup_" +:+ now env]) `prefix_of` q → fs0 !! q = None.
Hypothesis Hapart : ∀ p,
  p ∈ gather (walked env) → ¬ ASSETS_IMAGES cfg `prefix_of` p.

(** Every replaced target holds what its source held at the start and
    still holds, and its backup holds what the target held at the start. *)
Definition contents_ok (rs : list match_result) (fss : filesystem) : Prop :=
  ∀ t src m, (t, src, m) ∈ rs →
    ∃ dt ds, src ∈ gather (walked env)
             ∧ fs0 !! t = Some (File dt) ∧ fs0 !! src = Some (File ds)
             ∧ fss !! t = Some (File ds)
             ∧ fss !! backup_path cfg env t = Some (File dt)
             ∧ fss !! src = Some (File ds).

Definition untouched (rs : list match_result) (fss : filesystem) : Prop :=
  ∀ q, is_target cfg fs0 q → q ∉ List.map target rs → fss !! q = fs0 !! q.

Lemma target_under q : is_target cfg fs0 q → ASSETS_IMAGES cfg `prefix_of` q.
Proof. intros (sub & n & -> & _). by apply prefix_app_r. Qed.

Lemma backup_under t :
  is_target cfg fs0 t →
  (ASSETS_IMAGES cfg ++ ["_backup_" +:+ now env]) `prefix_of` backup_path cfg env t.
Proof.
  intros (sub & n & -> & _). rewrite backup_path_target.
  exists [sub; n]. by rewrite <-app_assoc.
Qed.

Lemma backup_length t :
  is_target cfg fs0 t →
  length (backup_path cfg env t) = length (ASSETS_IMAGES cfg) + 3.
Proof.
  intros (sub & n & -> & _). rewrite backup_path_target, length_app. simpl. lia.
Qed.

Lemma target_ne_backup t t' :
  is_target cfg fs0 t → is_target cfg fs0 t' → t' ≠ backup_path cfg env t.
Proof.
  intros Ht Ht' ->. apply backup_length in Ht. apply target_length in Ht'. lia.
Qed.

Lemma backup_path_inj t t' :
  is_target cfg fs0 t → is_target cfg fs0 t' →
  backup_path cfg env t = backup_path cfg env t' → t = t'.
Proof.
  intros (sub & n & -> & _) (sub' & n' & -> & _). rewrite !backup_path_target.
  by intros [= -> ->]%app_inv_head.
Qed.

Lemma backup_not_dir fss t :
  fs_inv cfg env fs0 fss → is_target cfg fs0 t →
  isdir fss (backup_path cfg env t) = false.
Proof.
  intros Hinv Ht. pose proof (backup_length t Ht) as Hlen.
  unfold isdir.
  destruct (Hinv (backup_path cfg env t))
    as [E|[(_ & _ & Hl)|[(Ht' & _)|(_ & d & E)]]].
  - rewrite E, Hfresh; [done|]. by apply backup_under.
  - lia.
  - apply target_length in Ht'. lia.
  - by rewrite E.
Qed.

Lemma source_was_file fss src ds :
  fs_inv cfg env fs0 fss → ¬ ASSETS_IMAGES cfg `prefix_of` src →
  fss !! src = Some (File ds) → fs0 !! src = Some (File ds).
Proof.
  intros Hinv Hout Hs.
  destruct (Hinv src) as [E|[(_ & E & _)|[(Ht & _)|(Hd & _)]]].
  - congruence.
  - congruence.
  - destruct Hout. by apply target_under.
  - destruct Hout. destruct Hd as (y & z & rest & ->). by apply prefix_app_r.
Qed.

Lemma grows_keeps (name : path) (fss fs1 : filesystem) (q : path) e :
  grows_by_dirs name fss fs1 → fss !! q = Some e → fs1 !! q = Some e.
Proof. intros Hg Hq. destruct (Hg q) as [E|(E & _)]; congruence. Qed.

Lemma grows_file (name : path) (fss fs1 : filesystem) (q : path) d :
  grows_by_dirs name fss fs1 → fs1 !! q = Some (File d) → fss !! q = Some (File d).
Proof. intros Hg Hq. destruct (Hg q) as [E|(_ & E & _)]; congruence. Qed.


Lemma transfer_contents (pending : path → Prop) s sub n src m ops fs' r :
  is_target cfg fs0 (ASSETS_IMAGES cfg ++ [sub; n]) →
  pending (ASSETS_IMAGES cfg ++ [sub; n]) →
  loop_inv cfg env fs0 pending s →
  contents_ok (replacements s) (fs s) ∧ untouched (replacements s) (fs s) →
  src ∈ gather (walked env) →
  transfer cfg (take_backup_root cfg env) (ASSETS_IMAGES cfg ++ [sub; n]) src (fs s)
    = (ops, fs', r) →
  match r with
  | inr _ =>
      contents_ok (replacements s ++ [(ASSETS_IMAGES cfg ++ [sub; n], src, m)]) fs'
      ∧ untouched (replacements s ++ [(ASSETS_IMAGES cfg ++ [sub; n], src, m)]) fs'
  | inl _ => contents_ok (replacements s) fs'
  end.
Proof.
  set (t := ASSETS_IMAGES cfg ++ [sub; n]).
  intros Ht Hpt Hinv [Hc Hu] Hsrc.
  pose proof (fi_fs _ _ _ _ (li_final _ _ _ _ _ Hinv)) as Hfs.
  assert (t ∉ List.map target (replacements s)) as Hnew.
  { intros Hin%target_in_recorded.
    pose proof (li_pending _ _ _ _ _ Hinv) as Hp. rewrite Forall_forall in Hp.
    by apply (Hp t). }
  assert (∀ t' src' m', (t', src', m') ∈ replacements s →
                        is_target cfg fs0 t' ∧ t' ≠ t) as Hold.
  { intros t' src' m' Hin. split.
    - pose proof (fi_rec _ _ _ _ (li_final _ _ _ _ _ Hinv)) as Hr.
      rewrite Forall_forall in Hr. apply Hr. by eapply recorded_target_in.
    - intros ->. apply Hnew. apply list_elem_of_In, in_map_iff.
      exists (t, src', m'). split; [done|]. by apply list_elem_of_In. }
  pose proof (Hapart src Hsrc) as Hout.
  unfold transfer, backup_effect, replace_effect, take_backup_root.
  rewrite Hbackup, Hlive. simpl. fold (backup_path cfg env t).
  set (b := backup_path cfg env t).
  assert (t ≠ b) as Htb by by apply target_ne_backup.
  assert (src ≠ b) as Hsb.
  { intros ->. apply Hout. etrans; [|by apply backup_under]. by apply prefix_app_r. }
  destruct (makedirs (dirname b) (fs s)) as [e|fs1] eqn:Hm.
  { by intros [= <- <- <-]. }
  apply makedirs_grows in Hm.
  assert (fs_inv cfg env fs0 fs1) as Hinv1.
  { eapply fs_inv_grows; [|done..]. unfold b, t. rewrite backup_dir_target.
    rewrite length_app. simpl. lia. }
  assert (contents_ok (replacements s) fs1) as Hc1.
  { intros t' src' m' Hin.
    destruct (Hc t' src' m' Hin) as (dt & ds & ? & ? & ? & ? & ? & ?).
    exists dt, ds. split_and!; [done..| | |]; by eapply grows_keeps. }
  destruct (copy2 t b fs1) as [e|fs2] eqn:Hcp.
  { by intros [= <- <- <-]. }
  apply copy2_spec in Hcp as (dt & Htd & _ & _ & _ & ->).
  pose proof (backup_not_dir fs1 t Hinv1 Ht) as Hbd. fold b in Hbd.
  rewrite Hbd.
  assert (fs0 !! t = Some (File dt)) as Ht0.
  { rewrite <-(Hu t Ht Hnew). by eapply grows_file. }
  assert (contents_ok (replacements s) (<[b := File dt]> fs1)) as Hc2.
  { intros t' src' m' Hin.
    destruct (Hc1 t' src' m' Hin) as (dt' & ds' & Hs' & ? & ? & ? & ? & ?).
    destruct (Hold t' src' m' Hin) as [Ht' Hne].
    exists dt', ds'. split_and!; [done..| | |].
    - rewrite lookup_insert_ne; [done|]. intros E. by apply (target_ne_backup t t').
    - rewrite lookup_insert_ne; [done|]. intros E. apply Hne.
      by apply backup_path_inj.
    - rewrite lookup_insert_ne; [done|]. intros E. apply (Hapart src' Hs').
      rewrite <-E. etrans; [|by apply backup_under]. by apply prefix_app_r. }
  destruct (copy2 src t (<[b := File dt]> fs1)) as [e|fs3] eqn:Hcp2.
  { by intros [= <- <- <-]. }
  apply copy2_spec in Hcp2 as (ds & Hsd & Hne & _ & _ & ->).
  assert (isdir (<[b := File dt]> fs1) t = false) as Hnd.
  { unfold isdir. rewrite lookup_insert_ne by done. by rewrite Htd. }
  rewrite Hnd in *.
  assert (fs0 !! src = Some (File ds)) as Hs0.
  { rewrite lookup_insert_ne in Hsd by done.
    apply (source_was_file (fs s) src ds Hfs Hout).
    eapply grows_file; [exact Hm|exact Hsd]. }
  intros [= <- <- <-]. split.
  - intros t' src' m' [Hin|[= -> -> ->]%list_elem_of_singleton]%elem_of_app.
    + destruct (Hc2 t' src' m' Hin) as (dt' & ds' & Hs' & ? & ? & ? & ? & ?).
      destruct (Hold t' src' m' Hin) as [Ht' Hne'].
      exists dt', ds'. split_and!; [done..| | |].
      * rewrite lookup_insert_ne; done.
      * rewrite lookup_insert_ne; [done|]. by apply target_ne_backup.
      * rewrite lookup_insert_ne; [done|]. intros E. apply (Hapart src' Hs').
        rewrite <-E. by apply target_under.
    + exists dt, ds. split_and!; [done..| | |].
      * by rewrite lookup_insert_eq.
      * rewrite lookup_insert_ne by done. by rewrite lookup_insert_eq.
      * rewrite lookup_insert_ne by done. done.
  - intros q Hq Hnin. rewrite map_app in Hnin. simpl in Hnin.
    assert (q ≠ t) as Hqt.
    { intros ->. apply Hnin, elem_of_app. right. left. }
    assert (q ∉ List.map target (replacements s)) as Hq'.
    { intros ?. apply Hnin, elem_of_app. by left. }
    rewrite lookup_insert_ne by done.
    rewrite lookup_insert_ne; [|intros E; by apply (target_ne_backup t q)].
    destruct (target_file cfg fs0 q Hq) as [d Hd].
    rewrite Hd. eapply grows_keeps; [done|]. by rewrite (Hu q Hq Hq').
Qed.

Lemma run_contents r s :
  run cfg env fs0 = (r, s) →
  final_inv cfg env fs0
    (State (fs s) (replacements s) (unmatched s)
           (notices cfg (replacements s)) (oplog s))
  ∧ contents_ok (replacements s) (fs s).
Proof.
  intros Hrun.
  destruct (run_carried cfg env fs0
              (fun s => contents_ok (replacements s) (fs s)
                        ∧ untouched (replacements s) (fs s))
              (fun s => contents_ok (replacements s) (fs s)) r s)
    as (s1 & Hfin & -> & HJ & Hearly); try done.
  - intros pending s0 sub n src m ops fs' r' Ht Hpt Hinv HJ Hm Htr.
    apply match_target_source in Hm.
    by apply (transfer_contents pending s0 sub n src m ops fs' r').
  - by intros s0 n e t [? _] _.
  - split; [by intros t src m ?%elem_of_nil|done].
  - simpl. split.
    + destruct Hfin as [? ? ? ? ? ? Hout]. split; simpl; try done.
    + destruct (gather (walked env)) as [|f files] eqn:Hg.
      { destruct Hearly as [ops ->]; [by left|]. by intros t src m ?%elem_of_nil. }
      destruct (isdir fs0 (ASSETS_IMAGES cfg)) eqn:Hd.
      2:{ destruct Hearly as [ops ->]; [by right|]. by intros t src m ?%elem_of_nil. }
      specialize (HJ ltac:(done) eq_refl). destruct r; [done|by destruct HJ].
Qed.
End backup_fidelity.

(** C3.  In a live run with backups, begun on a file system where this
    run's backup directory does not exist yet and whose reference files lie
    outside the target tree: every replaced target is a file two levels
    below the target root; the run creates the mirrored directory under the
    backup root, copies the target to the mirrored path and only then
    copies the source onto the target, these three calls following one
    another and no other call copying anything onto that target; at the
    end the backup holds the bytes the target had when the run began, the
    target holds the bytes of the source, and the source is unchanged. *)
Theorem backup_before_overwrite (cfg : config) (env : environment)
    (fs0 : filesystem) (t src : path) (m : method) :
  let s := (run cfg env fs0).2 in
  DRY_RUN cfg = false →
  MAKE_BACKUP cfg = true →
  (∀ q, (ASSETS_IMAGES cfg ++ ["_backup_" +:+ now env]) `prefix_of` q →
        fs0 !! q = None) →
  (∀ p, p ∈ gather (walked env) → ¬ ASSETS_IMAGES cfg `prefix_of` p) →
  (t, src, m) ∈ replacements s →
  ∃ sub n dt ds l1 l2,
    t = ASSETS_IMAGES cfg ++ [sub; n]
    ∧ backup_path cfg env t = ASSETS_IMAGES cfg ++ ["_backup_" +:+ now env; sub; n]
    ∧ fs0 !! t = Some (File dt)
    ∧ fs0 !! src = Some (File ds)
    ∧ oplog s = l1 ++ [Makedirs (dirname (backup_path cfg env t));
                       Copy2 t (backup_path cfg env t);
                       Copy2 src t] ++ l2
    ∧ (∀ x, Copy2 x t ∉ l1) ∧ (∀ x, Copy2 x t ∉ l2)
    ∧ fs s !! backup_path cfg env t = Some (File dt)
    ∧ fs s !! t = Some (File ds)
    ∧ fs s !! src = Some (File ds).
Proof.
  intros s Hlive Hbackup Hfresh Hapart Hin. subst s.
  destruct (run cfg env fs0) as [r s] eqn:Hrun. simpl in *.
  destruct (run_contents cfg env fs0 Hlive Hbackup Hfresh Hapart r s Hrun)
    as [Hfin Hc].
  destruct Hfin as [Hfs _ Hrec _ _ Hseq _]. simpl in *.
  destruct (Hc t src m Hin) as (dt & ds & _ & Ht0 & Hs0 & Ht & Hb & Hs).
  destruct (Hseq t src m Hin) as (l1 & l2 & Hlog & Hl1 & Hl2).
  rewrite Forall_forall in Hrec.
  assert (is_target cfg fs0 t) as Htg.
  { apply Hrec. unfold recorded. simpl. apply elem_of_app. left.
    apply list_elem_of_In, in_map_iff. exists (t, src, m).
    split; [done|]. by apply list_elem_of_In. }
  destruct Htg as (sub & n & -> & Htg).
  exists sub, n, dt, ds, l1, l2. split_and!; try done.
  - apply backup_path_target.
  - rewrite Hlog. unfold transfer_ops. by rewrite Hbackup, Hlive.
Qed.

(** ** When the run reaches its end *)

Definition valid_cutoff (cutoff : Q) : bool := Qle_bool 0 cutoff && Qle_bool cutoff 1.

Lemma match_target_returns idx cutoff fname :
  buckets_nonempty (by_stem idx) → valid_cutoff cutoff = true →
  ∃ c, match_target idx cutoff fname = inr c.
Proof.
  intros Hne Hv. unfold match_target.
  set (tnorm := normalize_stem (splitext fname).1).
  destruct (tier_exact idx fname) as [c|] eqn:He; simpl; [by eexists|].
  destruct (dict_get tnorm (by_stem idx)) as [bucket|] eqn:Hg.
  { destruct (tier_stem_hit idx tnorm bucket Hne Hg) as (p & _ & ->).
    simpl. by eexists. }
  rewrite (tier_stem_miss _ _ Hg). simpl.
  assert (∃ c, tier_partial idx tnorm = inr c) as [cp Hcp].
  { destruct (find_partial tnorm (by_stem idx)) as [[w paths]|] eqn:Hf.
    - destruct (tier_partial_hit idx tnorm w paths Hne Hf) as (p & _ & ->).
      by eexists.
    - unfold tier_partial. rewrite Hf. by eexists. }
  destruct (difflib.get_close_matches tnorm (keys (by_stem idx)) cutoff)
    as [[|k rest]|] eqn:Hc.
  - unfold tier_fuzzy. rewrite Hc. simpl. rewrite Hcp. simpl. by eexists.
  - destruct (get_close_matches_elem _ _ _ _ _ Hc) as (Hk & _ & _).
    destruct (tier_fuzzy_hit idx cutoff tnorm k rest Hne Hc Hk) as (b & p & _ & _ & ->).
    simpl. by eexists.
  - unfold difflib.get_close_matches in Hc. unfold valid_cutoff in Hv.
    by rewrite Hv in Hc.
Qed.

Lemma copy2_ok (src dst : path) (fs : filesystem) d :
  fs !! src = Some (File d) →
  isdir fs dst = false →
  src ≠ dst →
  (fs !! dst = None ∨ ∃ old, fs !! dst = Some (File old)) →
  isdir fs (dirname dst) = true →
  copy2 src dst fs = inr (<[dst := File d]> fs).
Proof.
  intros Hs Hd Hne Hdst Hp. unfold copy2. rewrite Hd.
  rewrite bool_decide_eq_false_2 by done. rewrite Hs.
  destruct Hdst as [->|[old ->]]; by rewrite Hp.
Qed.

Lemma dirname_snoc (p : path) x : dirname (p ++ [x]) = p.
Proof. apply removelast_last. Qed.

(** [makedirs] of a directory two levels below an existing one. *)
Lemma makedirs_two (fs : filesystem) (A : path) x y :
  isdir fs A = true →
  (fs !! (A ++ [x]) = None ∨ fs !! (A ++ [x]) = Some Dir) →
  (fs !! (A ++ [x; y]) = None ∨ fs !! (A ++ [x; y]) = Some Dir) →
  ∃ fs', makedirs (A ++ [x; y]) fs = inr fs' ∧ isdir fs' (A ++ [x; y]) = true.
Proof.
  intros HA Hx Hxy. unfold makedirs.
  assert (rev (A ++ [x; y]) = y :: x :: rev A) as ->.
  { by rewrite rev_app_distr. }
  assert (rev (x :: rev A) = A ++ [x]) as Hrx.
  { simpl. by rewrite rev_involutive. }
  assert (rev (y :: x :: rev A) = A ++ [x; y]) as Hrxy.
  { simpl. rewrite rev_involutive, <-app_assoc. done. }
  assert (A ++ [x] ≠ A ++ [x; y]) as Hne.
  { intros [=]%app_inv_head. }
  assert (∃ fs1, makedirs_head (x :: rev A) fs = inr fs1
                 ∧ isdir fs1 (A ++ [x]) = true
                 ∧ fs1 !! (A ++ [x; y]) = fs !! (A ++ [x; y])) as (fs1 & Hh & Hd1 & Hk).
  { unfold makedirs_head. rewrite Hrx. unfold exists_.
    destruct Hx as [Hx|Hx].
    - rewrite bool_decide_eq_false_2 by (rewrite Hx; by intros [? ?]).
      rewrite makedirs_rev_cons.
      assert (makedirs_head (rev A) fs = inr fs) as ->.
      { unfold makedirs_head. destruct (rev A) as [|z zs] eqn:Hr; [done|].
        rewrite <-Hr, rev_involutive. unfold exists_.
        apply isdir_Some in HA. rewrite bool_decide_eq_true_2; [done|].
        by rewrite HA. }
      rewrite Hrx. unfold mkdir. rewrite Hx, dirname_snoc, HA.
      eexists. split; [done|]. split.
      + unfold isdir. by rewrite lookup_insert_eq.
      + by rewrite lookup_insert_ne.
    - rewrite bool_decide_eq_true_2 by (by rewrite Hx).
      exists fs. split; [done|]. split; [by apply isdir_Some|done]. }
  rewrite makedirs_rev_cons, Hh, Hrxy. unfold mkdir.
  change [x; y] with ([x] ++ [y]). rewrite app_assoc, dirname_snoc.
  rewrite <-app_assoc. simpl. rewrite Hk, Hd1.
  destruct Hxy as [Hxy|Hxy]; rewrite Hxy.
  - eexists. split; [done|]. unfold isdir. by rewrite lookup_insert_eq.
  - assert (isdir fs1 (A ++ [x; y]) = true) as Hd.
    { apply isdir_Some. by rewrite Hk. }
    rewrite Hd. by exists fs1.
Qed.

Section run_to_the_end.
Context (cfg : config) (env : environment) (fs0 : filesystem).
Hypothesis Hroot : isdir fs0 (ASSETS_IMAGES cfg) = true.
Hypothesis Hfresh : ∀ q,
  (ASSETS_IMAGES cfg ++ ["_backup_" +:+ now env]) `prefix_of` q → fs0 !! q = None.
Hypothesis Hsources : ∀ p,
  p ∈ gather (walked env) →
  ¬ ASSETS_IMAGES cfg `prefix_of` p ∧ ∃ d, fs0 !! p = Some (File d).

Lemma source_still_file fss src :
  fs_inv cfg env fs0 fss → src ∈ gather (walked env) →
  ∃ d, fss !! src = Some (File d).
Proof.
  intros Hinv [Hout [d Hd]]%Hsources. exists d.
  destruct (Hinv src) as [E|[(E & _)|[(Ht & _)|(Hdp & _)]]].
  - congruence.
  - congruence.
  - destruct Hout. by apply (target_under cfg fs0).
  - destruct Hout. destruct Hdp as (y & z & rest & ->). by apply prefix_app_r.
Qed.

Lemma root_still_dir fss :
  fs_inv cfg env fs0 fss → isdir fss (ASSETS_IMAGES cfg) = true.
Proof.
  intros Hinv. apply isdir_Some in Hroot. apply isdir_Some.
  destruct (Hinv (ASSETS_IMAGES cfg)) as [E|[(E & _)|[(Ht & _)|(Hdp & _)]]].
  - congruence.
  - congruence.
  - apply target_length in Ht. lia.
  - apply deep_length in Hdp. lia.
Qed.

Lemma under_backup_root fss (q : path) :
  fs_inv cfg env fs0 fss →
  (ASSETS_IMAGES cfg ++ ["_backup_" +:+ now env]) `prefix_of` q →
  length q ≤ length (ASSETS_IMAGES cfg) + 2 →
  fss !! q = None ∨ fss !! q = Some Dir.
Proof.
  intros Hinv Hp Hlen. pose proof (Hfresh q Hp) as H0.
  destruct (Hinv q) as [E|[(_ & E & _)|[(Ht & _)|(Hdp & _)]]].
  - left. congruence.
  - by right.
  - destruct (target_file cfg fs0 q Ht) as [d Hd]. congruence.
  - apply deep_length in Hdp. lia.
Qed.

Lemma transfer_succeeds sub n src fss :
  is_target cfg fs0 (ASSETS_IMAGES cfg ++ [sub; n]) →
  fs_inv cfg env fs0 fss →
  src ∈ gather (walked env) →
  ∃ ops fs',
    transfer cfg (take_backup_root cfg env) (ASSETS_IMAGES cfg ++ [sub; n]) src fss
    = (ops, fs', inr tt).
Proof.
  set (t := ASSETS_IMAGES cfg ++ [sub; n]). intros Ht Hinv Hsrc.
  assert (isdir fs0 (ASSETS_IMAGES cfg ++ [sub]) = true) as Hsubdir.
  { destruct Ht as (sub' & n' & Heq & Hd & _). unfold t in Heq.
    apply app_inv_head in Heq. by injection Heq as -> ->. }
  assert (∀ fs1, fs_inv cfg env fs0 fs1 →
            ∃ fs2, copy2 src t fs1 = inr fs2) as Hover.
  { intros fs1 Hinv1.
    destruct (source_still_file fs1 src Hinv1 Hsrc) as [ds Hds].
    destruct (fs_inv_target_file cfg env fs0 fs1 t Hinv1 Ht) as [dt Hdt].
    eexists. apply (copy2_ok src t fs1 ds); [done| | | |].
    - unfold isdir. by rewrite Hdt.
    - intros ->. destruct (Hsources t Hsrc) as [Hout _]. apply Hout.
      by apply (target_under cfg fs0).
    - right. by exists dt.
    - unfold t. change [sub; n] with ([sub] ++ [n]).
      rewrite app_assoc, dirname_snoc.
      rewrite (fs_inv_isdir cfg env fs0 fs1 sub Hinv1); [done|].
      apply isdir_Some in Hsubdir. by rewrite Hsubdir. }
  unfold transfer, backup_effect, replace_effect, take_backup_root.
  destruct (DRY_RUN cfg) eqn:Hdry.
  { rewrite andb_false_r. simpl. by eexists _, _. }
  destruct (MAKE_BACKUP cfg) eqn:Hmb; simpl.
  2:{ destruct (Hover fss Hinv) as [fs2 ->]. by eexists _, _. }
  fold (backup_path cfg env t). set (b := backup_path cfg env t).
  assert (b = ASSETS_IMAGES cfg ++ ["_backup_" +:+ now env; sub; n]) as Hb.
  { apply backup_path_target. }
  assert (dirname b = ASSETS_IMAGES cfg ++ ["_backup_" +:+ now env; sub]) as Hdb.
  { apply backup_dir_target. }
  destruct (makedirs_two fss (ASSETS_IMAGES cfg) ("_backup_" +:+ now env) sub)
    as (fs1 & Hm & Hd1).
  { by apply root_still_dir. }
  { apply under_backup_root; [done|done|]. rewrite length_app. simpl. lia. }
  { apply under_backup_root; [done| |].
    - exists [sub]. by rewrite <-app_assoc.
    - rewrite length_app. simpl. lia. }
  rewrite Hdb, Hm.
  assert (fs_inv cfg env fs0 fs1) as Hinv1.
  { apply makedirs_grows in Hm. eapply fs_inv_grows; [|done..].
    rewrite length_app. simpl. lia. }
  destruct (fs_inv_target_file cfg env fs0 fs1 t Hinv1 Ht) as [dt Hdt].
  pose proof (backup_not_dir cfg env fs0 Hfresh fs1 t Hinv1 Ht) as Hbd. fold b in Hbd.
  assert (copy2 t b fs1 = inr (<[b := File dt]> fs1)) as ->.
  { apply copy2_ok; [done..| | |].
    - by apply (target_ne_backup cfg env fs0).
    - destruct (Hinv1 b) as [E|[(_ & _ & Hl)|[(Ht' & _)|(_ & d & E)]]].
      + left. rewrite E. apply Hfresh. by apply (backup_under cfg env fs0).
      + pose proof (backup_length cfg env fs0 t Ht). fold b in H. lia.
      + apply target_length in Ht'.
        pose proof (backup_length cfg env fs0 t Ht). fold b in H. lia.
      + right. by exists d.
    - by rewrite Hdb. }
  destruct (Hover (<[b := File dt]> fs1)) as [fs2 ->].
  { apply fs_inv_insert_deep; [done|]. by apply (backup_path_deep cfg env fs0). }
  by eexists _, _.
Qed.

Lemma run_returns :
  gather (walked env) ≠ [] →
  valid_cutoff (FUZZY_CUTOFF cfg) = true →
  (run cfg env fs0).1 = inr tt.
Proof.
  intros Hfiles Hcut. destruct (run cfg env fs0) as [r s] eqn:Hrun. simpl.
  destruct (run_carried cfg env fs0 (fun _ => True) (fun _ => False) r s)
    as (s1 & _ & _ & HJ & _); try done.
  - intros pending s0 sub n src m ops fs' r' Ht Hpt Hinv _ Hm Htr.
    apply match_target_source in Hm.
    destruct (transfer_succeeds sub n src (fs s0) Ht
                (fi_fs _ _ _ _ (li_final _ _ _ _ _ Hinv)) Hm) as (ops' & fs'' & E).
    rewrite E in Htr. by injection Htr as <- <- <-.
  - intros s0 n e t _ Hm.
    destruct (match_target_returns (build_index (gather (walked env)))
                (FUZZY_CUTOFF cfg) n) as [c Hc]; [apply build_index_nonempty|done|].
    congruence.
  - specialize (HJ Hfiles Hroot). by destruct r as [e|[]].
Qed.
End run_to_the_end.

(** ** difflib: what [find_longest_match] returns *)

(** A block [(i, j, k)] inside the window: [a[i:i+k] == b[j:j+k]]. *)
Definition block_ok (a b : difflib.seq) (alo ahi blo bhi : nat) (blk : difflib.Match)
    : Prop :=
  alo ≤ blk.1.1 ∧ blk.1.1 + blk.2 ≤ ahi
  ∧ blo ≤ blk.1.2 ∧ blk.1.2 + blk.2 ≤ bhi
  ∧ ∀ d, d < blk.2 → difflib.same_at a b (blk.1.1 + d) (blk.1.2 + d) = true.

(** [j2len] before row [i]: an entry [j ↦ k] is a block of [k] elements
    that ends at [a[i-1]] and [b[j]]. *)
Definition row_ok (a b : difflib.seq) (alo blo bhi i : nat) (j2len : gmap nat nat)
    : Prop :=
  ∀ j k, j2len !! j = Some k →
    ∃ i0 j0, i0 + k = i ∧ j0 + k = S j ∧ alo ≤ i0 ∧ blo ≤ j0 ∧ j < bhi ∧ 1 ≤ k
             ∧ ∀ d, d < k → difflib.same_at a b (i0 + d) (j0 + d) = true.

Lemma indices_from_spec j0 x (b : difflib.seq) j :
  j ∈ difflib.indices_from j0 x b → ∃ j', j = j0 + j' ∧ b !! j' = Some x.
Proof.
  revert j0. induction b as [|y b IH]; intros j0; simpl.
  - by intros ?%elem_of_nil.
  - destruct (Ascii.eqb_spec x y) as [->|Hne].
    + intros [->|Hin]%elem_of_cons.
      * exists 0. split; [lia|done].
      * destruct (IH _ Hin) as (j' & -> & Hj'). exists (S j'). split; [lia|done].
    + intros Hin. destruct (IH _ Hin) as (j' & -> & Hj').
      exists (S j'). split; [lia|done].
Qed.

Lemma b2j_spec (b : difflib.seq) x j : j ∈ difflib.b2j b x → b !! j = Some x.
Proof.
  unfold difflib.b2j. destruct (difflib.popular b x); [by intros ?%elem_of_nil|].
  intros (j' & -> & ?)%indices_from_spec. done.
Qed.

Lemma block_ok_widen a b alo ahi ahi' blo bhi blk :
  ahi ≤ ahi' → block_ok a b alo ahi blo bhi blk → block_ok a b alo ahi' blo bhi blk.
Proof. intros Hle (? & ? & ? & ? & ?). split_and!; [done|lia|done..]. Qed.

Lemma scan_js_ok a b alo blo bhi i x j2len js newj2len best :
  a !! i = Some x → alo ≤ i →
  (∀ j, j ∈ js → b !! j = Some x) →
  row_ok a b alo blo bhi i j2len →
  row_ok a b alo blo bhi (S i) newj2len →
  block_ok a b alo (S i) blo bhi best →
  row_ok a b alo blo bhi (S i) (difflib.scan_js i blo bhi j2len js newj2len best).1
  ∧ block_ok a b alo (S i) blo bhi (difflib.scan_js i blo bhi j2len js newj2len best).2.
Proof.
  intros Hai Hi. revert newj2len best.
  induction js as [|j js IH]; intros newj2len best Hjs Hrow Hnew Hbest; simpl; [done|].
  assert (∀ j', j' ∈ js → b !! j' = Some x) as Hjs' by (intros; apply Hjs; by right).
  destruct (j <? blo) eqn:Hlo; [by apply IH|].
  destruct (bhi <=? j) eqn:Hhi; [done|].
  apply Nat.ltb_ge in Hlo. apply Nat.leb_gt in Hhi.
  assert (b !! j = Some x) as Hbj by (apply Hjs; left).
  set (k := difflib.j2len_prev j2len j + 1).
  assert (∃ i0 j0, i0 + k = S i ∧ j0 + k = S j ∧ alo ≤ i0 ∧ blo ≤ j0 ∧ 1 ≤ k
            ∧ ∀ d, d < k → difflib.same_at a b (i0 + d) (j0 + d) = true)
    as (i0 & j0 & Hi0 & Hj0 & Ha0 & Hb0 & Hk & Hsame).
  { assert (difflib.same_at a b i j = true) as Hij.
    { unfold difflib.same_at. rewrite Hai, Hbj. apply Ascii.eqb_refl. }
    unfold k, difflib.j2len_prev. destruct j as [|j'].
    { exists i, 0. split_and!; try lia. intros d Hd.
      replace d with 0 by lia. by rewrite !Nat.add_0_r. }
    destruct (j2len !! j') as [k'|] eqn:Hk'; simpl.
    - destruct (Hrow j' k' Hk') as (i0 & j0 & ? & ? & ? & ? & ? & ? & Hs).
      exists i0, j0. split_and!; try lia. intros d Hd.
      destruct (decide (d < k')) as [?|?]; [by apply Hs|].
      replace (i0 + d) with i by lia. replace (j0 + d) with (S j') by lia. done.
    - exists i, (S j'). split_and!; try lia. intros d Hd.
      replace d with 0 by lia. by rewrite !Nat.add_0_r. }
  apply IH; [done|done| |].
  - intros j1 k1. destruct (decide (j1 = j)) as [->|Hne].
    + rewrite lookup_insert_eq. intros [= <-]. exists i0, j0. split_and!; done.
    + rewrite lookup_insert_ne by done. apply Hnew.
  - destruct (best.2 <? k); [|done].
    split_and!; simpl; try lia. intros d Hd.
    replace (i + 1 - k) with i0 by lia. replace (j + 1 - k) with j0 by lia.
    by apply Hsame.
Qed.

Lemma row_ok_empty a b alo blo bhi i : row_ok a b alo blo bhi i ∅.
Proof. intros j k. by rewrite lookup_empty. Qed.

Lemma scan_is_ok a b alo blo bhi n i j2len best :
  alo ≤ i →
  row_ok a b alo blo bhi i j2len →
  block_ok a b alo i blo bhi best →
  block_ok a b alo (i + n) blo bhi
    (difflib.scan_is a b blo bhi (List.seq i n) j2len best).
Proof.
  revert i j2len best. induction n as [|n IH]; intros i j2len best Hi Hrow Hbest.
  - simpl. by rewrite Nat.add_0_r.
  - simpl.
    destruct (difflib.scan_js i blo bhi j2len
                (from_option (difflib.b2j b) [] (a !! i)) ∅ best)
      as [newj2len best'] eqn:Hscan.
    replace (i + S n) with (S i + n) by lia.
    assert (row_ok a b alo blo bhi (S i) newj2len
            ∧ block_ok a b alo (S i) blo bhi best') as [Hrow' Hbest'].
    { destruct (a !! i) as [x|] eqn:Hai; simpl in Hscan.
      - pose proof (scan_js_ok a b alo blo bhi i x j2len (difflib.b2j b x) ∅ best
                      Hai Hi (b2j_spec b x) Hrow (row_ok_empty _ _ _ _ _ _)
                      (block_ok_widen _ _ _ _ _ _ _ _ (Nat.le_succ_diag_r i) Hbest))
          as Hok.
        by rewrite Hscan in Hok.
      - injection Hscan as <- <-. split; [apply row_ok_empty|].
        eapply block_ok_widen; [|done]. lia. }
    apply IH; [lia|done..].
Qed.

Lemma extend_left_ok a b alo ahi blo bhi besti bestj bestsize :
  block_ok a b alo ahi blo bhi (besti, bestj, bestsize) →
  block_ok a b alo ahi blo bhi
    (difflib.extend_left a b alo blo besti bestj bestsize).
Proof.
  revert bestj bestsize. induction besti as [|i' IH]; intros bestj bestsize Hok;
    [done|].
  simpl. destruct bestj as [|j']; [done|].
  destruct ((alo <? S i') && (blo <? S j') && difflib.same_at a b i' j') eqn:Hc;
    [|done].
  apply andb_prop in Hc as [[Ha%Nat.ltb_lt Hb%Nat.ltb_lt]%andb_prop Hs].
  destruct Hok as (? & ? & ? & ? & Hsame). simpl in *.
  apply IH. split_and!; simpl; try lia. intros [|d] Hd.
  - by rewrite !Nat.add_0_r.
  - replace (i' + S d) with (S i' + d) by lia.
    replace (j' + S d) with (S j' + d) by lia. apply Hsame. lia.
Qed.

Lemma extend_right_ok a b alo ahi blo bhi besti bestj bestsize room :
  besti + bestsize + room ≤ ahi →
  block_ok a b alo ahi blo bhi (besti, bestj, bestsize) →
  block_ok a b alo ahi blo bhi
    (difflib.extend_right a b bhi besti bestj bestsize room).
Proof.
  revert bestsize. induction room as [|room IH]; intros bestsize Hroom Hok; [done|].
  simpl.
  destruct ((bestj + bestsize <? bhi)
            && difflib.same_at a b (besti + bestsize) (bestj + bestsize)) eqn:Hc;
    [|done].
  apply andb_prop in Hc as [Hb%Nat.ltb_lt Hs].
  destruct Hok as (? & ? & ? & ? & Hsame). simpl in *.
  apply IH; [lia|]. split_and!; simpl; try lia. intros d Hd.
  destruct (decide (d < bestsize)) as [?|?]; [by apply Hsame|].
  by replace d with bestsize by lia.
Qed.

Lemma find_longest_match_ok a b alo ahi blo bhi :
  alo ≤ ahi → blo ≤ bhi →
  block_ok a b alo ahi blo bhi (difflib.find_longest_match a b alo ahi blo bhi).
Proof.
  intros Ha Hb. unfold difflib.find_longest_match.
  pose proof (scan_is_ok a b alo blo bhi (ahi - alo) alo ∅ (alo, blo, 0)
                (Nat.le_refl alo) (row_ok_empty _ _ _ _ _ _)) as Hscan.
  replace (alo + (ahi - alo)) with ahi in Hscan by lia.
  destruct (difflib.scan_is a b blo bhi (List.seq alo (ahi - alo)) ∅ (alo, blo, 0))
    as [[i1 j1] k1].
  assert (block_ok a b alo ahi blo bhi (i1, j1, k1)) as H1.
  { apply Hscan. split_and!; simpl; try lia. }
  apply extend_left_ok in H1.
  destruct (difflib.extend_left a b alo blo i1 j1 k1) as [[i2 j2] k2].
  apply extend_right_ok; [|done]. destruct H1 as (? & ? & _). simpl in *. lia.
Qed.

(** ** difflib: the quick ratios bound the ratio *)

(** [l[lo:hi]] *)
Definition seg (l : difflib.seq) (lo hi : nat) : difflib.seq :=
  take (hi - lo) (drop lo l).

Definition alphabet : list ascii := List.map ascii_of_nat (List.seq 0 256).

(** The size of the intersection of [a] and [b] as multisets. *)
Definition common (a b : difflib.seq) : nat :=
  sum_list (List.map (fun x => Nat.min (difflib.count_of x a) (difflib.count_of x b))
                     alphabet).

Lemma seg_split l lo m hi : lo ≤ m → m ≤ hi → seg l lo hi = seg l lo m ++ seg l m hi.
Proof.
  intros H1 H2. unfold seg.
  replace (hi - lo) with ((m - lo) + (hi - m)) by lia.
  rewrite <-take_take_drop, drop_drop. by replace (lo + (m - lo)) with m by lia.
Qed.

Lemma same_block (a b : difflib.seq) k i j :
  (∀ d, d < k → difflib.same_at a b (i + d) (j + d) = true) →
  take k (drop i a) = take k (drop j b) ∧ length (take k (drop i a)) = k.
Proof.
  revert i j. induction k as [|k IH]; intros i j Hsame; [done|].
  pose proof (Hsame 0 ltac:(lia)) as H0. rewrite !Nat.add_0_r in H0.
  unfold difflib.same_at in H0.
  destruct (a !! i) as [x|] eqn:Ha; [|done].
  destruct (b !! j) as [y|] eqn:Hb; [|done].
  apply Ascii.eqb_eq in H0 as ->.
  rewrite (drop_S a y i Ha), (drop_S b y j Hb). simpl.
  destruct (IH (S i) (S j)) as [-> Hl].
  { intros d Hd. replace (S i + d) with (i + S d) by lia.
    replace (S j + d) with (j + S d) by lia. apply Hsame. lia. }
  split; [done|]. f_equal. by rewrite <-Hl at 2.
Qed.

Lemma count_of_app x (l1 l2 : difflib.seq) :
  difflib.count_of x (l1 ++ l2) = difflib.count_of x l1 + difflib.count_of x l2.
Proof. induction l1 as [|y l1 IH]; simpl; [done|]. rewrite IH. lia. Qed.

Lemma sum_list_map_le {A} (f g : A → nat) (l : list A) :
  (∀ x, f x ≤ g x) → sum_list (List.map f l) ≤ sum_list (List.map g l).
Proof.
  intros H. induction l as [|x l IH]; simpl; [done|]. specialize (H x). lia.
Qed.

Lemma sum_list_map_add {A} (f g : A → nat) (l : list A) :
  sum_list (List.map (fun x => f x + g x) l)
  = sum_list (List.map f l) + sum_list (List.map g l).
Proof. induction l as [|x l IH]; simpl; [done|]. lia. Qed.

Lemma sum_list_bump {A} `{EqDecision A} (f g : A → nat) (l : list A) e δ :
  NoDup l → e ∈ l →
  (∀ x, x ≠ e → g x = f x) → g e = f e + δ →
  sum_list (List.map g l) = sum_list (List.map f l) + δ.
Proof.
  intros Hnd Hin Hne He.
  assert (∀ l', e ∉ l' → sum_list (List.map g l') = sum_list (List.map f l')) as Hout.
  { induction l' as [|x l' IH]; intros Hx; simpl; [done|].
    rewrite Hne, IH; [done| |]; intros ?; apply Hx; [by right|subst; left]. }
  induction Hnd as [|x l Hx Hnd IH]; [by apply elem_of_nil in Hin|].
  simpl. destruct (decide (x = e)) as [->|Hxe].
  - rewrite He, (Hout l Hx). lia.
  - apply elem_of_cons in Hin as [->|Hin]; [done|].
    rewrite (Hne x Hxe), (IH Hin). lia.
Qed.

Lemma alphabet_NoDup : NoDup alphabet.
Proof. apply (bool_decide_unpack _). by vm_compute. Qed.

Lemma alphabet_all c : c ∈ alphabet.
Proof.
  rewrite <-(Ascii.ascii_nat_embedding c). unfold alphabet.
  apply list_elem_of_In, in_map, in_seq.
  pose proof (Ascii.nat_ascii_bounded c). lia.
Qed.

Lemma common_app3 (a1 a2 a3 b1 b2 b3 : difflib.seq) :
  common a1 b1 + common a2 b2 + common a3 b3
  ≤ common (a1 ++ a2 ++ a3) (b1 ++ b2 ++ b3).
Proof.
  unfold common. rewrite <-!sum_list_map_add. apply sum_list_map_le.
  intros x. rewrite !count_of_app. lia.
Qed.

Lemma sum_count_over (al : list ascii) (l : difflib.seq) :
  NoDup al → (∀ c, c ∈ al) →
  sum_list (List.map (fun x => difflib.count_of x l) al) = length l.
Proof.
  intros Hnd Hall. induction l as [|c l IH]; simpl.
  - clear. induction al as [|x al IHal]; simpl; done.
  - rewrite <-IH.
    transitivity (sum_list (List.map (fun x => difflib.count_of x l) al) + 1); [|lia].
    apply (sum_list_bump (fun x => difflib.count_of x l)
             (fun x => (if Ascii.eqb x c then 1 else 0) + difflib.count_of x l)
             al c 1); [done|apply Hall| |].
    + intros x Hx. by destruct (Ascii.eqb_spec x c).
    + rewrite Ascii.eqb_refl. lia.
Qed.

Lemma sum_count (l : difflib.seq) :
  sum_list (List.map (fun x => difflib.count_of x l) alphabet) = length l.
Proof. apply sum_count_over; [apply alphabet_NoDup|apply alphabet_all]. Qed.

Lemma common_same (l : difflib.seq) : common l l = length l.
Proof.
  unfold common. rewrite <-(sum_count l). f_equal.
  apply map_ext. intros x. lia.
Qed.

Lemma matches_in_le_common a b fuel alo ahi blo bhi :
  alo ≤ ahi → blo ≤ bhi →
  difflib.matches_in fuel a b alo ahi blo bhi ≤ common (seg a alo ahi) (seg b blo bhi)
  ∧ difflib.matches_in fuel a b alo ahi blo bhi ≤ Nat.min (ahi - alo) (bhi - blo).
Proof.
  revert alo ahi blo bhi. induction fuel as [|fuel IH]; intros alo ahi blo bhi Ha Hb.
  - simpl. lia.
  - simpl. pose proof (find_longest_match_ok a b alo ahi blo bhi Ha Hb) as Hok.
    destruct (difflib.find_longest_match a b alo ahi blo bhi) as [[i j] k].
    destruct Hok as (Hi & Hik & Hj & Hjk & Hsame). simpl in *.
    destruct (k =? 0) eqn:Hk; [lia|].
    set (L := if (alo <? i) && (blo <? j)
              then difflib.matches_in fuel a b alo i blo j else 0).
    set (R := if (i + k <? ahi) && (j + k <? bhi)
              then difflib.matches_in fuel a b (i + k) ahi (j + k) bhi else 0).
    assert (L ≤ common (seg a alo i) (seg b blo j) ∧ L ≤ Nat.min (i - alo) (j - blo))
      as [HL1 HL2].
    { unfold L. destruct ((alo <? i) && (blo <? j)); [by apply IH|lia]. }
    assert (R ≤ common (seg a (i + k) ahi) (seg b (j + k) bhi)
            ∧ R ≤ Nat.min (ahi - (i + k)) (bhi - (j + k))) as [HR1 HR2].
    { unfold R. destruct ((i + k <? ahi) && (j + k <? bhi)); [by apply IH|lia]. }
    split; [|lia].
    rewrite (seg_split a alo i ahi), (seg_split a i (i + k) ahi) by lia.
    rewrite (seg_split b blo j bhi), (seg_split b j (j + k) bhi) by lia.
    etrans; [|apply common_app3].
    destruct (same_block a b k i j Hsame) as [Heq Hlen].
    assert (common (seg a i (i + k)) (seg b j (j + k)) = k) as ->.
    { unfold seg. replace (i + k - i) with k by lia.
      replace (j + k - j) with k by lia. rewrite <-Heq, common_same. done. }
    lia.
Qed.

Lemma seg_all (l : difflib.seq) : seg l 0 (length l) = l.
Proof. unfold seg. rewrite Nat.sub_0_r. simpl. apply firstn_all. Qed.

Lemma matches_le_common a b : difflib.matches a b ≤ common a b.
Proof.
  unfold difflib.matches.
  destruct (matches_in_le_common a b (S (length a)) 0 (length a) 0 (length b))
    as [H _]; [lia..|].
  by rewrite !seg_all in H.
Qed.

Lemma matches_le_min a b : difflib.matches a b ≤ Nat.min (length a) (length b).
Proof.
  unfold difflib.matches.
  destruct (matches_in_le_common a b (S (length a)) 0 (length a) 0 (length b))
    as [_ H]; [lia..|].
  by rewrite !Nat.sub_0_r in H.
Qed.

(** More fuel than the window of [a] is long changes nothing. *)
Lemma matches_in_fuel a b fuel fuel' alo ahi blo bhi :
  alo ≤ ahi → blo ≤ bhi → ahi - alo < fuel → ahi - alo < fuel' →
  difflib.matches_in fuel a b alo ahi blo bhi
  = difflib.matches_in fuel' a b alo ahi blo bhi.
Proof.
  revert fuel' alo ahi blo bhi.
  induction fuel as [|fuel IH]; intros fuel' alo ahi blo bhi Ha Hb Hf Hf'; [lia|].
  destruct fuel' as [|fuel']; [lia|]. simpl.
  pose proof (find_longest_match_ok a b alo ahi blo bhi Ha Hb) as Hok.
  destruct (difflib.find_longest_match a b alo ahi blo bhi) as [[i j] k].
  destruct Hok as (Hi & Hik & Hj & Hjk & _). simpl in *.
  destruct (k =? 0) eqn:Hk; [done|]. apply Nat.eqb_neq in Hk.
  f_equal; [f_equal|].
  - destruct ((alo <? i) && (blo <? j)); [|done]. apply IH; lia.
  - destruct ((i + k <? ahi) && (j + k <? bhi)); [|done]. apply IH; lia.
Qed.

(** What [quick_ratio] has left of element [x] of [b]. *)
Definition avail_of (b : difflib.seq) (avail : gmap ascii Z) (x : ascii) : Z :=
  match avail !! x with
  | Some n => n
  | None => Z.of_nat (difflib.count_of x b)
  end.

Lemma sum_list_zero {A} (l : list A) : sum_list (List.map (fun _ => 0) l) = 0.
Proof. induction l; simpl; done. Qed.

Lemma quick_matches_sum (al : list ascii) b a avail m :
  NoDup al → (∀ c, c ∈ al) →
  difflib.quick_matches b a avail m
  = m + sum_list (List.map (fun x => Nat.min (difflib.count_of x a)
                                             (Z.to_nat (avail_of b avail x))) al).
Proof.
  intros Hnd Hall. revert avail m.
  induction a as [|elt a IH]; intros avail m.
  - simpl. rewrite sum_list_zero. lia.
  - cbn [difflib.quick_matches].
    change (match avail !! elt with
            | Some n => n
            | None => Z.of_nat (difflib.count_of elt b)
            end) with (avail_of b avail elt).
    set (numb := avail_of b avail elt). cbv zeta. rewrite IH.
    rewrite (sum_list_bump
               (fun x => Nat.min (difflib.count_of x a)
                           (Z.to_nat (avail_of b (<[elt:=(numb - 1)%Z]> avail) x)))
               (fun x => Nat.min (difflib.count_of x (elt :: a))
                           (Z.to_nat (avail_of b avail x)))
               al elt (if (0 <? numb)%Z then 1 else 0)); [| done | apply Hall | |].
    + destruct (0 <? numb)%Z; lia.
    + intros x Hx. unfold avail_of. rewrite lookup_insert_ne by done. simpl.
      by destruct (Ascii.eqb_spec x elt).
    + unfold avail_of at 2. rewrite lookup_insert_eq. fold numb. simpl.
      rewrite Ascii.eqb_refl. destruct (Z.ltb_spec 0 numb); lia.
Qed.

Lemma quick_matches_common a b : difflib.quick_matches b a ∅ 0 = common a b.
Proof.
  rewrite (quick_matches_sum alphabet) by (apply alphabet_NoDup || apply alphabet_all).
  unfold common. rewrite Nat.add_0_l. f_equal. apply map_ext. intros x.
  unfold avail_of. rewrite lookup_empty. by rewrite Nat2Z.id.
Qed.

Lemma calculate_ratio_mono m m' n :
  m ≤ m' → (difflib.calculate_ratio m n <= difflib.calculate_ratio m' n)%Q.
Proof.
  intros H. destruct n as [|n]; [apply Qle_refl|].
  unfold difflib.calculate_ratio, Qle. cbn [Qnum Qden].
  apply Z.mul_le_mono_nonneg_r; lia.
Qed.

Lemma ratio_le_quick a b : (difflib.ratio a b <= difflib.quick_ratio a b)%Q.
Proof.
  unfold difflib.ratio, difflib.quick_ratio. apply calculate_ratio_mono.
  rewrite quick_matches_common. apply matches_le_common.
Qed.

Lemma ratio_le_real_quick a b : (difflib.ratio a b <= difflib.real_quick_ratio a b)%Q.
Proof.
  unfold difflib.ratio, difflib.real_quick_ratio. apply calculate_ratio_mono.
  apply matches_le_min.
Qed.

(** The two quick tests never reject a candidate that the ratio accepts. *)
Lemma passes_ratio cutoff word x :
  difflib.passes cutoff word x = Qle_bool cutoff (difflib.score word x).
Proof.
  unfold difflib.passes, difflib.score. cbv zeta.
  set (a := String.list_ascii_of_string x). set (b := String.list_ascii_of_string word).
  destruct (Qle_bool cutoff (difflib.ratio a b)) eqn:Hr.
  - apply Qle_bool_iff in Hr.
    rewrite (proj2 (Qle_bool_iff cutoff (difflib.real_quick_ratio a b)))
      by (eapply Qle_trans; [done|apply ratio_le_real_quick]).
    rewrite (proj2 (Qle_bool_iff cutoff (difflib.quick_ratio a b)))
      by (eapply Qle_trans; [done|apply ratio_le_quick]).
    done.
  - apply andb_false_r.
Qed.

(** The order of the tuples [(score, x)]. *)
Definition tuple_le (t1 t2 : Q * string) : Prop :=
  (t1.1 < t2.1)%Q ∨ (t1.1 == t2.1 ∧ String.le t1.2 t2.2).

Lemma ltb_leb (x y : string) : String.ltb y x = negb (String.leb x y).
Proof.
  unfold String.ltb, String.leb. rewrite (String.compare_antisym y x).
  by destruct (String.compare x y).
Qed.

Lemma tuple_gt_false t1 t2 : difflib.tuple_gt t1 t2 = false ↔ tuple_le t1 t2.
Proof.
  unfold difflib.tuple_gt, tuple_le, String.le.
  destruct (Qeq_bool t1.1 t2.1) eqn:He.
  - apply Qeq_bool_iff in He. rewrite ltb_leb, negb_false_iff. split.
    + intros H. right. by rewrite H.
    + intros [Hlt|[_ H]]; [|by destruct (String.leb t1.2 t2.2)].
      rewrite He in Hlt. by apply Qlt_irrefl in Hlt.
  - apply Qeq_bool_neq in He. rewrite negb_false_iff, Qle_bool_iff, Qle_lteq.
    split; [intros [?|?]; [by left|done]|intros [?|[? _]]; [by left|done]].
Qed.

Lemma tuple_le_refl t : tuple_le t t.
Proof. right. split; [reflexivity|]. apply (reflexivity (R := String.le)). Qed.

Lemma tuple_le_trans t1 t2 t3 : tuple_le t1 t2 → tuple_le t2 t3 → tuple_le t1 t3.
Proof.
  intros [H1|[H1 S1]] [H2|[H2 S2]].
  - left. by eapply Qlt_trans.
  - left. by rewrite <-H2.
  - left. by rewrite H1.
  - right. split; [by rewrite H1|]. by etrans.
Qed.

Lemma tuple_gt_le t1 t2 : difflib.tuple_gt t1 t2 = true → tuple_le t2 t1.
Proof.
  unfold difflib.tuple_gt, tuple_le, String.le.
  destruct (Qeq_bool t1.1 t2.1) eqn:He.
  - apply Qeq_bool_iff in He. rewrite ltb_leb, negb_true_iff. intros H.
    right. split; [by symmetry|].
    destruct (String.leb_total t1.2 t2.2) as [H'|H']; [congruence|by rewrite H'].
  - rewrite negb_true_iff. intros H. left. apply Qnot_le_lt. intros Hle.
    apply Qle_bool_iff in Hle. congruence.
Qed.

Lemma fold_max_greatest (rest : list (Q * string)) t0 :
  let best := fold_left (fun best t' => if difflib.tuple_gt t' best then t' else best)
                        rest t0 in
  tuple_le t0 best ∧ ∀ t, t ∈ rest → tuple_le t best.
Proof.
  revert t0. induction rest as [|t1 rest IH]; intros t0; simpl.
  - split; [apply tuple_le_refl|]. intros t Ht. by apply elem_of_nil in Ht.
  - set (t0' := if difflib.tuple_gt t1 t0 then t1 else t0).
    destruct (IH t0') as [H0 Hrest].
    assert (tuple_le t0 t0' ∧ tuple_le t1 t0') as [Ha Hb].
    { unfold t0'. destruct (difflib.tuple_gt t1 t0) eqn:Hgt.
      - split; [by apply tuple_gt_le|apply tuple_le_refl].
      - split; [apply tuple_le_refl|by apply tuple_gt_false]. }
    split; [by eapply tuple_le_trans|].
    intros t [->|Ht]%elem_of_cons; [by eapply tuple_le_trans|by apply Hrest].
Qed.

Lemma nlargest1_greatest (result : list (Q * string)) t rest :
  difflib.nlargest1 result = t :: rest → ∀ t', t' ∈ result → tuple_le t' t.
Proof.
  destruct result as [|t0 result]; simpl; [done|].
  intros [= <- <-] t' Ht'. destruct (fold_max_greatest result t0) as [H0 Hr].
  apply elem_of_cons in Ht' as [->|Ht']; [done|by apply Hr].
Qed.

(** ** The fuzzy tier *)

(** The key [max] selects among the tuples [(ratio, key)]: its ratio reaches
    the cutoff, no key has a greater ratio, and among the keys of the same
    ratio it is the greatest string. *)
Definition best_key (ks : list string) (cutoff : Q) (word k : string) : Prop :=
  k ∈ ks ∧ (cutoff <= difflib.score word k)%Q
  ∧ ∀ k', k' ∈ ks →
      (difflib.score word k' < difflib.score word k)%Q
      ∨ (difflib.score word k' == difflib.score word k ∧ String.le k' k).

(** The selection as the specification words it: among the keys of the
    greatest ratio, the one met first. *)
Definition first_encountered_best (ks : list string) (cutoff : Q) (word k : string)
    : Prop :=
  ∃ before after, ks = before ++ k :: after
    ∧ (cutoff <= difflib.score word k)%Q
    ∧ (∀ k', k' ∈ before → (difflib.score word k' < difflib.score word k)%Q)
    ∧ (∀ k', k' ∈ after → (difflib.score word k' <= difflib.score word k)%Q).

Definition fuzzy_picks_first_encountered (website_files : list path) (cutoff : Q)
    (fname : string) : Prop :=
  let idx := build_index website_files in
  ∀ p k, match_target idx cutoff fname = inr (Some (p, fuzzy_match k)) →
         first_encountered_best (keys (by_stem idx)) cutoff
           (normalize_stem (splitext fname).1) k.

Definition tie_files : list path := [["web"; "photo-1a.png"]; ["web"; "photo-1b.png"]].

Lemma best_key_unique ks cutoff word k1 k2 :
  best_key ks cutoff word k1 → best_key ks cutoff word k2 → k1 = k2.
Proof.
  intros (Hin1 & _ & H1) (Hin2 & _ & H2).
  destruct (H1 k2 Hin2) as [Hlt|[Heq Hle]], (H2 k1 Hin1) as [Hlt'|[Heq' Hle']].
  - exfalso. apply (Qlt_irrefl (difflib.score word k1)). by eapply Qlt_trans.
  - rewrite Heq' in Hlt. by apply Qlt_irrefl in Hlt.
  - rewrite Heq in Hlt'. by apply Qlt_irrefl in Hlt'.
  - by apply (anti_symm String.le).
Qed.

Lemma nlargest1_nil (result : list (Q * string)) :
  difflib.nlargest1 result = [] → result = [].
Proof. by destruct result. Qed.

Lemma get_close_matches_spec word ks cutoff :
  valid_cutoff cutoff = true →
  (∃ k, difflib.get_close_matches word ks cutoff = Some [k] ∧ best_key ks cutoff word k)
  ∨ (difflib.get_close_matches word ks cutoff = Some []
     ∧ ∀ k, k ∈ ks → (difflib.score word k < cutoff)%Q).
Proof.
  intros Hv. unfold difflib.get_close_matches. unfold valid_cutoff in Hv. rewrite Hv.
  set (result := List.map (fun x => (difflib.score word x, x))
                          (List.filter (difflib.passes cutoff word) ks)).
  assert (∀ k, k ∈ ks → difflib.passes cutoff word k = false →
               (difflib.score word k < cutoff)%Q) as Hfail.
  { intros k _ Hp. rewrite passes_ratio in Hp. apply Qnot_le_lt. intros Hle.
    apply Qle_bool_iff in Hle. congruence. }
  assert (∀ k, k ∈ ks → difflib.passes cutoff word k = true →
               (difflib.score word k, k) ∈ result) as Hres.
  { intros k Hk Hp. unfold result.
    apply list_elem_of_In, (in_map (fun x => (difflib.score word x, x))), filter_In.
    split; [by apply list_elem_of_In|done]. }
  destruct (difflib.nlargest1 result) as [|t rest] eqn:Hn.
  - right. split; [done|]. intros k Hk. apply Hfail; [done|].
    apply nlargest1_nil in Hn.
    destruct (difflib.passes cutoff word k) eqn:Hp; [|done].
    specialize (Hres k Hk Hp). rewrite Hn in Hres. by apply elem_of_nil in Hres.
  - left. pose proof (nlargest1_greatest _ _ _ Hn) as Hmax.
    apply nlargest1_elem in Hn as [Hin ->].
    apply list_elem_of_In, in_map_iff in Hin as (k & <- & [Hk Hp]%filter_In).
    apply list_elem_of_In in Hk.
    exists k. split; [done|]. split; [done|]. split.
    { rewrite passes_ratio in Hp. by apply Qle_bool_iff. }
    intros k' Hk'. destruct (difflib.passes cutoff word k') eqn:Hp'.
    + apply (Hmax (difflib.score word k', k')). by apply Hres.
    + left. eapply Qlt_le_trans; [by apply Hfail|].
      rewrite passes_ratio in Hp. by apply Qle_bool_iff.
Qed.

(** C2 (amended).  For a target with no exact and no stem hit and a cutoff
    in [0, 1]: either the fuzzy tier selects the one key whose ratio to the
    target stem reaches the cutoff (a ratio equal to the cutoff is enough),
    is exceeded by no key's ratio, and, among the keys of that same ratio,
    is the greatest string in code-point order, and the source is the first
    path of that key's bucket; or every key's ratio is below the cutoff and
    the result is that of the containment tier. *)
Theorem fuzzy_selects_greatest (website_files : list path) (cutoff : Q) (fname : string) :
  let idx := build_index website_files in
  let tnorm := normalize_stem (splitext fname).1 in
  valid_cutoff cutoff = true →
  dict_get (lower fname) (by_fullname idx) = None →
  dict_get tnorm (by_stem idx) = None →
  (∃ k bucket p,
      best_key (keys (by_stem idx)) cutoff tnorm k
      ∧ (∀ k', best_key (keys (by_stem idx)) cutoff tnorm k' → k' = k)
      ∧ dict_get k (by_stem idx) = Some bucket ∧ head bucket = Some p
      ∧ match_target idx cutoff fname = inr (Some (p, fuzzy_match k)))
  ∨ ((∀ k, k ∈ keys (by_stem idx) → (difflib.score tnorm k < cutoff)%Q)
     ∧ match_target idx cutoff fname = tier_partial idx tnorm).
Proof.
  intros idx tnorm Hv He Hs.
  rewrite (match_target_later idx cutoff fname He Hs). cbv zeta. fold tnorm.
  pose proof (build_index_nonempty website_files) as Hne. fold idx in Hne.
  destruct (get_close_matches_spec tnorm (keys (by_stem idx)) cutoff Hv)
    as [(k & Hg & Hbest)|[Hg Hlow]].
  - left. destruct (tier_fuzzy_hit idx cutoff tnorm k [] Hne Hg (proj1 Hbest))
      as (bucket & p & Hb & Hp & Hf).
    exists k, bucket, p. split_and!; [done| |done|done|by rewrite Hf].
    intros k' Hk'. by apply (best_key_unique _ _ _ _ _ Hk' Hbest).
  - right. split; [done|]. unfold tier_fuzzy. by rewrite Hg.
Qed.

Lemma fuzzy_selects_greatest_witness :
  valid_cutoff (78 # 100) = true
  ∧ dict_get (lower "photo-1x.png") (by_fullname (build_index tie_files)) = None
  ∧ dict_get (normalize_stem (splitext "photo-1x.png").1)
             (by_stem (build_index tie_files)) = None
  ∧ ((∃ k bucket p,
        best_key (keys (by_stem (build_index tie_files))) (78 # 100)
                 (normalize_stem (splitext "photo-1x.png").1) k
        ∧ (∀ k', best_key (keys (by_stem (build_index tie_files))) (78 # 100)
                          (normalize_stem (splitext "photo-1x.png").1) k' → k' = k)
        ∧ dict_get k (by_stem (build_index tie_files)) = Some bucket
        ∧ head bucket = Some p
        ∧ match_target (build_index tie_files) (78 # 100) "photo-1x.png"
          = inr (Some (p, fuzzy_match k)))
     ∨ ((∀ k, k ∈ keys (by_stem (build_index tie_files)) →
              (difflib.score (normalize_stem (splitext "photo-1x.png").1) k < 78 # 100)%Q)
        ∧ match_target (build_index tie_files) (78 # 100) "photo-1x.png"
          = tier_partial (build_index tie_files)
                         (normalize_stem (splitext "photo-1x.png").1))).
Proof.
  split; [reflexivity|]. split; [reflexivity|]. split; [reflexivity|].
  apply (fuzzy_selects_greatest tie_files (78 # 100) "photo-1x.png"); reflexivity.
Defined.

(** Two keys of the same ratio 7/8 to the stem "photo-1x": the one met
    second is selected. *)
Lemma fuzzy_tie_not_first_encountered :
  ¬ fuzzy_picks_first_encountered tie_files (78 # 100) "photo-1x.png".
Proof.
  intros H.
  destruct (H ["web"; "photo-1b.png"] "photo-1b" eq_refl)
    as (before & after & Hks & _ & Hb & _).
  vm_compute in Hks.
  destruct before as [|k0 [|k1 before]]; simplify_eq.
  - specialize (Hb "photo-1a" ltac:(left)).
    vm_compute in Hb. discriminate.
  - by destruct before.
Qed.

(** ** How the run ends *)

(** The claim of C7 as it is worded: with no reference image the run is
    aborted, with one it runs to its end. *)
Definition aborts_or_completes (cfg : config) (env : environment)
    (fs0 : filesystem) : Prop :=
  if gather (walked env) is []
  then (run cfg env fs0).1 = inl (SystemExit (WEBSITE_FOLDER cfg))
  else (run cfg env fs0).1 = inr tt.

(** C7 (amended).  With no image file in what the walk of the reference
    tree yields, the run ends in [SystemExit] with exit status 1 after the
    walk alone: the target tree is not listed and the file system, both
    lists and the console are as at the start.  With at least one, the run
    ends normally with exit status 0, whatever number of targets stays
    unmatched, provided no file-system call fails, which holds when the
    target root is a directory, this run's backup directory does not exist
    yet, and the reference files are regular files outside the target
    tree, and provided the cutoff lies in [0, 1]. *)
Theorem empty_reference_aborts (cfg : config) (env : environment) (fs0 : filesystem) :
  (gather (walked env) = [] →
     run cfg env fs0
       = (inl (SystemExit (WEBSITE_FOLDER cfg)),
          State fs0 [] [] [] [Walk (WEBSITE_FOLDER cfg)])
     ∧ exit_status (run cfg env fs0).1 = 1)
  ∧ (gather (walked env) ≠ [] →
     isdir fs0 (ASSETS_IMAGES cfg) = true →
     (∀ q, (ASSETS_IMAGES cfg ++ ["_backup_" +:+ now env]) `prefix_of` q →
           fs0 !! q = None) →
     (∀ p, p ∈ gather (walked env) →
           ¬ ASSETS_IMAGES cfg `prefix_of` p ∧ ∃ d, fs0 !! p = Some (File d)) →
     valid_cutoff (FUZZY_CUTOFF cfg) = true →
     (run cfg env fs0).1 = inr tt
     ∧ exit_status (run cfg env fs0).1 = 0).
Proof.
  split.
  - intros Hnone. rewrite run_eq. cbv zeta. rewrite Hnone. done.
  - intros Hsome Hroot Hfresh Hsources Hcut.
    rewrite (run_returns cfg env fs0 Hroot Hfresh Hsources Hsome Hcut). done.
Qed.

(** ** A run on a small tree *)

Definition ex_cfg : config :=
  {| WEBSITE_FOLDER := ["web"];
     ASSETS_IMAGES := ["assets"];
     DRY_RUN := false;
     MAKE_BACKUP := true;
     FUZZY_CUTOFF := 78 # 100 |}.

Definition ex_env : environment :=
  {| walked := [(["web"], [],
                 ["beach-sunset.jpg"; "photo-1a.png"; "photo-1b.png"; "readme.md"])];
     now := "20240101_000000" |}.

Definition data (s : string) : entry := File (String.list_byte_of_string s).

Definition ex_web : list (path * entry) :=
  [ (["web"], Dir);
    (["web"; "beach-sunset.jpg"], data "beach, new");
    (["web"; "photo-1a.png"], data "photo 1a");
    (["web"; "photo-1b.png"], data "photo 1b");
    (["web"; "readme.md"], data "read me") ].

Definition ex_fs : filesystem :=
  list_to_map
    (ex_web ++
     [ (["assets"], Dir);
       (["assets"; "root.jpg"], data "at the root");
       (["assets"; "gal"], Dir);
       (["assets"; "gal"; "beach_sunset.JPG"], data "beach, old");
       (["assets"; "gal"; "photo-1x.png"], data "photo 1x");
       (["assets"; "gal"; "zzz.png"], data "zzz");
       (["assets"; "gal"; "notes.txt"], data "notes");
       (["assets"; "gal"; "d.jpg"], Dir) ]).

(** The same reference tree, and no target root. *)
Definition ex_fs_no_assets : filesystem := list_to_map ex_web.

Definition ex_env_empty : environment :=
  {| walked := [(["web"], [], ["readme.md"])]; now := "20240101_000000" |}.

Ltac by_computation := apply (bool_decide_unpack _); vm_compute; reflexivity.

Ltac no_such_entry H :=
  simpl in H;
  repeat (apply elem_of_cons in H as [H|H]; [discriminate H|]);
  by apply elem_of_nil in H.

Lemma ex_fs_fresh q :
  (ASSETS_IMAGES ex_cfg ++ ["_backup_" +:+ now ex_env]) `prefix_of` q → ex_fs !! q = None.
Proof.
  intros [k ->]. apply not_elem_of_list_to_map_1. intros H. no_such_entry H.
Qed.

Lemma ex_sources p :
  p ∈ gather (walked ex_env) →
  ¬ ASSETS_IMAGES ex_cfg `prefix_of` p ∧ ∃ d, ex_fs !! p = Some (File d).
Proof.
  intros H. vm_compute in H.
  repeat (apply elem_of_cons in H as [->|H];
          [split; [intros [k Hk]; discriminate Hk
                  |apply isfile_Some; vm_compute; reflexivity]|]).
  by apply elem_of_nil in H.
Qed.

Lemma empty_reference_aborts_witness :
  (run ex_cfg ex_env_empty ex_fs).1 = inl (SystemExit ["web"])
  ∧ (run ex_cfg ex_env ex_fs).1 = inr tt.
Proof.
  split.
  - apply (f_equal fst (proj1 (proj1 (empty_reference_aborts ex_cfg ex_env_empty ex_fs)
                                      eq_refl))).
  - apply (proj2 (empty_reference_aborts ex_cfg ex_env ex_fs)).
    + discriminate.
    + reflexivity.
    + apply ex_fs_fresh.
    + apply ex_sources.
    + reflexivity.
Defined.

(** A reference image exists and the target root does not: [os.listdir]
    raises and the run ends with exit status 1. *)
Lemma missing_target_root_fails :
  ¬ aborts_or_completes ex_cfg ex_env ex_fs_no_assets.
Proof.
  unfold aborts_or_completes.
  assert ((run ex_cfg ex_env ex_fs_no_assets).1 = inl OSError) as -> by (by vm_compute).
  simpl. discriminate.
Qed.

(** The unmatched target [assets/gal/zzz.png] has no line of its own. *)
Lemma unmatched_target_has_no_line :
  ¬ line_for_every_target ex_cfg ex_env ex_fs.
Proof.
  intros H. destruct (H ["assets"; "gal"; "zzz.png"]) as (d & src & m & Hin).
  - by_computation.
  - vm_compute in Hin.
    repeat (apply elem_of_cons in Hin as [Hin|Hin]; [discriminate Hin|]).
    by apply elem_of_nil in Hin.
Qed.

Lemma match_tiers_in_order_witness :
  (∃ p, dict_get (lower "Photo-1A.PNG") (by_fullname (build_index tie_files)) = Some p
        ∧ match_target (build_index tie_files) (78 # 100) "Photo-1A.PNG"
          = inr (Some (p, exact_filename)))
  ∧ (∃ bucket p,
       dict_get (normalize_stem (splitext "Photo_1a.jpg").1)
                (by_stem (build_index tie_files)) = Some bucket
       ∧ head bucket = Some p
       ∧ match_target (build_index tie_files) (78 # 100) "Photo_1a.jpg"
         = inr (Some (p, stem_match))).
Proof.
  split.
  - apply (proj1 (match_tiers_in_order tie_files (78 # 100) "Photo-1A.PNG")).
    by_computation.
  - apply (proj1 (proj2 (match_tiers_in_order tie_files (78 # 100) "Photo_1a.jpg")));
      by_computation.
Defined.

Lemma partial_first_containing_witness :
  ∃ p, head [["web"; "beach-sunset.jpg"]] = Some p
       ∧ match_target (build_index (gather (walked ex_env))) (78 # 100) "sunset.png"
         = inr (Some (p, partial "beach-sunset")).
Proof.
  destruct (partial_first_containing (gather (walked ex_env)) (78 # 100) "sunset.png")
    as [Hfirst _].
  destruct Hfirst as [Hhit _]; [by_computation|by_computation|reflexivity|].
  apply (Hhit [] "beach-sunset" [["web"; "beach-sunset.jpg"]]
              [("photo-1a", [["web"; "photo-1a.png"]]);
               ("photo-1b", [["web"; "photo-1b.png"]])]).
  - reflexivity.
  - constructor.
  - apply contained_spec. reflexivity.
Defined.

Lemma non_targets_untouched_witness :
  (run ex_cfg ex_env ex_fs).2.(fs) !! ["assets"; "root.jpg"]
    = ex_fs !! ["assets"; "root.jpg"]
  ∧ (["assets"; "root.jpg"] ∉ List.map target (replacements (run ex_cfg ex_env ex_fs).2))
  ∧ (["assets"; "root.jpg"] ∉ unmatched (run ex_cfg ex_env ex_fs).2)
  ∧ (∀ x, Copy2 x ["assets"; "root.jpg"] ∉ oplog (run ex_cfg ex_env ex_fs).2)
  ∧ (∀ y, Copy2 ["assets"; "root.jpg"] y ∈ oplog (run ex_cfg ex_env ex_fs).2 →
          is_target ex_cfg ex_fs y).
Proof.
  apply (non_targets_untouched ex_cfg ex_env ex_fs ["assets"; "root.jpg"]).
  - by_computation.
  - intros (sub & n & Hq & _). discriminate Hq.
  - intros (y & z & rest & Hq). discriminate Hq.
Defined.

Lemma dry_run_changes_nothing_witness :
  (run (with_dry_run false ex_cfg) ex_env ex_fs).1 = inr tt
  ∧ fs (run (with_dry_run true ex_cfg) ex_env ex_fs).2 = ex_fs
  ∧ replacements (run (with_dry_run true ex_cfg) ex_env ex_fs).2
    = replacements (run (with_dry_run false ex_cfg) ex_env ex_fs).2
  ∧ unmatched (run (with_dry_run true ex_cfg) ex_env ex_fs).2
    = unmatched (run (with_dry_run false ex_cfg) ex_env ex_fs).2.
Proof.
  assert ((run (with_dry_run false ex_cfg) ex_env ex_fs).1 = inr tt) as Hlive
    by (vm_compute; reflexivity).
  destruct (dry_run_changes_nothing ex_cfg ex_env ex_fs) as (Hfs & _ & Hsame).
  destruct (Hsame Hlive) as (_ & Hr & Hu & _).
  split_and!; done.
Defined.

Lemma backup_before_overwrite_witness :
  let t := ["assets"; "gal"; "beach_sunset.JPG"] in
  let src := ["web"; "beach-sunset.jpg"] in
  let s := (run ex_cfg ex_env ex_fs).2 in
  ∃ sub n dt ds l1 l2,
    t = ASSETS_IMAGES ex_cfg ++ [sub; n]
    ∧ backup_path ex_cfg ex_env t
      = ASSETS_IMAGES ex_cfg ++ ["_backup_" +:+ now ex_env; sub; n]
    ∧ ex_fs !! t = Some (File dt)
    ∧ ex_fs !! src = Some (File ds)
    ∧ oplog s = l1 ++ [Makedirs (dirname (backup_path ex_cfg ex_env t));
                       Copy2 t (backup_path ex_cfg ex_env t);
                       Copy2 src t] ++ l2
    ∧ (∀ x, Copy2 x t ∉ l1) ∧ (∀ x, Copy2 x t ∉ l2)
    ∧ fs s !! backup_path ex_cfg ex_env t = Some (File dt)
    ∧ fs s !! t = Some (File ds)
    ∧ fs s !! src = Some (File ds).
Proof.
  intros t src s.
  apply (backup_before_overwrite ex_cfg ex_env ex_fs t src stem_match).
  - reflexivity.
  - reflexivity.
  - apply ex_fs_fresh.
  - intros p Hp. apply (proj1 (ex_sources p Hp)).
  - vm_compute. left.
Defined.

(** * Further properties of the script *)

(** ** The index in closed form *)

(** The keys lines 54 and 57 file a reference path under. *)
Definition name_key (p : path) : string := lower (basename p).
Definition stem_key (p : path) : string := normalize_stem (splitext (basename p)).1.

(** The distinct elements of a list, each at its first occurrence. *)
Fixpoint first_occurrences (l : list string) : list string :=
  match l with
  | [] => []
  | x :: l' => x :: List.filter (fun y => negb (String.eqb y x)) (first_occurrences l')
  end.

(** The files filed under [k], in the order of the list. *)
Definition with_key (key : path → string) (k : string) (files : list path) : list path :=
  List.filter (fun p => String.eqb (key p) k) files.

Definition nonempty {A} (l : list A) : option (list A) :=
  match l with
  | [] => None
  | _ => Some l
  end.

Lemma dict_get_setdefault {V} k (v : V) d k' :
  dict_get k' (setdefault k v d)
  = match dict_get k' d with
    | Some x => Some x
    | None => if String.eqb k' k then Some v else None
    end.
Proof.
  induction d as [|[k0 v0] d IH]; simpl; [done|].
  destruct (String.eqb_spec k k0) as [Hk|Hk]; simpl.
  - destruct (String.eqb_spec k' k0) as [Hk'|Hk']; [done|].
    destruct (dict_get k' d); [done|].
    destruct (String.eqb_spec k' k); [congruence|done].
  - destruct (String.eqb_spec k' k0) as [Hk'|Hk']; [done|]. apply IH.
Qed.

Lemma dict_get_alter {V} (f : V → V) k d k' :
  dict_get k' (dict_alter f k d)
  = if String.eqb k' k then f <$> dict_get k' d else dict_get k' d.
Proof.
  induction d as [|[k0 v0] d IH]; simpl; [by destruct (String.eqb k' k)|].
  destruct (String.eqb_spec k k0) as [Hk|Hk]; simpl.
  - destruct (String.eqb_spec k' k0) as [Hk'|Hk'].
    + destruct (String.eqb_spec k' k); [done|congruence].
    + destruct (String.eqb_spec k' k); [congruence|done].
  - destruct (String.eqb_spec k' k0) as [Hk'|Hk']; [|apply IH].
    destruct (String.eqb_spec k' k); [congruence|done].
Qed.

Lemma keys_setdefault {V} k (v : V) d :
  keys (setdefault k v d)
  = match dict_get k d with
    | Some _ => keys d
    | None => keys d ++ [k]
    end.
Proof.
  induction d as [|[k0 v0] d IH]; simpl; [done|].
  destruct (String.eqb_spec k k0) as [Hk|Hk]; [done|].
  unfold keys in *. simpl. rewrite IH. by destruct (dict_get k d).
Qed.

Lemma keys_alter {V} (f : V → V) k d : keys (dict_alter f k d) = keys d.
Proof.
  induction d as [|[k0 v0] d IH]; simpl; [done|].
  destruct (String.eqb k k0); [done|]. unfold keys in *. simpl. by rewrite IH.
Qed.

Lemma first_occurrences_elem l x : x ∈ first_occurrences l ↔ x ∈ l.
Proof.
  induction l as [|y l IH]; simpl; [done|].
  rewrite !elem_of_cons, list_elem_of_In, filter_In, <-list_elem_of_In, IH.
  destruct (String.eqb_spec x y) as [->|Hne]; simpl.
  - split; intros _; by left.
  - split; [intros [?|[? _]]; [by left|by right]|].
    intros [?|?]; [by left|by right].
Qed.

Lemma filter_snoc {A} (f : A → bool) l x :
  List.filter f (l ++ [x]) = List.filter f l ++ (if f x then [x] else []).
Proof.
  induction l as [|y l IH]; simpl; [done|]. rewrite IH. by destruct (f y).
Qed.

Lemma first_occurrences_snoc l x :
  first_occurrences (l ++ [x])
  = if bool_decide (x ∈ l) then first_occurrences l else first_occurrences l ++ [x].
Proof.
  induction l as [|y l IH]; simpl; [done|]. rewrite IH.
  destruct (String.eqb_spec x y) as [->|Hne].
  - rewrite (bool_decide_eq_true_2 (y ∈ y :: l)) by left.
    destruct (bool_decide (y ∈ l)); [done|].
    rewrite filter_snoc, String.eqb_refl. simpl. by rewrite app_nil_r.
  - destruct (bool_decide (x ∈ l)) eqn:Hin.
    + apply bool_decide_eq_true in Hin.
      by rewrite (bool_decide_eq_true_2 (x ∈ y :: l)) by by right.
    + apply bool_decide_eq_false in Hin.
      rewrite (bool_decide_eq_false_2 (x ∈ y :: l)).
      2:{ by intros [?|?]%elem_of_cons. }
      rewrite filter_snoc. by destruct (String.eqb_spec x y).
Qed.

Lemma build_index_snoc files p :
  build_index (files ++ [p]) = index_add (build_index files) p.
Proof. unfold build_index. by rewrite fold_left_app. Qed.

Lemma with_key_snoc key k files p :
  with_key key k (files ++ [p])
  = with_key key k files ++ (if String.eqb (key p) k then [p] else []).
Proof. unfold with_key. apply (filter_snoc (fun q => String.eqb (key q) k)). Qed.

(** Both maps of the index, as functions of the list of reference files. *)
Lemma build_index_closed files :
  let idx := build_index files in
  keys (by_fullname idx) = first_occurrences (List.map name_key files)
  ∧ (∀ k, dict_get k (by_fullname idx) = head (with_key name_key k files))
  ∧ keys (by_stem idx) = first_occurrences (List.map stem_key files)
  ∧ (∀ k, dict_get k (by_stem idx) = nonempty (with_key stem_key k files)).
Proof.
  induction files as [|p files IH] using rev_ind; [done|].
  rewrite build_index_snoc. destruct IH as (Kf & Gf & Ks & Gs).
  set (idx := build_index files) in *. cbv zeta. unfold index_add. simpl.
  fold (name_key p) (stem_key p). split_and!.
  - rewrite keys_setdefault, map_app. cbn [List.map].
    rewrite first_occurrences_snoc, Kf.
    destruct (dict_get (name_key p) (by_fullname idx)) eqn:Hg.
    + rewrite bool_decide_eq_true_2; [done|].
      apply first_occurrences_elem. rewrite <-Kf. apply dict_get_keys. by eexists.
    + rewrite bool_decide_eq_false_2; [done|].
      rewrite <-first_occurrences_elem, <-Kf. by apply dict_get_None.
  - intros k. rewrite dict_get_setdefault, Gf, with_key_snoc, String.eqb_sym.
    destruct (with_key name_key k files); simpl; [|done].
    by destruct (String.eqb (name_key p) k).
  - rewrite keys_alter, keys_setdefault, map_app. cbn [List.map].
    rewrite first_occurrences_snoc, Ks.
    destruct (dict_get (stem_key p) (by_stem idx)) eqn:Hg.
    + rewrite bool_decide_eq_true_2; [done|].
      apply first_occurrences_elem. rewrite <-Ks. apply dict_get_keys. by eexists.
    + rewrite bool_decide_eq_false_2; [done|].
      rewrite <-first_occurrences_elem, <-Ks. by apply dict_get_None.
  - intros k. rewrite dict_get_alter, dict_get_setdefault, Gs, with_key_snoc.
    rewrite (String.eqb_sym k). destruct (String.eqb (stem_key p) k).
    + destruct (with_key stem_key k files); simpl; done.
    + rewrite app_nil_r. by destruct (with_key stem_key k files).
Qed.

Lemma filter_NoDup {A} (f : A → bool) (l : list A) : NoDup l → NoDup (List.filter f l).
Proof.
  induction 1 as [|x l Hx Hnd IH]; simpl; [constructor|].
  destruct (f x); [|done]. constructor; [|done].
  intros [Hin _]%list_elem_of_In%filter_In. by apply Hx, list_elem_of_In.
Qed.

Lemma first_occurrences_NoDup l : NoDup (first_occurrences l).
Proof.
  induction l as [|x l IH]; simpl; constructor; [|by apply filter_NoDup].
  intros [_ Hx]%list_elem_of_In%filter_In. by rewrite String.eqb_refl in Hx.
Qed.

Lemma head_with_key key k files p :
  head (with_key key k files) = Some p →
  key p = k
  ∧ ∃ pre post, files = pre ++ p :: post ∧ Forall (fun q => key q ≠ k) pre.
Proof.
  unfold with_key. induction files as [|q files IH]; simpl; [done|].
  destruct (String.eqb_spec (key q) k) as [Hq|Hq]; simpl.
  - intros [= ->]. split; [done|]. by exists [], files.
  - intros (Hk & pre & post & -> & Hpre)%IH. split; [done|].
    exists (q :: pre), post. split; [done|]. by constructor.
Qed.

(** X1.  The exact-name map holds one entry per lowercased base name of
    the reference files, in the order in which the names first occur, and
    the path stored under a name is the first reference file of that name:
    a later file of the same name never takes its place. *)
Theorem exact_map_first_seen (website_files : list path) :
  let idx := build_index website_files in
  keys (by_fullname idx) = first_occurrences (List.map name_key website_files)
  ∧ NoDup (keys (by_fullname idx))
  ∧ (∀ k, dict_get k (by_fullname idx) = head (with_key name_key k website_files))
  ∧ (∀ k p, dict_get k (by_fullname idx) = Some p →
       lower (basename p) = k
       ∧ ∃ pre post, website_files = pre ++ p :: post
                     ∧ Forall (fun q => lower (basename q) ≠ k) pre).
Proof.
  intros idx. destruct (build_index_closed website_files) as (Kf & Gf & _ & _).
  fold idx in Kf, Gf. split_and!; [done| |done|].
  - rewrite Kf. apply first_occurrences_NoDup.
  - intros k p Hp. rewrite Gf in Hp. by apply head_with_key in Hp.
Qed.

(** X2.  The stem map holds one bucket per normalized stem of the
    reference files, in the order in which the stems first occur, and the
    bucket of a stem is the list of all reference files of that stem in
    the order of the walk: every reference file is in exactly the bucket
    of its own stem. *)
Theorem stem_map_buckets (website_files : list path) :
  let idx := build_index website_files in
  keys (by_stem idx) = first_occurrences (List.map stem_key website_files)
  ∧ NoDup (keys (by_stem idx))
  ∧ (∀ k, dict_get k (by_stem idx) = nonempty (with_key stem_key k website_files))
  ∧ (∀ k bucket p, dict_get k (by_stem idx) = Some bucket →
       (p ∈ bucket ↔ p ∈ website_files
                      ∧ normalize_stem (splitext (basename p)).1 = k)).
Proof.
  intros idx. destruct (build_index_closed website_files) as (_ & _ & Ks & Gs).
  fold idx in Ks, Gs. split_and!; [done| |done|].
  - rewrite Ks. apply first_occurrences_NoDup.
  - intros k bucket p Hb. rewrite Gs in Hb.
    assert (bucket = with_key stem_key k website_files) as ->.
    { destruct (with_key stem_key k website_files); [done|]. by injection Hb. }
    unfold with_key. rewrite list_elem_of_In, filter_In, <-list_elem_of_In.
    rewrite String.eqb_eq. done.
Qed.

Lemma dict_get_NoDup {V} (d : list (string * V)) pre k v post :
  NoDup (keys d) → d = pre ++ (k, v) :: post → dict_get k d = Some v.
Proof.
  intros Hnd ->. induction pre as [|[k0 v0] pre IH]; simpl.
  - by rewrite String.eqb_refl.
  - unfold keys in Hnd. simpl in Hnd. apply NoDup_cons in Hnd as [Hk0 Hnd].
    destruct (String.eqb_spec k k0) as [->|_]; [|by apply IH].
    exfalso. apply Hk0. apply list_elem_of_In, in_map_iff.
    exists (k0, v). split; [done|]. apply in_or_app. right. by left.
Qed.

Lemma nonempty_first_path (l bucket : list path) p :
  nonempty l = Some bucket → first_path bucket = inr p → head l = Some p.
Proof. destruct l; [done|]. intros [= <-] [= <-]. done. Qed.

(** X3.  What a method tag says of the source it comes with.  The source
    of [exact_filename] is the first reference file whose lowercased name
    is the lowercased target name; that of [stem_match] the first one
    whose normalized stem is the target's; that of [fuzzy_match(k)] and
    of [partial(k)] the first one whose normalized stem is [k], where [k]
    differs from the target's stem and, for fuzzy, has a ratio of at least
    the cutoff and, for partial, contains the target's stem or lies in
    it. *)
Theorem method_tells_source (website_files : list path) (cutoff : Q)
    (fname : string) (src : path) (m : method) :
  let tnorm := normalize_stem (splitext fname).1 in
  match_target (build_index website_files) cutoff fname = inr (Some (src, m)) →
  match m with
  | exact_filename =>
      head (with_key name_key (lower fname) website_files) = Some src
  | stem_match =>
      with_key name_key (lower fname) website_files = []
      ∧ head (with_key stem_key tnorm website_files) = Some src
  | fuzzy_match k =>
      with_key name_key (lower fname) website_files = []
      ∧ head (with_key stem_key k website_files) = Some src
      ∧ k ≠ tnorm ∧ (cutoff <= difflib.score tnorm k)%Q
  | partial k =>
      with_key name_key (lower fname) website_files = []
      ∧ head (with_key stem_key k website_files) = Some src
      ∧ k ≠ tnorm ∧ contained tnorm k
  end.
Proof.
  intros tnorm. destruct (build_index_closed website_files) as (_ & Gf & Ks & Gs).
  set (idx := build_index website_files) in *. unfold match_target. fold tnorm.
  assert (NoDup (keys (by_stem idx))) as Hnd.
  { rewrite Ks. apply first_occurrences_NoDup. }
  unfold tier_exact.
  destruct (dict_get (lower fname) (by_fullname idx)) as [p|] eqn:He; simpl.
  { intros [= -> <-]. by rewrite <-Gf. }
  assert (with_key name_key (lower fname) website_files = []) as Hno.
  { rewrite Gf in He. by destruct (with_key name_key (lower fname) website_files). }
  unfold tier_stem.
  destruct (dict_get tnorm (by_stem idx)) as [bucket|] eqn:Hs; simpl.
  { destruct (first_path bucket) as [e|p] eqn:Hp; simpl; [done|].
    intros [= -> <-]. split; [done|]. rewrite Gs in Hs.
    by eapply nonempty_first_path. }
  unfold tier_fuzzy.
  destruct (difflib.get_close_matches tnorm (keys (by_stem idx)) cutoff)
    as [[|k rest]|] eqn:Hg; simpl; [| |done].
  - unfold tier_partial.
    destruct (find_partial tnorm (by_stem idx)) as [[w paths]|] eqn:Hf; simpl; [|done].
    destruct (first_path paths) as [e|p] eqn:Hp; simpl; [done|].
    intros [= -> <-]. apply find_partial_Some in Hf as (pre & post & Hby & _ & Hc).
    assert (dict_get w (by_stem idx) = Some paths) as Hw.
    { by eapply dict_get_NoDup. }
    split; [done|]. split_and!; [|congruence|done].
    rewrite Gs in Hw. by eapply nonempty_first_path.
  - destruct (dict_get k (by_stem idx)) as [bucket|] eqn:Hk; simpl; [|done].
    destruct (first_path bucket) as [e|p] eqn:Hp; simpl; [done|].
    intros [= -> <-]. split; [done|].
    apply get_close_matches_elem in Hg as (_ & Hpass & _).
    rewrite passes_ratio in Hpass. apply Qle_bool_iff in Hpass.
    split_and!; [|congruence|done].
    rewrite Gs in Hk. by eapply nonempty_first_path.
Qed.

Lemma method_tells_source_witness :
  with_key name_key (lower "photo-1x.png") tie_files = []
  ∧ head (with_key stem_key "photo-1b" tie_files) = Some ["web"; "photo-1b.png"]
  ∧ "photo-1b" ≠ normalize_stem (splitext "photo-1x.png").1
  ∧ (78 # 100 <= difflib.score (normalize_stem (splitext "photo-1x.png").1) "photo-1b")%Q.
Proof.
  apply (method_tells_source tie_files (78 # 100) "photo-1x.png"
           ["web"; "photo-1b.png"] (fuzzy_match "photo-1b")).
  reflexivity.
Defined.

(** ** Stems that normalize to nothing *)

Lemma substring_of_empty x : is_substring "" x.
Proof. exists "", x. reflexivity. Qed.

Lemma build_index_keys_nonempty files :
  files ≠ [] → by_stem (build_index files) ≠ [].
Proof.
  intros Hne Hnil. destruct (build_index_closed files) as (_ & _ & Ks & _).
  rewrite Hnil in Ks. destruct files as [|p files]; [done|]. discriminate Ks.
Qed.

(** X4.  The empty string lies in every string, so the containment tier
    cannot miss where an empty stem is involved: with at least one
    reference file and a cutoff in [0, 1], a target whose stem normalizes
    to the empty string is matched whatever the reference files are
    called, and where a reference file has such a stem every target is
    matched. *)
Theorem empty_stem_always_matched (website_files : list path) (cutoff : Q)
    (fname : string) :
  let idx := build_index website_files in
  website_files ≠ [] →
  valid_cutoff cutoff = true →
  normalize_stem (splitext fname).1 = "" ∨ "" ∈ keys (by_stem idx) →
  ∃ src m, match_target idx cutoff fname = inr (Some (src, m)).
Proof.
  intros idx Hfiles Hv Hempty.
  pose proof (build_index_nonempty website_files) as Hne. fold idx in Hne.
  set (tnorm := normalize_stem (splitext fname).1) in *.
  destruct (dict_get (lower fname) (by_fullname idx)) as [p|] eqn:He.
  { exists p, exact_filename. by apply match_target_exact. }
  destruct (dict_get tnorm (by_stem idx)) as [bucket|] eqn:Hs.
  { destruct (tier_stem_hit idx tnorm bucket Hne Hs) as (p & _ & Ht).
    exists p, stem_match. by apply match_target_stem. }
  rewrite (match_target_later idx cutoff fname He Hs). cbv zeta. fold tnorm.
  destruct (get_close_matches_spec tnorm (keys (by_stem idx)) cutoff Hv)
    as [(k & Hg & Hbest)|[Hg _]].
  { destruct (tier_fuzzy_hit idx cutoff tnorm k [] Hne Hg (proj1 Hbest))
      as (bucket & p & _ & _ & ->).
    by exists p, (fuzzy_match k). }
  assert (tier_fuzzy idx cutoff tnorm = inr None) as ->.
  { unfold tier_fuzzy. by rewrite Hg. }
  simpl.
  destruct (find_partial tnorm (by_stem idx)) as [[w paths]|] eqn:Hf.
  { destruct (tier_partial_hit idx tnorm w paths Hne Hf) as (p & _ & ->).
    by exists p, (partial w). }
  exfalso. apply find_partial_None in Hf. rewrite Forall_forall in Hf.
  destruct Hempty as [Ht|Hk].
  - pose proof (build_index_keys_nonempty website_files Hfiles) as Hby.
    fold idx in Hby. destruct (by_stem idx) as [|[w paths] items]; [done|].
    apply (Hf (w, paths)); [left|]. left. rewrite Ht. apply substring_of_empty.
  - apply dict_get_keys in Hk as [bucket Hk]. apply dict_get_elem in Hk.
    apply (Hf _ Hk). right. apply substring_of_empty.
Qed.

Lemma empty_stem_always_matched_witness :
  ∃ src m, match_target (build_index tie_files) (78 # 100) "###.png"
           = inr (Some (src, m)).
Proof.
  apply (empty_stem_always_matched tie_files (78 # 100) "###.png").
  - discriminate.
  - reflexivity.
  - left. reflexivity.
Defined.

(** ** A cutoff outside [0, 1] *)

(** X5.  With a cutoff below 0 or above 1 the matcher raises [ValueError]
    exactly for the targets that reach the fuzzy tier, that is, those with
    neither an exact nor a stem hit; the other targets get their exact or
    stem match as with any cutoff. *)
Theorem invalid_cutoff_raises (website_files : list path) (cutoff : Q)
    (fname : string) :
  let idx := build_index website_files in
  let tnorm := normalize_stem (splitext fname).1 in
  valid_cutoff cutoff = false →
  (match_target idx cutoff fname = inl ValueError
   ↔ (lower fname ∉ keys (by_fullname idx)) ∧ (tnorm ∉ keys (by_stem idx)))
  ∧ (lower fname ∈ keys (by_fullname idx) ∨ tnorm ∈ keys (by_stem idx) →
     ∃ src m, match_target idx cutoff fname = inr (Some (src, m))
              ∧ (m = exact_filename ∨ m = stem_match)).
Proof.
  intros idx tnorm Hv.
  pose proof (build_index_nonempty website_files) as Hne. fold idx in Hne.
  assert (difflib.get_close_matches tnorm (keys (by_stem idx)) cutoff = None) as Hg.
  { unfold difflib.get_close_matches. unfold valid_cutoff in Hv. by rewrite Hv. }
  destruct (dict_get (lower fname) (by_fullname idx)) as [p|] eqn:He.
  { assert (lower fname ∈ keys (by_fullname idx)) as Hin.
    { apply dict_get_keys. by eexists. }
    rewrite (match_target_exact idx cutoff fname p He). split.
    - split; [done|]. by intros [? _].
    - intros _. exists p, exact_filename. split; [done|by left]. }
  apply dict_get_None in He as He'.
  destruct (dict_get tnorm (by_stem idx)) as [bucket|] eqn:Hs.
  { assert (tnorm ∈ keys (by_stem idx)) as Hin.
    { apply dict_get_keys. by eexists. }
    destruct (tier_stem_hit idx tnorm bucket Hne Hs) as (p & _ & Ht).
    rewrite (match_target_stem idx cutoff fname p He Ht). split.
    - split; [done|]. by intros [_ ?].
    - intros _. exists p, stem_match. split; [done|by right]. }
  apply dict_get_None in Hs as Hs'.
  rewrite (match_target_later idx cutoff fname He Hs). cbv zeta. fold tnorm.
  unfold tier_fuzzy. rewrite Hg. simpl. split; [done|].
  intros [?|?]; done.
Qed.

Lemma invalid_cutoff_raises_witness :
  match_target (build_index tie_files) (3 # 2) "zzz.png" = inl ValueError
  ∧ ∃ src m, match_target (build_index tie_files) (3 # 2) "Photo_1a.jpg"
             = inr (Some (src, m)) ∧ (m = exact_filename ∨ m = stem_match).
Proof.
  split.
  - apply (proj1 (invalid_cutoff_raises tie_files (3 # 2) "zzz.png" eq_refl)).
    split; by_computation.
  - apply (proj2 (invalid_cutoff_raises tie_files (3 # 2) "Photo_1a.jpg" eq_refl)).
    right. by_computation.
Defined.

(** ** The summary *)

Definition is_unmatched_item (l : line) : bool :=
  match l with
  | UnmatchedItem _ => true
  | _ => false
  end.

Lemma filter_none {A} (f : A → bool) (l : list A) :
  (∀ x, x ∈ l → f x = false) → List.filter f l = [].
Proof.
  induction l as [|x l IH]; intros H; simpl; [done|].
  rewrite (H x) by left. apply IH. intros y Hy. apply H. by right.
Qed.

Lemma filter_all {A} (f : A → bool) (l : list A) :
  (∀ x, x ∈ l → f x = true) → List.filter f l = l.
Proof.
  induction l as [|x l IH]; intros H; simpl; [done|].
  rewrite (H x) by left. f_equal. apply IH. intros y Hy. apply H. by right.
Qed.

Lemma summary_lines_items cfg broot files rs us :
  List.filter is_unmatched_item (summary_lines cfg broot files rs us)
  = List.map UnmatchedItem (take 20 us).
Proof.
  unfold summary_lines. rewrite !List.filter_app. simpl.
  assert (List.filter is_unmatched_item
            (if rs is [] then []
             else ReplacementsHeader
                  :: List.map (fun '(t, s, m) => ReplacementItem t s m) rs) = []) as ->.
  { apply filter_none. intros l Hl. destruct rs as [|r0 rs']; [by apply elem_of_nil in Hl|].
    apply elem_of_cons in Hl as [->|Hl]; [done|].
    by apply list_elem_of_In, in_map_iff in Hl as ([[t src] m'] & <- & _). }
  assert (List.filter is_unmatched_item
            (if MAKE_BACKUP cfg
             then [match broot with Some root => BackupsIn root | None => NoBackups end]
             else []) = []) as ->.
  { destruct (MAKE_BACKUP cfg); [|done]. by destruct broot. }
  simpl. rewrite app_nil_r. destruct us as [|u0 us']; [done|]. simpl.
  f_equal. apply filter_all. intros l Hl.
  by apply list_elem_of_In, in_map_iff in Hl as (p & <- & _).
Qed.

Lemma notices_items cfg rs : List.filter is_unmatched_item (notices cfg rs) = [].
Proof.
  apply filter_none. intros l Hl.
  by apply list_elem_of_In, in_map_iff in Hl as ([[t src] m'] & <- & _).
Qed.

(** The console of a run that ends normally. *)
Lemma run_stdout cfg env fs0 s :
  run cfg env fs0 = (inr tt, s) →
  stdout s = notices cfg (replacements s)
             ++ summary_lines cfg (take_backup_root cfg env) (gather (walked env))
                  (replacements s) (unmatched s).
Proof.
  intros Hrun. apply run_final in Hrun as (s1 & Hfin & ->). simpl.
  by rewrite (fi_out _ _ _ _ Hfin).
Qed.

(** X6.  The summary of a run that ends normally: the counts are those of
    the reference files gathered and of the replacements made; the
    unmatched targets are counted in full and itemized up to the first
    twenty, in their order; with [MAKE_BACKUP] set the backup directory is
    announced whether or not the run has made a backup (also in a dry run
    and with no replacement at all), and the line that tells of no backup
    never appears; the last line is the closing one. *)
Theorem summary_itemizes_twenty (cfg : config) (env : environment)
    (fs0 : filesystem) :
  let s := (run cfg env fs0).2 in
  (run cfg env fs0).1 = inr tt →
  List.filter is_unmatched_item (stdout s)
    = List.map UnmatchedItem (take 20 (unmatched s))
  ∧ (unmatched s ≠ [] → UnmatchedCount (length (unmatched s)) ∈ stdout s)
  ∧ TotalScanned (length (gather (walked env))) ∈ stdout s
  ∧ TotalReplacements (length (replacements s)) ∈ stdout s
  ∧ (NoBackups ∉ stdout s)
  ∧ (MAKE_BACKUP cfg = true →
     BackupsIn (ASSETS_IMAGES cfg ++ ["_backup_" +:+ now env]) ∈ stdout s)
  ∧ last (stdout s) = Some Done.
Proof.
  intros s Hr. subst s. destruct (run cfg env fs0) as [r s] eqn:Hrun.
  simpl in *. subst r. rewrite (run_stdout cfg env fs0 s Hrun).
  set (rs := replacements s). set (us := unmatched s).
  split_and!.
  - by rewrite List.filter_app, notices_items, summary_lines_items.
  - intros Hus. apply elem_of_app. right. unfold summary_lines.
    apply elem_of_app. right. apply elem_of_app. right. apply elem_of_app. left.
    destruct us; [done|]. left.
  - apply elem_of_app. right. unfold summary_lines. apply elem_of_app. left.
    right. left.
  - apply elem_of_app. right. unfold summary_lines. apply elem_of_app. left.
    right. right. left.
  - intros [Hin|Hin]%elem_of_app.
    + by apply list_elem_of_In, in_map_iff in Hin as ([[t src] m'] & ? & _).
    + unfold summary_lines, take_backup_root in Hin.
      repeat (apply elem_of_app in Hin as [Hin|Hin]).
      * no_such_entry Hin.
      * destruct rs as [|r0 rs']; [by apply elem_of_nil in Hin|].
        apply elem_of_cons in Hin as [?|Hin]; [done|].
        by apply list_elem_of_In, in_map_iff in Hin as ([[t src] m'] & ? & _).
      * destruct us as [|u0 us']; [by apply elem_of_nil in Hin|].
        apply elem_of_cons in Hin as [?|Hin]; [done|].
        apply elem_of_cons in Hin as [?|Hin]; [done|].
        by apply list_elem_of_In, in_map_iff in Hin as (p & ? & _).
      * destruct (MAKE_BACKUP cfg); no_such_entry Hin.
      * no_such_entry Hin.
  - intros Hmb. apply elem_of_app. right. unfold summary_lines, take_backup_root.
    rewrite Hmb. do 3 (apply elem_of_app; right). apply elem_of_app. left. left.
  - unfold summary_lines. by rewrite !app_assoc, last_snoc.
Qed.

Lemma summary_itemizes_twenty_witness :
  List.filter is_unmatched_item (stdout (run ex_cfg ex_env ex_fs).2)
    = [UnmatchedItem ["assets"; "gal"; "zzz.png"]]
  ∧ BackupsIn ["assets"; "_backup_20240101_000000"] ∈ stdout (run ex_cfg ex_env ex_fs).2.
Proof.
  destruct (summary_itemizes_twenty ex_cfg ex_env ex_fs) as (H1 & _ & _ & _ & _ & H2 & _).
  - reflexivity.
  - split; [apply H1|by apply H2].
Defined.

(** ** Every target is decided *)

Section every_target.
Context (cfg : config) (env : environment) (fs0 : filesystem) (idx : index).

Lemma process_file_records sub n s s' :
  isdir fs0 (ASSETS_IMAGES cfg ++ [sub]) = true →
  fs_inv cfg env fs0 (fs s) →
  process_file cfg idx (take_backup_root cfg env) (ASSETS_IMAGES cfg ++ [sub]) n s
    = (inr tt, s') →
  fs_inv cfg env fs0 (fs s')
  ∧ (∀ t, t ∈ recorded s → t ∈ recorded s')
  ∧ (is_target cfg fs0 (ASSETS_IMAGES cfg ++ [sub; n]) →
     ASSETS_IMAGES cfg ++ [sub; n] ∈ recorded s').
Proof.
  intros Hsub Hinv. rewrite process_file_eq. unfold join.
  rewrite <-app_assoc. simpl.
  rewrite (fs_inv_isfile cfg env fs0 (fs s) sub n Hinv).
  set (t := ASSETS_IMAGES cfg ++ [sub; n]).
  destruct (isfile fs0 t) eqn:Hf; simpl.
  2:{ intros [= <-]. split_and!; [done..|].
      intros (sub' & n' & Heq & _ & Hf' & _). congruence. }
  destruct (is_image n) eqn:Hi; simpl.
  2:{ intros [= <-]. split_and!; [done..|].
      intros (sub' & n' & Heq & _ & _ & Hi').
      apply app_inv_head in Heq. injection Heq as -> ->. congruence. }
  assert (is_target cfg fs0 t) as Ht by by exists sub, n.
  destruct (match_target idx (FUZZY_CUTOFF cfg) n) as [e|[[src m]|]]; [done| |].
  - destruct (transfer cfg _ t src (fs s)) as [[ops fs'] r'] eqn:Htr.
    destruct (transfer_inv cfg env fs0 t src (fs s) ops fs' r' Ht Hinv Htr)
      as (Hfs' & _).
    destruct r' as [e|[]]; intros [= <-]. unfold recorded. simpl.
    split_and!; [done| |].
    + intros q [Hq|Hq]%elem_of_app; apply elem_of_app; [left|by right].
      rewrite map_app. apply elem_of_app. by left.
    + intros _. apply elem_of_app. left. rewrite map_app. apply elem_of_app.
      right. left.
  - intros [= <-]. unfold recorded. simpl. split_and!; [done| |].
    + intros q [Hq|Hq]%elem_of_app; apply elem_of_app; [by left|right].
      apply elem_of_app. by left.
    + intros _. apply elem_of_app. right. apply elem_of_app. right. left.
Qed.

Lemma process_sub_records sub s s' :
  is_Some (fs0 !! (ASSETS_IMAGES cfg ++ [sub])) →
  fs_inv cfg env fs0 (fs s) →
  process_sub cfg idx (take_backup_root cfg env) sub s = (inr tt, s') →
  fs_inv cfg env fs0 (fs s')
  ∧ (∀ t, t ∈ recorded s → t ∈ recorded s')
  ∧ (∀ n, is_target cfg fs0 (ASSETS_IMAGES cfg ++ [sub; n]) →
          ASSETS_IMAGES cfg ++ [sub; n] ∈ recorded s').
Proof.
  intros Hex Hinv. rewrite process_sub_eq. cbv zeta.
  change (join (ASSETS_IMAGES cfg) [sub]) with (ASSETS_IMAGES cfg ++ [sub]).
  rewrite (fs_inv_isdir cfg env fs0 (fs s) sub Hinv Hex).
  set (subpath := ASSETS_IMAGES cfg ++ [sub]).
  destruct (isdir fs0 subpath) eqn:Hd.
  2:{ intros [= <-]. split_and!; [done..|].
      intros n (sub' & n' & Heq & Hd' & _).
      apply app_inv_head in Heq. injection Heq as <- <-.
      fold subpath in Hd'. congruence. }
  destruct (listdir (fs s) subpath) as [e|names] eqn:Hl; [done|].
  apply listdir_spec in Hl as (_ & _ & Hnames).
  intros Hrun.
  pose proof (for_each_inv
    (fun rest s1 =>
       fs_inv cfg env fs0 (fs s1)
       ∧ (∀ t, t ∈ recorded s → t ∈ recorded s1)
       ∧ (∀ n, n ∈ sorted names → n ∉ rest →
               is_target cfg fs0 (ASSETS_IMAGES cfg ++ [sub; n]) →
               ASSETS_IMAGES cfg ++ [sub; n] ∈ recorded s1))
    (fun _ => True)
    (process_file cfg idx (take_backup_root cfg env) subpath)) as Hloop.
  specialize (Hloop) with (l := sorted names) (r := inr tt) (s' := s')
    (s := logged [Isdir subpath; Listdir subpath] s).
  destruct Hloop as (Hfs' & Hmono & Hall); [| |done|].
  - intros x rest s1 r1 s1' (Hinv1 & Hmono1 & Hseen1) Hbody.
    destruct r1 as [e|[]]; [done|].
    destruct (process_file_records sub x s1 s1' Hd Hinv1 Hbody)
      as (Hinv1' & Hmono1' & Hx).
    split_and!; [done|by auto|].
    intros n Hn Hrest Ht. destruct (decide (n = x)) as [->|Hne]; [by apply Hx|].
    apply Hmono1', Hseen1; [done| |done].
    by intros [?|?]%elem_of_cons.
  - split_and!; [done|done|]. intros n Hn Hrest. done.
  - split_and!; [done|done|]. intros n Ht. apply Hall; [|by intros ?%elem_of_nil|done].
    apply sorted_elem, Hnames.
    destruct (fs_inv_target_file cfg env fs0 (fs s) _ Hinv Ht) as [d Hfile].
    unfold subpath. rewrite <-app_assoc. simpl. by eexists.
Qed.

Lemma subs_records subs s s' :
  (∀ sub, sub ∈ subs → is_Some (fs0 !! (ASSETS_IMAGES cfg ++ [sub]))) →
  fs_inv cfg env fs0 (fs s) →
  for_each subs (process_sub cfg idx (take_backup_root cfg env)) s = (inr tt, s') →
  ∀ sub n, sub ∈ subs → is_target cfg fs0 (ASSETS_IMAGES cfg ++ [sub; n]) →
           ASSETS_IMAGES cfg ++ [sub; n] ∈ recorded s'.
Proof.
  intros Hex Hinv Hrun.
  pose proof (for_each_inv
    (fun rest s1 =>
       (∀ sub, sub ∈ rest → is_Some (fs0 !! (ASSETS_IMAGES cfg ++ [sub])))
       ∧ fs_inv cfg env fs0 (fs s1)
       ∧ (∀ sub n, sub ∈ subs → sub ∉ rest →
                   is_target cfg fs0 (ASSETS_IMAGES cfg ++ [sub; n]) →
                   ASSETS_IMAGES cfg ++ [sub; n] ∈ recorded s1))
    (fun _ => True)
    (process_sub cfg idx (take_backup_root cfg env))) as Hloop.
  specialize (Hloop) with (l := subs) (r := inr tt) (s' := s') (s := s).
  destruct Hloop as (_ & _ & Hall); [| |done|].
  - intros x rest s1 r1 s1' (Hex1 & Hinv1 & Hseen1) Hbody.
    destruct r1 as [e|[]]; [done|].
    destruct (process_sub_records x s1 s1' (Hex1 x ltac:(left)) Hinv1 Hbody)
      as (Hinv1' & Hmono1' & Hx).
    split_and!; [intros sub ?; apply Hex1; by right|done|].
    intros sub n Hsub Hrest Ht.
    destruct (decide (sub = x)) as [->|Hne]; [by apply Hx|].
    apply Hmono1', Hseen1; [done| |done].
    by intros [?|?]%elem_of_cons.
  - split_and!; [done|done|]. intros sub n Hsub Hrest. done.
  - intros sub n Hsub Ht. apply Hall; [done|by intros ?%elem_of_nil|done].
Qed.
End every_target.

Lemma run_records cfg env fs0 s t :
  run cfg env fs0 = (inr tt, s) → is_target cfg fs0 t → t ∈ recorded s.
Proof.
  rewrite run_eq. cbv zeta.
  destruct (gather (walked env)) as [|f files]; [done|].
  destruct (listdir fs0 (ASSETS_IMAGES cfg)) as [e|subs] eqn:Hl; [done|].
  apply listdir_spec in Hl as (_ & _ & Hsubs).
  destruct (for_each _ _ _) as [[e|[]] s1] eqn:Hloop; [done|].
  intros [= <-] Ht. pose proof Ht as (sub & n & -> & Hd & _).
  change (recorded (printed _ s1)) with (recorded s1).
  eapply (subs_records cfg env fs0); [| |done| |done].
  - intros sub' Hin. apply Hsubs. by apply sorted_elem.
  - apply fs_inv_initial.
  - apply sorted_elem, Hsubs. apply isdir_Some in Hd. by eexists.
Qed.

(** X7.  A run that ends normally has decided every target: each image
    file directly inside a first-level subdirectory of the target root is
    in the replacements list or in the unmatched list, in one of them and
    once, and nothing else is in either list. *)
Theorem every_target_decided (cfg : config) (env : environment) (fs0 : filesystem) :
  let s := (run cfg env fs0).2 in
  (run cfg env fs0).1 = inr tt →
  (∀ t, is_target cfg fs0 t ↔ t ∈ List.map target (replacements s) ++ unmatched s)
  ∧ NoDup (List.map target (replacements s) ++ unmatched s).
Proof.
  intros s Hr. subst s. destruct (run cfg env fs0) as [r s] eqn:Hrun.
  simpl in *. subst r. pose proof Hrun as Hfin.
  apply run_final in Hfin as (s1 & Hfin & Hs).
  assert (recorded s = recorded s1) as Hrec by by rewrite Hs.
  fold (recorded s). split.
  - intros t. split; [by apply (run_records cfg env fs0)|].
    rewrite Hrec. intros Hin.
    pose proof (fi_rec _ _ _ _ Hfin) as Hall. rewrite Forall_forall in Hall.
    by apply Hall.
  - rewrite Hrec. apply (fi_nodup _ _ _ _ Hfin).
Qed.

Lemma every_target_decided_witness :
  (∀ t, is_target ex_cfg ex_fs t
        ↔ t ∈ List.map target (replacements (run ex_cfg ex_env ex_fs).2)
              ++ unmatched (run ex_cfg ex_env ex_fs).2)
  ∧ NoDup (List.map target (replacements (run ex_cfg ex_env ex_fs).2)
           ++ unmatched (run ex_cfg ex_env ex_fs).2).
Proof. apply (every_target_decided ex_cfg ex_env ex_fs). reflexivity. Defined.

(** ** What a transfer leaves of the targets *)

Section targets_kept.
Context (cfg : config) (env : environment) (fs0 : filesystem).

Lemma not_target_deep q : deep cfg env q → ¬ is_target cfg fs0 q.
Proof.
  intros Hd Ht. apply (deep_length cfg env) in Hd.
  apply (target_length cfg fs0) in Ht. lia.
Qed.

Lemma backup_effect_targets t fss ops fs1 r :
  is_target cfg fs0 t → fs_inv cfg env fs0 fss →
  backup_effect cfg (take_backup_root cfg env) t fss = (ops, fs1, r) →
  ∀ q, is_target cfg fs0 q → fs1 !! q = fss !! q.
Proof.
  intros Ht Hinv. unfold backup_effect, take_backup_root.
  destruct (MAKE_BACKUP cfg) eqn:Hmb; simpl; [|by intros [= <- <- <-]].
  destruct (DRY_RUN cfg) eqn:Hdry; simpl; [by intros [= <- <- <-]|].
  fold (backup_path cfg env t).
  destruct (makedirs _ fss) as [e|fsm] eqn:Hm; [by intros [= <- <- <-]|].
  apply makedirs_grows in Hm.
  assert (∀ q, is_target cfg fs0 q → fsm !! q = fss !! q) as Hkeep.
  { intros q Hq. destruct (fs_inv_target_file cfg env fs0 fss q Hinv Hq) as [d Hd].
    rewrite Hd. by eapply grows_keeps. }
  destruct (copy2 t _ fsm) as [e|fs2] eqn:Hc; intros [= <- <- <-]; [done|].
  intros q Hq. apply copy2_spec in Hc as (d & _ & _ & _ & _ & ->).
  rewrite lookup_insert_ne; [by apply Hkeep|].
  intros <-. revert Hq. apply not_target_deep.
  pose proof (backup_path_deep cfg env fs0 t Ht) as Hd.
  destruct (isdir fsm _); [by apply deep_child|done].
Qed.

Lemma backup_effect_fs_inv t fss ops fs1 r :
  is_target cfg fs0 t → fs_inv cfg env fs0 fss →
  backup_effect cfg (take_backup_root cfg env) t fss = (ops, fs1, r) →
  fs_inv cfg env fs0 fs1.
Proof.
  intros Ht Hinv Hb.
  destruct (MAKE_BACKUP cfg) eqn:Hmb, (DRY_RUN cfg) eqn:Hdry.
  2:{ by destruct (backup_effect_inv cfg env fs0 t fss ops fs1 r Hmb Hdry Ht Hinv Hb). }
  all: unfold backup_effect in Hb; rewrite Hmb, Hdry in Hb; simpl in Hb.
  all: by injection Hb as <- <- <-.
Qed.

(** A transfer changes no target but its own, and not even that one when
    it fails. *)
Lemma transfer_targets t src fss ops fs' r :
  is_target cfg fs0 t → fs_inv cfg env fs0 fss →
  transfer cfg (take_backup_root cfg env) t src fss = (ops, fs', r) →
  ∀ q, is_target cfg fs0 q → q ≠ t ∨ (∃ e, r = inl e) → fs' !! q = fss !! q.
Proof.
  intros Ht Hinv. unfold transfer.
  destruct (backup_effect cfg _ t fss) as [[ops1 fs1] r1] eqn:Hb.
  pose proof (backup_effect_targets t fss ops1 fs1 r1 Ht Hinv Hb) as Hkeep.
  pose proof (backup_effect_fs_inv t fss ops1 fs1 r1 Ht Hinv Hb) as Hinv1.
  destruct r1 as [e|[]]; [intros [= <- <- <-] q Hq _; by apply Hkeep|].
  unfold replace_effect. destruct (DRY_RUN cfg); simpl.
  { intros [= <- <- <-] q Hq _. by apply Hkeep. }
  destruct (copy2 src t fs1) as [e|fs2] eqn:Hc; intros [= <- <- <-] q Hq Hcase.
  { by apply Hkeep. }
  destruct Hcase as [Hne|[e [=]]].
  apply copy2_spec in Hc as (d & _ & _ & _ & _ & ->).
  destruct (fs_inv_target_file cfg env fs0 fs1 t Hinv1 Ht) as [d0 Hd0].
  assert (isdir fs1 t = false) as -> by (unfold isdir; by rewrite Hd0).
  rewrite lookup_insert_ne by done. by apply Hkeep.
Qed.

(** The targets not replaced are as at the start, and nothing has been
    copied onto a target left unmatched: at every state the run can stop
    in. *)
Lemma run_untouched r s :
  run cfg env fs0 = (r, s) →
  untouched cfg fs0 (replacements s) (fs s)
  ∧ (∀ x y, Copy2 x y ∈ oplog s → y ∉ unmatched s)
  ∧ NoDup (recorded s)
  ∧ Forall (is_target cfg fs0) (recorded s).
Proof.
  intros Hrun.
  set (J := fun s : state =>
    untouched cfg fs0 (replacements s) (fs s)
    ∧ (∀ x y, Copy2 x y ∈ oplog s → y ∉ unmatched s)).
  assert (∀ ops s0, Forall (fun op => ¬ is_mutation op) ops → J s0 → J (logged ops s0))
    as Hlogged.
  { intros ops s0 Hops [Hu Hc]. split; [done|]. simpl.
    intros x y [Hin|Hin]%elem_of_app; [by apply (Hc x y)|].
    by destruct (no_mutation_no_copy ops x y Hops Hin). }
  assert (∀ (pending : path → Prop) s0 t, pending t → loop_inv cfg env fs0 pending s0 →
            t ∉ recorded s0) as Hpend.
  { intros pending s0 t Hpt Hinv Hin.
    pose proof (li_pending _ _ _ _ _ Hinv) as Hp. rewrite Forall_forall in Hp.
    by apply (Hp t Hin). }
  destruct (run_carried cfg env fs0 J J r s) as (s1 & Hfin & -> & HJ & Hearly);
    try done.
  - intros pending s0 t Ht Hpt Hinv [Hu Hc]. split; [done|]. simpl.
    intros x y [Hin|Hin]%elem_of_app.
    2:{ apply list_elem_of_singleton in Hin. discriminate Hin. }
    intros [Hy|Hy]%elem_of_app; [by apply (Hc x y)|].
    apply list_elem_of_singleton in Hy as ->.
    destruct (li_over _ _ _ _ _ Hinv x t Hin) as [Hd|Hrep].
    + by apply (not_target_deep t).
    + apply (Hpend pending s0 t Hpt Hinv). by apply target_in_recorded.
  - intros pending s0 sub n src m ops fs' r' Ht Hpt Hinv [Hu Hc] Hm Htr.
    set (t := ASSETS_IMAGES cfg ++ [sub; n]) in *.
    pose proof (li_final _ _ _ _ _ Hinv) as Hfin0.
    pose proof (transfer_targets t src (fs s0) ops fs' r' Ht (fi_fs _ _ _ _ Hfin0) Htr)
      as Hkeep.
    destruct (transfer_inv cfg env fs0 t src (fs s0) ops fs' r' Ht
                (fi_fs _ _ _ _ Hfin0) Htr) as (_ & Hops & _ & _).
    assert (∀ x y, Copy2 x y ∈ oplog s0 ++ Isfile t :: ops → y ∉ unmatched s0) as Hc'.
    { intros x y [Hin|Hin]%elem_of_app; [by apply (Hc x y)|].
      apply elem_of_cons in Hin as [Hin|Hin]; [discriminate Hin|].
      intros Hy. assert (y ∈ recorded s0) as Hrec.
      { unfold recorded. apply elem_of_app. by right. }
      destruct (Hops x y Hin) as [[_ Hd] | Hyt].
      - pose proof (fi_rec _ _ _ _ Hfin0) as Hall. rewrite Forall_forall in Hall.
        by apply (not_target_deep y Hd), Hall.
      - subst y. by apply (Hpend pending s0 t Hpt Hinv). }
    destruct r' as [e|[]]; (split; [|done]); simpl.
    + intros q Hq Hnot. destruct (decide (q = t)) as [->|Hne].
      * rewrite (Hkeep t Ht); [by apply Hu|]. right. by exists e.
      * rewrite (Hkeep q Hq); [by apply Hu|]. by left.
    + intros q Hq Hnot. rewrite map_app in Hnot. simpl in Hnot.
      rewrite (Hkeep q Hq).
      * apply Hu; [done|]. intros Hin. apply Hnot. apply elem_of_app. by left.
      * left. intros ->. apply Hnot. apply elem_of_app. right. left.
  - intros s0 n e t HJ0 _. apply Hlogged; [|done].
    constructor; [by intros []|constructor].
  - split; [by intros q _ _|]. by intros x y ?%elem_of_nil.
  - simpl. assert (J s1) as [Hu Hc].
    { destruct (gather (walked env)) as [|f files] eqn:Hg.
      { destruct Hearly as [ops ->]; [by left|]. split; [by intros q _ _|].
        intros x y _ ?%elem_of_nil. done. }
      destruct (isdir fs0 (ASSETS_IMAGES cfg)) eqn:Hd.
      2:{ destruct Hearly as [ops ->]; [by right|]. split; [by intros q _ _|].
          intros x y _ ?%elem_of_nil. done. }
      specialize (HJ ltac:(done) eq_refl). by destruct r. }
    split_and!; [done|done|apply (fi_nodup _ _ _ _ Hfin)|apply (fi_rec _ _ _ _ Hfin)].
Qed.
End targets_kept.

(** X8.  A target left unmatched is left alone: wherever the run stops,
    it is a target that is not in the replacements list, it holds what it
    held at the start, and no call has copied anything onto it. *)
Theorem unmatched_left_alone (cfg : config) (env : environment)
    (fs0 : filesystem) (t : path) :
  let s := (run cfg env fs0).2 in
  t ∈ unmatched s →
  is_target cfg fs0 t
  ∧ (t ∉ List.map target (replacements s))
  ∧ fs s !! t = fs0 !! t
  ∧ (∀ x, Copy2 x t ∉ oplog s).
Proof.
  intros s Hin. subst s. destruct (run cfg env fs0) as [r s] eqn:Hrun. simpl in *.
  destruct (run_untouched cfg env fs0 r s Hrun) as (Hu & Hc & Hnd & Hrec).
  assert (is_target cfg fs0 t) as Ht.
  { rewrite Forall_forall in Hrec. apply Hrec. unfold recorded.
    apply elem_of_app. by right. }
  assert (t ∉ List.map target (replacements s)) as Hnot.
  { unfold recorded in Hnd. apply NoDup_app in Hnd as (_ & Hdisj & _).
    intros Hrep. by apply (Hdisj t). }
  split_and!; [done|done|by apply Hu|].
  intros x Hx. by apply (Hc x t).
Qed.

Lemma unmatched_left_alone_witness :
  is_target ex_cfg ex_fs ["assets"; "gal"; "zzz.png"]
  ∧ (["assets"; "gal"; "zzz.png"]
       ∉ List.map target (replacements (run ex_cfg ex_env ex_fs).2))
  ∧ fs (run ex_cfg ex_env ex_fs).2 !! ["assets"; "gal"; "zzz.png"]
    = ex_fs !! ["assets"; "gal"; "zzz.png"]
  ∧ (∀ x, Copy2 x ["assets"; "gal"; "zzz.png"] ∉ oplog (run ex_cfg ex_env ex_fs).2).
Proof.
  apply (unmatched_left_alone ex_cfg ex_env ex_fs ["assets"; "gal"; "zzz.png"]).
  by_computation.
Defined.

(** X9.  In a live run with backups, begun where this run's backup
    directory does not exist yet and the reference files lie outside the
    target tree, no original is lost, wherever the run stops, be it at its
    end or at an exception in the middle of a transfer: a target either
    still holds what it held at the start, or the mirrored path under the
    backup directory holds it. *)
Theorem originals_never_lost (cfg : config) (env : environment)
    (fs0 : filesystem) (t : path) :
  let s := (run cfg env fs0).2 in
  DRY_RUN cfg = false →
  MAKE_BACKUP cfg = true →
  (∀ q, (ASSETS_IMAGES cfg ++ ["_backup_" +:+ now env]) `prefix_of` q →
        fs0 !! q = None) →
  (∀ p, p ∈ gather (walked env) → ¬ ASSETS_IMAGES cfg `prefix_of` p) →
  is_target cfg fs0 t →
  fs s !! t = fs0 !! t
  ∨ ∃ dt, fs0 !! t = Some (File dt)
          ∧ fs s !! backup_path cfg env t = Some (File dt).
Proof.
  intros s Hlive Hbackup Hfresh Hapart Ht. subst s.
  destruct (run cfg env fs0) as [r s] eqn:Hrun. simpl.
  destruct (run_untouched cfg env fs0 r s Hrun) as (Hu & _).
  destruct (run_contents cfg env fs0 Hlive Hbackup Hfresh Hapart r s Hrun) as [_ Hc].
  destruct (decide (t ∈ List.map target (replacements s))) as [Hin|Hnot].
  - right. apply list_elem_of_In, in_map_iff in Hin as ([[t' src] m] & Heq & Hin).
    unfold target in Heq. simpl in Heq. subst t'. apply list_elem_of_In in Hin.
    destruct (Hc t src m Hin) as (dt & ds & _ & H0 & _ & _ & Hb & _).
    by exists dt.
  - left. by apply Hu.
Qed.

Lemma originals_never_lost_witness :
  fs (run ex_cfg ex_env ex_fs).2 !! ["assets"; "gal"; "beach_sunset.JPG"]
    = ex_fs !! ["assets"; "gal"; "beach_sunset.JPG"]
  ∨ ∃ dt, ex_fs !! ["assets"; "gal"; "beach_sunset.JPG"] = Some (File dt)
          ∧ fs (run ex_cfg ex_env ex_fs).2
              !! backup_path ex_cfg ex_env ["assets"; "gal"; "beach_sunset.JPG"]
            = Some (File dt).
Proof.
  apply (originals_never_lost ex_cfg ex_env ex_fs ["assets"; "gal"; "beach_sunset.JPG"]).
  - reflexivity.
  - reflexivity.
  - apply ex_fs_fresh.
  - intros p Hp. apply (proj1 (ex_sources p Hp)).
  - exists "gal", "beach_sunset.JPG". split_and!; reflexivity.
Defined.

(** ** Runs without backup, and dry runs *)

(** A call that creates nothing: a query, or a copy of a reference file
    onto a target. *)
Definition plain_op (cfg : config) (env : environment) (fs0 : filesystem)
    (op : fsop) : Prop :=
  match op with
  | Makedirs _ => False
  | Copy2 x y => is_target cfg fs0 y ∧ x ∈ gather (walked env)
  | _ => True
  end.

Lemma no_mutation_plain cfg env fs0 ops :
  Forall (fun op => ¬ is_mutation op) ops → Forall (plain_op cfg env fs0) ops.
Proof. intros H. eapply Forall_impl; [done|]. intros [] Hm; simpl in *; done. Qed.

Lemma transfer_no_backup cfg env fs0 t src fss ops fs' r :
  MAKE_BACKUP cfg = false →
  is_target cfg fs0 t → fs_inv cfg env fs0 fss →
  transfer cfg (take_backup_root cfg env) t src fss = (ops, fs', r) →
  (ops = [] ∨ ops = [Copy2 src t])
  ∧ (fs' = fss ∨ ∃ d, r = inr tt ∧ fs' = <[t := File d]> fss).
Proof.
  intros Hmb Ht Hinv. unfold transfer, backup_effect, replace_effect.
  rewrite Hmb. simpl. destruct (DRY_RUN cfg); simpl.
  { intros [= <- <- <-]. split; by left. }
  destruct (copy2 src t fss) as [e|fs2] eqn:Hc; intros [= <- <- <-].
  { split; [by right|by left]. }
  split; [by right|]. right.
  apply copy2_spec in Hc as (d & _ & _ & _ & _ & ->).
  destruct (fs_inv_target_file cfg env fs0 fss t Hinv Ht) as [d0 Hd0].
  assert (isdir fss t = false) as -> by (unfold isdir; by rewrite Hd0).
  by exists d.
Qed.

(** X10.  With [MAKE_BACKUP] off the run creates nothing: wherever it
    stops, the file system has exactly the paths it had at the start, an
    entry that differs from the start is a target in the replacements
    list, no directory has been made, and every copy was one of a
    reference file onto a target. *)
Theorem without_backup_nothing_new (cfg : config) (env : environment)
    (fs0 : filesystem) :
  let s := (run cfg env fs0).2 in
  MAKE_BACKUP cfg = false →
  (∀ q, is_Some (fs s !! q) ↔ is_Some (fs0 !! q))
  ∧ (∀ q, fs s !! q ≠ fs0 !! q → q ∈ List.map target (replacements s))
  ∧ (∀ p, Makedirs p ∉ oplog s)
  ∧ (∀ x y, Copy2 x y ∈ oplog s → is_target cfg fs0 y ∧ x ∈ gather (walked env)).
Proof.
  intros s Hmb. subst s. destruct (run cfg env fs0) as [r s] eqn:Hrun. simpl.
  set (J := fun s : state =>
    (∀ q, is_Some (fs s !! q) ↔ is_Some (fs0 !! q))
    ∧ (∀ q, fs s !! q ≠ fs0 !! q → q ∈ List.map target (replacements s))
    ∧ Forall (plain_op cfg env fs0) (oplog s)).
  assert (∀ ops s0, Forall (fun op => ¬ is_mutation op) ops → J s0 → J (logged ops s0))
    as Hlogged.
  { intros ops s0 Hops (Hd & Hc & Hp). split_and!; [done..|]. simpl.
    apply Forall_app. split; [done|]. by apply no_mutation_plain. }
  assert (J (initial fs0)) as Hinit.
  { split_and!; [done|by intros q []|constructor]. }
  assert (J s) as (Hd & Hc & Hp).
  { destruct (gather (walked env)) as [|f files] eqn:Hg.
    { rewrite run_eq in Hrun. cbv zeta in Hrun. rewrite Hg in Hrun.
      injection Hrun as <- <-. apply Hlogged; [|done].
      constructor; [by intros []|constructor]. }
    destruct (isdir fs0 (ASSETS_IMAGES cfg)) eqn:Hdir.
    2:{ rewrite run_eq in Hrun. cbv zeta in Hrun. rewrite Hg in Hrun.
        unfold listdir in Hrun. rewrite Hdir in Hrun.
        injection Hrun as <- <-. apply Hlogged; [|done].
        constructor; [by intros []|]. constructor; [by intros []|constructor]. }
    destruct (run_carried cfg env fs0 J J r s) as (s1 & Hfin & -> & HJ & _);
      try done.
    - intros pending s0 t Ht Hpt Hinv (Hd & Hc & Hp). split_and!; [done..|]. simpl.
      apply Forall_app. split; [done|]. by repeat constructor.
    - intros pending s0 sub n src m ops fs' r' Ht Hpt Hinv (Hd & Hc & Hp) Hm Htr.
      set (t := ASSETS_IMAGES cfg ++ [sub; n]) in *.
      pose proof (fi_fs _ _ _ _ (li_final _ _ _ _ _ Hinv)) as Hfs.
      destruct (transfer_no_backup cfg env fs0 t src (fs s0) ops fs' r' Hmb Ht Hfs Htr)
        as [Hops Hfs'].
      apply match_target_source in Hm.
      assert (Forall (plain_op cfg env fs0) (oplog s0 ++ Isfile t :: ops)) as Hp'.
      { apply Forall_app. split; [done|]. constructor; [done|].
        destruct Hops as [->| ->]; by repeat constructor. }
      destruct (fs_inv_target_file cfg env fs0 (fs s0) t Hfs Ht) as [d0 Hd0].
      destruct r' as [e|[]].
      + destruct Hfs' as [->|(d & [=] & _)]. by split_and!.
      + simpl. split_and!; [| |done].
        * intros q. destruct Hfs' as [->|(d & _ & ->)]; [done|]. simpl.
          destruct (decide (q = t)) as [->|Hne].
          -- rewrite lookup_insert_eq, <-Hd, Hd0. by split; eexists.
          -- by rewrite lookup_insert_ne.
        * intros q Hq. simpl in *. rewrite map_app. apply elem_of_app.
          destruct (decide (q = t)) as [->|Hne]; [right; left|left].
          apply Hc. destruct Hfs' as [->|(d & _ & ->)]; [done|].
          by rewrite lookup_insert_ne in Hq.
    - intros s0 n e t HJ0 _. apply Hlogged; [|done].
      constructor; [by intros []|constructor].
    - specialize (HJ ltac:(by rewrite Hg) Hdir).
      assert (J s1) as (? & ? & ?) by by destruct r.
      by split_and!. }
  split_and!; [done|done| |].
  - intros p Hin. rewrite Forall_forall in Hp. apply (Hp _ Hin).
  - intros x y Hin. rewrite Forall_forall in Hp. apply (Hp _ Hin).
Qed.

Definition ex_cfg_no_backup : config :=
  {| WEBSITE_FOLDER := ["web"];
     ASSETS_IMAGES := ["assets"];
     DRY_RUN := false;
     MAKE_BACKUP := false;
     FUZZY_CUTOFF := 78 # 100 |}.

Lemma without_backup_nothing_new_witness :
  (∀ q, is_Some (fs (run ex_cfg_no_backup ex_env ex_fs).2 !! q) ↔ is_Some (ex_fs !! q))
  ∧ (∀ q, fs (run ex_cfg_no_backup ex_env ex_fs).2 !! q ≠ ex_fs !! q →
          q ∈ List.map target (replacements (run ex_cfg_no_backup ex_env ex_fs).2))
  ∧ (∀ p, Makedirs p ∉ oplog (run ex_cfg_no_backup ex_env ex_fs).2)
  ∧ (∀ x y, Copy2 x y ∈ oplog (run ex_cfg_no_backup ex_env ex_fs).2 →
            is_target ex_cfg_no_backup ex_fs y ∧ x ∈ gather (walked ex_env)).
Proof. apply (without_backup_nothing_new ex_cfg_no_backup ex_env ex_fs). reflexivity. Defined.

(** X11.  A dry run makes no call that can fail on the content of the
    target tree: with at least one reference image, a target root that is
    a directory and a cutoff in [0, 1] it runs to its end, whatever the
    subfolders hold and whether or not the reference files can be read. *)
Theorem dry_run_completes (cfg : config) (env : environment) (fs0 : filesystem) :
  DRY_RUN cfg = true →
  gather (walked env) ≠ [] →
  isdir fs0 (ASSETS_IMAGES cfg) = true →
  valid_cutoff (FUZZY_CUTOFF cfg) = true →
  (run cfg env fs0).1 = inr tt.
Proof.
  intros Hdry Hfiles Hroot Hcut. destruct (run cfg env fs0) as [r s] eqn:Hrun. simpl.
  destruct (run_carried cfg env fs0 (fun _ => True) (fun _ => False) r s)
    as (s1 & _ & _ & HJ & _); try done.
  - intros pending s0 sub n src m ops fs' r' _ _ _ _ _ Htr.
    unfold transfer, backup_effect, replace_effect in Htr.
    rewrite Hdry, andb_false_r in Htr. simpl in Htr. by injection Htr as <- <- <-.
  - intros s0 n e t _ Hm.
    destruct (match_target_returns (build_index (gather (walked env)))
                (FUZZY_CUTOFF cfg) n) as [c Hc]; [apply build_index_nonempty|done|].
    congruence.
  - specialize (HJ Hfiles Hroot). by destruct r as [e|[]].
Qed.

Lemma dry_run_completes_witness :
  (run (with_dry_run true ex_cfg) ex_env ex_fs).1 = inr tt.
Proof.
  apply (dry_run_completes (with_dry_run true ex_cfg) ex_env ex_fs).
  - reflexivity.
  - discriminate.
  - reflexivity.
  - reflexivity.
Defined.

(** ** Normalized stems *)

Lemma sub_hyphen_runs_fixed b s :
  no_hyphen_pair s = true →
  (b = true → match s with
              | String c _ => is_hyphen c = false
              | EmptyString => True
              end) →
  sub_hyphen_runs b s = s.
Proof.
  revert b. induction s as [|c s IH]; intros b Hp Hb; [done|].
  cbn [sub_hyphen_runs]. simpl in Hp.
  destruct (is_hyphen c) eqn:Hc.
  - destruct b; [by specialize (Hb eq_refl)|].
    f_equal. destruct s as [|c' s]; [done|].
    apply andb_prop in Hp as [Hcc Hp]. apply IH; [done|].
    intros _. simpl in Hcc. by destruct (is_hyphen c').
  - f_equal. destruct s as [|c' s]; [done|].
    apply andb_prop in Hp as [_ Hp]. by apply IH.
Qed.

Lemma lower_length s : String.length (lower s) = String.length s.
Proof. induction s as [|c s IH]; simpl; [done|]. by rewrite IH. Qed.

Lemma lstrip_length s : String.length (lstrip s) ≤ String.length s.
Proof.
  induction s as [|c s IH]; simpl; [done|]. destruct (isspace c); simpl; lia.
Qed.

Lemma rstrip_length s : String.length (rstrip s) ≤ String.length s.
Proof.
  induction s as [|c s IH]; simpl; [done|].
  destruct (rstrip s) as [|c' r]; simpl in *; [destruct (isspace c); simpl; lia|lia].
Qed.

Lemma sub_sep_runs_length b s :
  String.length (sub_sep_runs b s) ≤ String.length s.
Proof.
  revert b. induction s as [|c s IH]; intros b; simpl; [done|].
  destruct (is_sep c), b; simpl; try apply le_n_S; try apply IH.
  etrans; [apply IH|lia].
Qed.

Lemma strip_unkept_length s : String.length (strip_unkept s) ≤ String.length s.
Proof.
  induction s as [|c s IH]; simpl; [done|]. destruct (is_kept c); simpl; lia.
Qed.

Lemma sub_hyphen_runs_length b s :
  String.length (sub_hyphen_runs b s) ≤ String.length s.
Proof.
  revert b. induction s as [|c s IH]; intros b; simpl; [done|].
  destruct (is_hyphen c), b; simpl; try apply le_n_S; try apply IH.
  etrans; [apply IH|lia].
Qed.

(** X12.  The strings [normalize_stem] leaves as they are are exactly
    those made of lowercase letters a-z, digits and hyphens with no two
    hyphens in a row; and normalizing never makes a string longer. *)
Theorem normalize_stem_fixed_points :
  (∀ x, normalize_stem x = x
        ↔ all_chars is_kept x = true ∧ no_hyphen_pair x = true)
  ∧ (∀ x, String.length (normalize_stem x) ≤ String.length x).
Proof.
  split.
  - intros x. split.
    + intros <-. split; [apply normalize_stem_kept|].
      apply (sub_hyphen_runs_no_pair false).
    + intros [Hk Hp]. unfold normalize_stem.
      rewrite lower_kept, strip_kept, sub_sep_runs_kept, strip_unkept_kept by done.
      by apply sub_hyphen_runs_fixed.
  - intros x. unfold normalize_stem, strip.
    etrans; [apply sub_hyphen_runs_length|].
    etrans; [apply strip_unkept_length|].
    etrans; [apply sub_sep_runs_length|].
    etrans; [apply rstrip_length|].
    etrans; [apply lstrip_length|].
    by rewrite lower_length.
Qed.

(** ** The order of the report *)

(** [t1] is visited before [t2]: its subfolder is the smaller string, or
    the subfolder is the same and its name is the smaller string. *)
Definition visited_before (A t1 t2 : path) : Prop :=
  ∃ sub1 n1 sub2 n2,
    t1 = A ++ [sub1; n1] ∧ t2 = A ++ [sub2; n2]
    ∧ (String.ltb sub1 sub2 = true ∨ (sub1 = sub2 ∧ String.ltb n1 n2 = true)).

Definition in_visiting_order (cfg : config) (s : state) : Prop :=
  StronglySorted (visited_before (ASSETS_IMAGES cfg)) (List.map target (replacements s))
  ∧ StronglySorted (visited_before (ASSETS_IMAGES cfg)) (unmatched s).

Definition all_before (cfg : config) (s : state) (q : path) : Prop :=
  ∀ t, t ∈ recorded s → visited_before (ASSETS_IMAGES cfg) t q.

Lemma StronglySorted_snoc {A} (R : relation A) (l : list A) x :
  StronglySorted R l → Forall (fun y => R y x) l → StronglySorted R (l ++ [x]).
Proof.
  induction 1 as [|y l Hss IH Hall]; intros Hx; simpl.
  - by repeat constructor.
  - apply Forall_cons in Hx as [Hyx Hx]. constructor; [by apply IH|].
    apply Forall_app. split; [done|]. by constructor.
Qed.

Lemma sorted_increasing (l : list string) :
  NoDup l → StronglySorted (fun x y => String.ltb x y = true) (sorted l).
Proof.
  intros Hnd%sorted_NoDup.
  assert (StronglySorted String.le (sorted l)) as Hss.
  { apply StronglySorted_merge_sort; apply _. }
  induction Hss as [|x l' Hss IH Hall]; [constructor|].
  apply NoDup_cons in Hnd as [Hx Hnd]. constructor; [by apply IH|].
  rewrite Forall_forall in *. intros y Hy. rewrite ltb_leb.
  destruct (String.leb y x) eqn:Hyx; [|done].
  exfalso. apply Hx. specialize (Hall y Hy).
  assert (x = y) as ->; [|done].
  apply (anti_symm String.le); [done|]. by apply Is_true_true.
Qed.

Section report_order.
Context (cfg : config) (idx : index) (broot : option path).

Lemma process_file_appends sub n s r s' :
  process_file cfg idx broot (ASSETS_IMAGES cfg ++ [sub]) n s = (r, s') →
  (replacements s' = replacements s ∧ unmatched s' = unmatched s)
  ∨ (∃ src m, replacements s'
              = replacements s ++ [(ASSETS_IMAGES cfg ++ [sub; n], src, m)]
              ∧ unmatched s' = unmatched s)
  ∨ (replacements s' = replacements s
     ∧ unmatched s' = unmatched s ++ [ASSETS_IMAGES cfg ++ [sub; n]]).
Proof.
  rewrite process_file_eq. unfold join. rewrite <-app_assoc. simpl.
  set (t := ASSETS_IMAGES cfg ++ [sub; n]).
  destruct (isfile (fs s) t && is_image n); [|intros [= <- <-]; by left].
  destruct (match_target idx (FUZZY_CUTOFF cfg) n) as [e|[[src m]|]].
  - intros [= <- <-]. by left.
  - destruct (transfer cfg broot t src (fs s)) as [[ops fs'] [e|[]]];
      intros [= <- <-]; [by left|].
    right. left. by exists src, m.
  - intros [= <- <-]. by right; right.
Qed.

Lemma process_file_order sub n (later : path → Prop) s r s' :
  in_visiting_order cfg s →
  all_before cfg s (ASSETS_IMAGES cfg ++ [sub; n]) →
  process_file cfg idx broot (ASSETS_IMAGES cfg ++ [sub]) n s = (r, s') →
  in_visiting_order cfg s'
  ∧ ∀ q, all_before cfg s q →
         visited_before (ASSETS_IMAGES cfg) (ASSETS_IMAGES cfg ++ [sub; n]) q →
         all_before cfg s' q.
Proof.
  intros [Hr Hu] Hb Hrun. unfold in_visiting_order, all_before, recorded in *.
  destruct (process_file_appends sub n s r s' Hrun)
    as [[-> ->]|[(src & m & -> & ->)|[-> ->]]]; [done| |].
  - rewrite map_app. simpl. split_and!; [|done|].
    + apply StronglySorted_snoc; [done|]. apply Forall_forall. intros t Ht.
      apply Hb. apply elem_of_app. by left.
    + intros q Hq Hn t [[Ht|Ht]%elem_of_app|Ht]%elem_of_app.
      * apply Hq, elem_of_app. by left.
      * by apply list_elem_of_singleton in Ht as ->.
      * apply Hq, elem_of_app. by right.
  - split_and!; [done| |].
    + apply StronglySorted_snoc; [done|]. apply Forall_forall. intros t Ht.
      apply Hb. apply elem_of_app. by right.
    + intros q Hq Hn t [Ht|[Ht|Ht]%elem_of_app]%elem_of_app.
      * apply Hq, elem_of_app. by left.
      * apply Hq, elem_of_app. by right.
      * by apply list_elem_of_singleton in Ht as ->.
Qed.

Lemma names_order sub names (later : path → Prop) s r s' :
  StronglySorted (fun x y => String.ltb x y = true) names →
  in_visiting_order cfg s →
  (∀ n, n ∈ names → all_before cfg s (ASSETS_IMAGES cfg ++ [sub; n])) →
  (∀ q, later q → all_before cfg s q) →
  (∀ n q, later q →
          visited_before (ASSETS_IMAGES cfg) (ASSETS_IMAGES cfg ++ [sub; n]) q) →
  for_each names (process_file cfg idx broot (ASSETS_IMAGES cfg ++ [sub])) s = (r, s') →
  in_visiting_order cfg s' ∧ (∀ q, later q → all_before cfg s' q).
Proof.
  intros Hss Hord Hnames Hlater Hsub Hrun.
  pose proof (for_each_inv
    (fun rest s1 =>
       StronglySorted (fun x y => String.ltb x y = true) rest
       ∧ in_visiting_order cfg s1
       ∧ (∀ n, n ∈ rest → all_before cfg s1 (ASSETS_IMAGES cfg ++ [sub; n]))
       ∧ (∀ q, later q → all_before cfg s1 q))
    (fun s1 => in_visiting_order cfg s1 ∧ (∀ q, later q → all_before cfg s1 q))
    (process_file cfg idx broot (ASSETS_IMAGES cfg ++ [sub]))) as Hloop.
  specialize (Hloop) with (l := names) (r := r) (s' := s') (s := s).
  assert (match r with
          | inr _ =>
              StronglySorted (fun x y => String.ltb x y = true) []
              ∧ in_visiting_order cfg s'
              ∧ (∀ n, n ∈ @nil string →
                      all_before cfg s' (ASSETS_IMAGES cfg ++ [sub; n]))
              ∧ (∀ q, later q → all_before cfg s' q)
          | inl _ => in_visiting_order cfg s' ∧ (∀ q, later q → all_before cfg s' q)
          end) as Hres.
  { apply Hloop; [|done|done].
    intros x rest s1 r1 s1' (Hss1 & Hord1 & Hn1 & Hl1) Hbody.
    apply StronglySorted_cons in Hss1 as [Hx Hss1]. rewrite Forall_forall in Hx.
    destruct (process_file_order sub x later s1 r1 s1' Hord1 (Hn1 x ltac:(left)) Hbody)
      as [Hord1' Hkeep].
    assert (∀ q, later q → all_before cfg s1' q) as Hl1'.
    { intros q Hq. apply Hkeep; [by apply Hl1|by apply Hsub]. }
    destruct r1 as [e|[]]; [done|]. split_and!; [done..| |done].
    intros n Hn. apply Hkeep; [apply Hn1; by right|].
    exists sub, x, sub, n. split_and!; [done..|]. right. split; [done|by apply Hx]. }
  destruct r as [e|[]]; [done|]. by destruct Hres as (_ & ? & _ & ?).
Qed.

Lemma process_sub_order sub (later : path → Prop) s r s' :
  in_visiting_order cfg s →
  (∀ n, all_before cfg s (ASSETS_IMAGES cfg ++ [sub; n])) →
  (∀ q, later q → all_before cfg s q) →
  (∀ n q, later q →
          visited_before (ASSETS_IMAGES cfg) (ASSETS_IMAGES cfg ++ [sub; n]) q) →
  process_sub cfg idx broot sub s = (r, s') →
  in_visiting_order cfg s' ∧ (∀ q, later q → all_before cfg s' q).
Proof.
  intros Hord Hnames Hlater Hsub. rewrite process_sub_eq. cbv zeta.
  change (join (ASSETS_IMAGES cfg) [sub]) with (ASSETS_IMAGES cfg ++ [sub]).
  destruct (isdir (fs s) _); [|by intros [= <- <-]].
  destruct (listdir (fs s) _) as [e|names] eqn:Hl; [by intros [= <- <-]|].
  apply listdir_spec in Hl as (_ & Hnd & _).
  apply (names_order sub (sorted names) later); try done.
  - by apply sorted_increasing.
  - intros n _. apply Hnames.
Qed.

Lemma subs_order subs s r s' :
  StronglySorted (fun x y => String.ltb x y = true) subs →
  in_visiting_order cfg s →
  (∀ sub n, sub ∈ subs → all_before cfg s (ASSETS_IMAGES cfg ++ [sub; n])) →
  for_each subs (process_sub cfg idx broot) s = (r, s') →
  in_visiting_order cfg s'.
Proof.
  intros Hss Hord Hsubs Hrun.
  pose proof (for_each_inv
    (fun rest s1 =>
       StronglySorted (fun x y => String.ltb x y = true) rest
       ∧ in_visiting_order cfg s1
       ∧ (∀ sub n, sub ∈ rest → all_before cfg s1 (ASSETS_IMAGES cfg ++ [sub; n])))
    (in_visiting_order cfg)
    (process_sub cfg idx broot)) as Hloop.
  specialize (Hloop) with (l := subs) (r := r) (s' := s') (s := s).
  assert (match r with
          | inr _ =>
              StronglySorted (fun x y => String.ltb x y = true) []
              ∧ in_visiting_order cfg s'
              ∧ (∀ sub n, sub ∈ @nil string →
                          all_before cfg s' (ASSETS_IMAGES cfg ++ [sub; n]))
          | inl _ => in_visiting_order cfg s'
          end) as Hres.
  { apply Hloop; [|done|done].
    intros x rest s1 r1 s1' (Hss1 & Hord1 & Hs1) Hbody.
    apply StronglySorted_cons in Hss1 as [Hx Hss1]. rewrite Forall_forall in Hx.
    destruct (process_sub_order x
                (fun q => ∃ sub n, sub ∈ rest ∧ q = ASSETS_IMAGES cfg ++ [sub; n])
                s1 r1 s1' Hord1) as [Hord1' Hl1']; [| | |done|].
    - intros n. apply Hs1. left.
    - intros q (sub & n & Hin & ->). apply Hs1. by right.
    - intros n q (sub & n' & Hin & ->). exists x, n, sub, n'.
      split_and!; [done..|]. left. by apply Hx.
    - destruct r1 as [e|[]]; [done|]. split_and!; [done..|].
      intros sub n Hin. apply Hl1'. by exists sub, n. }
  destruct r as [e|[]]; [done|]. by destruct Hres as (_ & ? & _).
Qed.
End report_order.

(** X13.  The report follows the order of the visit.  In every run, ended
    or stopped by an exception, the targets of the replacements list and
    those of the unmatched list are each in ascending order: by the name
    of their subfolder and, within one subfolder, by their own name, both
    compared as strings by code points. *)
Theorem report_in_visiting_order (cfg : config) (env : environment)
    (fs0 : filesystem) :
  let s := (run cfg env fs0).2 in
  StronglySorted (visited_before (ASSETS_IMAGES cfg)) (List.map target (replacements s))
  ∧ StronglySorted (visited_before (ASSETS_IMAGES cfg)) (unmatched s).
Proof.
  intros s. subst s. rewrite run_eq. cbv zeta.
  assert (in_visiting_order cfg (initial fs0)) as Hinit by (split; constructor).
  destruct (gather (walked env)) as [|f files]; [done|].
  destruct (listdir fs0 (ASSETS_IMAGES cfg)) as [e|subs] eqn:Hl; [done|].
  apply listdir_spec in Hl as (_ & Hnd & _).
  destruct (for_each _ _ _) as [r s1] eqn:Hloop.
  apply subs_order in Hloop; [by destruct r as [e|[]]|by apply sorted_increasing|done|].
  intros sub n _ t Ht. by apply elem_of_nil in Ht.
Qed.

(** ** The exceptions a run can end with *)

Lemma mkdir_fails name fs e : mkdir name fs = inl e → e = OSError.
Proof.
  unfold mkdir. destruct (fs !! name); [by intros [= <-]|].
  destruct (isdir fs (dirname name)); [done|by intros [= <-]].
Qed.

Lemma makedirs_rev_fails rname fs e : makedirs_rev rname fs = inl e → e = OSError.
Proof.
  revert fs. induction rname as [|x rhead IH]; intros fs.
  - simpl. destruct (mkdir [] fs) as [e'|fs'] eqn:Hm; [|done].
    destruct (isdir fs []); [done|]. intros [= <-]. by eapply mkdir_fails.
  - rewrite makedirs_rev_cons. unfold makedirs_head.
    assert (∀ fs1, match mkdir (rev (x :: rhead)) fs1 with
                   | inr fs' => inr fs'
                   | inl e0 => if isdir fs1 (rev (x :: rhead)) then inr fs1 else inl e0
                   end = inl e → e = OSError) as Hlast.
    { intros fs1. destruct (mkdir _ fs1) as [e'|fs'] eqn:Hm; [|done].
      destruct (isdir fs1 _); [done|]. intros [= <-]. by eapply mkdir_fails. }
    destruct rhead as [|y rhead']; [apply Hlast|].
    destruct (exists_ fs (rev (y :: rhead'))); [apply Hlast|].
    destruct (makedirs_rev (y :: rhead') fs) as [e'|fs1] eqn:Hr; simpl.
    + intros [= <-]. by eapply IH.
    + apply Hlast.
Qed.

Lemma copy2_fails src dst fs e : copy2 src dst fs = inl e → e = OSError.
Proof.
  unfold copy2. set (dst' := if isdir fs dst then _ else dst).
  destruct (bool_decide (src = dst')); [by intros [= <-]|].
  destruct (fs !! src) as [[data| |]|]; try by intros [= <-].
  destruct (fs !! dst') as [[old| |]|]; try by intros [= <-].
  all: destruct (isdir fs (dirname dst')); [done|by intros [= <-]].
Qed.

Lemma transfer_raises cfg env t src fss ops fs' e :
  transfer cfg (take_backup_root cfg env) t src fss = (ops, fs', inl e) → e = OSError.
Proof.
  unfold transfer, backup_effect, take_backup_root, replace_effect.
  destruct (MAKE_BACKUP cfg), (DRY_RUN cfg); simpl; try done.
  - destruct (makedirs _ fss) as [e1|fs1] eqn:Hm.
    { intros [= _ _ <-]. by eapply makedirs_rev_fails. }
    destruct (copy2 t _ fs1) as [e2|fs2] eqn:Hc.
    { intros [= _ _ <-]. by eapply copy2_fails. }
    destruct (copy2 src t fs2) as [e3|fs3] eqn:Hc'; [|done].
    intros [= _ _ <-]. by eapply copy2_fails.
  - destruct (copy2 src t fss) as [e3|fs3] eqn:Hc'; [|done].
    intros [= _ _ <-]. by eapply copy2_fails.
Qed.

Lemma for_each_raises {A} (P : exn → Prop) (body : A → M unit) :
  (∀ x s e s', body x s = (inl e, s') → P e) →
  ∀ l s e s', for_each l body s = (inl e, s') → P e.
Proof.
  intros Hbody l. induction l as [|x l IH]; intros s e s'; simpl; [done|].
  unfold mbind, M_bind. destruct (body x s) as [[e1|[]] s1] eqn:Hb.
  - intros [= <- <-]. by eapply Hbody.
  - apply IH.
Qed.

Lemma match_target_raises idx cutoff fname e :
  buckets_nonempty (by_stem idx) →
  match_target idx cutoff fname = inl e →
  e = ValueError ∧ valid_cutoff cutoff = false.
Proof.
  intros Hne Hm. split.
  - destruct (match_target_no_IndexError idx cutoff fname Hne)
      as (H1 & H2 & H3 & H4 & H5).
    destruct e; try done. by destruct (H5 folder).
  - destruct (valid_cutoff cutoff) eqn:Hv; [|done].
    destruct (match_target_returns idx cutoff fname Hne Hv) as [c Hc]. congruence.
Qed.

(** X14.  A run that does not reach its end ends in one of three
    exceptions: [SystemExit], raised by the script itself when no
    reference image was gathered; [OSError], raised by a file-system call
    that failed; [ValueError], raised by [get_close_matches] and only when
    the cutoff lies outside [0, 1].  Neither [bucket[0]], nor a look-up in
    the index, nor the join with the backup root can raise. *)
Theorem run_raises_only (cfg : config) (env : environment) (fs0 : filesystem)
    (e : exn) :
  (run cfg env fs0).1 = inl e →
  (e = SystemExit (WEBSITE_FOLDER cfg) ∧ gather (walked env) = [])
  ∨ (e = OSError ∧ gather (walked env) ≠ [])
  ∨ (e = ValueError ∧ gather (walked env) ≠ []
     ∧ valid_cutoff (FUZZY_CUTOFF cfg) = false).
Proof.
  rewrite run_eq. cbv zeta.
  destruct (gather (walked env)) as [|f files] eqn:Hg.
  { intros [= <-]. by left. }
  assert (f :: files ≠ []) as Hne by done.
  destruct (listdir fs0 (ASSETS_IMAGES cfg)) as [e1|subs] eqn:Hl.
  { intros [= <-]. right. left. split; [by eapply listdir_fails|done]. }
  destruct (for_each _ _ _) as [[e1|[]] s1] eqn:Hloop; [|done].
  intros [= <-].
  assert (e1 = OSError ∨ (e1 = ValueError ∧ valid_cutoff (FUZZY_CUTOFF cfg) = false))
    as [->|[-> Hv]]; [|right; by left|right; by right].
  revert Hloop.
  apply (for_each_raises
           (fun e => e = OSError
                     ∨ (e = ValueError ∧ valid_cutoff (FUZZY_CUTOFF cfg) = false))).
  intros sub s0 e0 s0'.
  rewrite process_sub_eq. cbv zeta.
  destruct (isdir (fs s0) _); [|done].
  destruct (listdir (fs s0) _) as [e2|names] eqn:Hl2.
  { intros [= <- _]. left. by eapply listdir_fails. }
  apply (for_each_raises
           (fun e => e = OSError
                     ∨ (e = ValueError ∧ valid_cutoff (FUZZY_CUTOFF cfg) = false))).
  intros n s2 e2 s2'. rewrite process_file_eq. cbv zeta.
  destruct (isfile (fs s2) _ && is_image n); [|done].
  destruct (match_target _ _ n) as [e3|[[src m]|]] eqn:Hm; [| |done].
  - intros [= <- _]. right.
    eapply match_target_raises; [apply build_index_nonempty|done].
  - destruct (transfer cfg _ _ src (fs s2)) as [[ops fs'] [e3|[]]] eqn:Htr; [|done].
    intros [= <- _]. left. by eapply transfer_raises.
Qed.

Lemma run_raises_only_witness :
  (OSError = SystemExit (WEBSITE_FOLDER ex_cfg) ∧ gather (walked ex_env) = [])
  ∨ (OSError = OSError ∧ gather (walked ex_env) ≠ [])
  ∨ (OSError = ValueError ∧ gather (walked ex_env) ≠ []
     ∧ valid_cutoff (FUZZY_CUTOFF ex_cfg) = false).
Proof. apply (run_raises_only ex_cfg ex_env ex_fs_no_assets OSError). reflexivity. Defined.

(** ** Which files count as images *)

Lemma endswith_unfold s suf :
  endswith s suf
  = if String.eqb s suf then true
    else match s with
         | EmptyString => false
         | String _ s' => endswith s' suf
         end.
Proof. by destruct s. Qed.

Lemma endswith_spec s suf : endswith s suf = true ↔ ∃ pre, s = pre +:+ suf.
Proof.
  induction s as [|c s IH]; rewrite endswith_unfold.
  - destruct (String.eqb_spec "" suf) as [Hs|Hne].
    + split; [intros _; by exists ""|done].
    + split; [done|]. intros ([|c pre] & Hpre); [|done].
      rewrite append_empty in Hpre. done.
  - destruct (String.eqb_spec (String c s) suf) as [Hs|Hne].
    + split; [intros _; by exists ""|done].
    + rewrite IH. split.
      * intros [pre ->]. by exists (String c pre).
      * intros ([|c' pre] & Hpre).
        -- rewrite append_empty in Hpre. done.
        -- rewrite append_cons in Hpre. injection Hpre as -> ->. by exists pre.
Qed.

Lemma char_lower_twice c : char_lower (char_lower c) = char_lower c.
Proof. each_char c. Qed.

Lemma lower_twice s : lower (lower s) = lower s.
Proof. induction s as [|c s IH]; simpl; [done|]. by rewrite char_lower_twice, IH. Qed.

(** X15.  A name counts as an image exactly when, put in lower case, it
    ends in one of the eight extensions, so the test does not tell upper
    from lower case and needs no stem before the extension; and the
    reference files gathered are exactly the files of the walk whose name
    passes this test, each joined to the directory that lists it. *)
Theorem image_test_is_suffix :
  (∀ f, is_image f = true
        ↔ ∃ stem ext, ext ∈ IMAGE_EXTS ∧ lower f = stem +:+ ext)
  ∧ (∀ f, is_image (lower f) = is_image f)
  ∧ (∀ walk p, p ∈ gather walk
               ↔ ∃ root dirs files f,
                   (root, dirs, files) ∈ walk ∧ f ∈ files
                   ∧ is_image f = true ∧ p = root ++ [f]).
Proof.
  split_and!.
  - intros f. unfold is_image. rewrite existsb_exists. split.
    + intros (ext & Hin & [stem Hs]%endswith_spec).
      exists stem, ext. split; [by apply list_elem_of_In|done].
    + intros (stem & ext & Hin & Hs). exists ext.
      split; [by apply list_elem_of_In|]. apply endswith_spec. by exists stem.
  - intros f. unfold is_image. by rewrite lower_twice.
  - intros walk p. unfold gather. rewrite list_elem_of_In, in_flat_map. split.
    + intros ([[root dirs] files] & Hw & Hp).
      apply in_map_iff in Hp as (f & <- & [Hf Hi]%filter_In).
      exists root, dirs, files, f. split_and!; [|by apply list_elem_of_In|done|done].
      by apply list_elem_of_In.
    + intros (root & dirs & files & f & Hw & Hf & Hi & ->).
      exists (root, dirs, files). split; [by apply list_elem_of_In|].
      apply in_map_iff. exists f. split; [done|]. apply filter_In.
      split; [by apply list_elem_of_In|done].
Qed.

(** ** Where a backup goes *)

(** X16.  The backup of a path below the target root lies below the
    backup root at the same relative path, so that the one read relative
    to the backup root is the other read relative to the target root, and
    two such paths never share a backup. *)
Theorem backup_mirrors_target (cfg : config) (env : environment) (rest : path) :
  rest ≠ [] →
  backup_path cfg env (ASSETS_IMAGES cfg ++ rest)
    = ASSETS_IMAGES cfg ++ ["_backup_" +:+ now env] ++ rest
  ∧ relpath (backup_path cfg env (ASSETS_IMAGES cfg ++ rest))
            (ASSETS_IMAGES cfg ++ ["_backup_" +:+ now env])
    = relpath (ASSETS_IMAGES cfg ++ rest) (ASSETS_IMAGES cfg)
  ∧ (∀ rest', rest' ≠ [] →
       backup_path cfg env (ASSETS_IMAGES cfg ++ rest')
         = backup_path cfg env (ASSETS_IMAGES cfg ++ rest) →
       rest' = rest).
Proof.
  intros Hne.
  assert (∀ r, r ≠ [] →
            backup_path cfg env (ASSETS_IMAGES cfg ++ r)
            = ASSETS_IMAGES cfg ++ ["_backup_" +:+ now env] ++ r) as Hb.
  { intros r Hr. unfold backup_path, join. rewrite relpath_under by done.
    by rewrite <-app_assoc. }
  split_and!.
  - by apply Hb.
  - rewrite Hb, app_assoc, !relpath_under by done. done.
  - intros rest' Hne'. rewrite !Hb by done. intros H.
    by apply app_inv_head, app_inv_head in H.
Qed.

Lemma backup_mirrors_target_witness :
  backup_path ex_cfg ex_env ["assets"; "gal"; "zzz.png"]
  = ["assets"; "_backup_20240101_000000"; "gal"; "zzz.png"].
Proof.
  apply (proj1 (backup_mirrors_target ex_cfg ex_env ["gal"; "zzz.png"] ltac:(discriminate))).
Defined.
